(** * md-pub: the link/path resolution engine of [.render/render.js]

    A shallow embedding of the path mapper, the reference rewriter and
    the navigation builder of [render.js], together with the parts of
    the JavaScript platform they call (strings, [decodeURI], and the
    POSIX flavour of Node's [path] module); and of the steps of the
    build around them: the walk over the content tree, the copy of the
    tree and of the stylesheet, the configuration, frontmatter and
    headings, and the filling of the templates.

    JavaScript strings are sequences of UTF-16 code units; a code unit
    is modelled as a binary natural number. *)

From Stdlib Require Import Ascii String List NArith ZArith Bool Lia Arith.
Import ListNotations.

Set Warnings "-register-all".

Open Scope N_scope.
Open Scope list_scope.

(* ================================================================= *)
(** ** JavaScript strings *)

Definition jsstring := list N.

(** [js "abc"] is the JavaScript string literal ["abc"]. *)
Definition js (s : string) : jsstring :=
  map N_of_ascii (list_ascii_of_string s).

Definition ch (a : ascii) : N := N_of_ascii a.

Definition CHAR_FORWARD_SLASH : N := 47.
Definition CHAR_DOT : N := 46.

Definition str_eqb (a b : jsstring) : bool :=
  if list_eq_dec N.eq_dec a b then true else false.

Definition is_empty (s : jsstring) : bool :=
  match s with [] => true | _ => false end.

(** Canonicalisation of a code unit for a case-insensitive match
    against an ASCII pattern (flag [i], no flag [u]): only the ASCII
    capitals are identified with their lower-case twins. *)
Definition to_lower (c : N) : N :=
  if (65 <=? c) && (c <=? 90) then c + 32 else c.

(** [prefix_ci p s]: [s] starts with the lower-case pattern [p],
    ignoring the case of ASCII letters. *)
Fixpoint prefix_ci (p s : jsstring) : bool :=
  match p, s with
  | [], _ => true
  | _ :: _, [] => false
  | a :: p', c :: s' => (to_lower c =? a) && prefix_ci p' s'
  end.

(** [raw.startsWith(p)], case-sensitive. *)
Fixpoint startsWith (p s : jsstring) : bool :=
  match p, s with
  | [], _ => true
  | _ :: _, [] => false
  | a :: p', c :: s' => (c =? a) && startsWith p' s'
  end.

(** [/p$/i.test(s)] for a literal lower-case pattern [p]. *)
Definition ends_with_ci (p s : jsstring) : bool :=
  prefix_ci (rev p) (rev s).

(** [s.slice(0, s.length - n)]. *)
Definition drop_last (n : nat) (s : jsstring) : jsstring :=
  firstn (length s - n) s.

(** [s.replace(/p$/i, "")] for a literal lower-case pattern [p]. *)
Definition strip_suffix_ci (p s : jsstring) : jsstring :=
  if ends_with_ci p s then drop_last (length p) s else s.

(** [s.indexOf(c)] for a one-character needle: the prefix before the
    first occurrence and the suffix starting at it ([None] when the
    result of [indexOf] is [-1]). *)
Fixpoint cut_at (c : N) (s : jsstring) : option (jsstring * jsstring) :=
  match s with
  | [] => None
  | x :: t =>
      if x =? c then Some ([], s)
      else match cut_at c t with
           | Some (pre, suf) => Some (x :: pre, suf)
           | None => None
           end
  end.

(** [s.split("/")]. *)
Fixpoint split (s : jsstring) : list jsstring :=
  match s with
  | [] => [[]]
  | c :: t =>
      if c =? CHAR_FORWARD_SLASH then [] :: split t
      else match split t with
           | [] => [[c]]
           | h :: r => (c :: h) :: r
           end
  end.

(** [l.join("/")]. *)
Fixpoint joinSlash (l : list jsstring) : jsstring :=
  match l with
  | [] => []
  | [x] => x
  | x :: r => x ++ CHAR_FORWARD_SLASH :: joinSlash r
  end.

Fixpoint dropWhile (f : N -> bool) (s : jsstring) : jsstring :=
  match s with
  | [] => []
  | c :: t => if f c then dropWhile f t else s
  end.

Fixpoint takeWhile (f : N -> bool) (s : jsstring) : jsstring :=
  match s with
  | [] => []
  | c :: t => if f c then c :: takeWhile f t else []
  end.

(* ================================================================= *)
(** ** Node's [path] module, POSIX flavour

    The functions follow [lib/path.js] of Node.  [normalizeString]
    walks the path one segment at a time and keeps a stack of the
    segments retained so far; the stack is kept reversed here. *)

Module path.

Definition dot : jsstring := [CHAR_DOT].
Definition dotdot : jsstring := [CHAR_DOT; CHAR_DOT].

Definition isAbsolute (p : jsstring) : bool :=
  match p with c :: _ => c =? CHAR_FORWARD_SLASH | [] => false end.

Definition is_slash (c : N) : bool := c =? CHAR_FORWARD_SLASH.

(** One step of [normalizeString]: [res] is the reversed stack. *)
Definition normalizeStep (allowAboveRoot : bool) (res : list jsstring)
    (seg : jsstring) : list jsstring :=
  if is_empty seg || str_eqb seg dot then res
  else if str_eqb seg dotdot then
    match res with
    | top :: below =>
        if str_eqb top dotdot
        then (if allowAboveRoot then dotdot :: res else res)
        else below
    | [] => if allowAboveRoot then [dotdot] else []
    end
  else seg :: res.

Definition normalizeSegs (allowAboveRoot : bool) (res : list jsstring)
    (segs : list jsstring) : list jsstring :=
  fold_left (normalizeStep allowAboveRoot) segs res.

Definition normalizeString (p : jsstring) (allowAboveRoot : bool) : jsstring :=
  joinSlash (rev (normalizeSegs allowAboveRoot [] (split p))).

Definition trailingSlash (p : jsstring) : bool :=
  match rev p with c :: _ => is_slash c | [] => false end.

Definition normalize (p : jsstring) : jsstring :=
  if is_empty p then dot
  else
    let isAbs := isAbsolute p in
    let trailingSeparator := trailingSlash p in
    let q := normalizeString p (negb isAbs) in
    if is_empty q then
      (if isAbs then [CHAR_FORWARD_SLASH]
       else if trailingSeparator then dot ++ [CHAR_FORWARD_SLASH] else dot)
    else
      let q' := if trailingSeparator then q ++ [CHAR_FORWARD_SLASH] else q in
      if isAbs then CHAR_FORWARD_SLASH :: q' else q'.

(** [path.join(...args)]: the non-empty arguments are glued with ["/"]
    and the result is normalised. *)
Definition join (args : list jsstring) : jsstring :=
  let joined := joinSlash (filter (fun a => negb (is_empty a)) args) in
  if is_empty joined then dot else normalize joined.

(** The right-to-left loop of [path.resolve]; [todo] lists the
    arguments from the last to the first, followed by the working
    directory. *)
Fixpoint resolveLoop (todo : list jsstring) (resolvedPath : jsstring)
    : jsstring * bool :=
  match todo with
  | [] => (resolvedPath, false)
  | p :: rest =>
      if is_empty p then resolveLoop rest resolvedPath
      else
        let resolvedPath' := p ++ CHAR_FORWARD_SLASH :: resolvedPath in
        if isAbsolute p then (resolvedPath', true)
        else resolveLoop rest resolvedPath'
  end.

(** [path.resolve(...args)] in a process whose working directory is
    [cwd]. *)
Definition resolve (cwd : jsstring) (args : list jsstring) : jsstring :=
  let '(resolvedPath, resolvedAbsolute) := resolveLoop (rev args ++ [cwd]) [] in
  let q := normalizeString resolvedPath (negb resolvedAbsolute) in
  if resolvedAbsolute then CHAR_FORWARD_SLASH :: q
  else if is_empty q then dot else q.

(** The segments of a resolved absolute path. *)
Definition segments (p : jsstring) : list jsstring :=
  filter (fun s => negb (is_empty s)) (split p).

(** Drops the longest common prefix of two segment lists. *)
Fixpoint dropCommon (a b : list jsstring) : list jsstring * list jsstring :=
  match a, b with
  | x :: a', y :: b' => if str_eqb x y then dropCommon a' b' else (a, b)
  | _, _ => (a, b)
  end.

(** [path.relative(from, to)]: both paths are resolved, one [".."] is
    emitted for every segment of [from] below the common ancestor,
    followed by the segments of [to] below it. *)
Definition relative (cwd from to : jsstring) : jsstring :=
  if str_eqb from to then []
  else
    let from' := resolve cwd [from] in
    let to' := resolve cwd [to] in
    if str_eqb from' to' then []
    else
      let '(up, down) := dropCommon (segments from') (segments to') in
      joinSlash (map (fun _ => dotdot) up ++ down).

(** [path.dirname(p)]. *)
Definition dirname (p : jsstring) : jsstring :=
  match p with
  | [] => dot
  | c0 :: tl =>
      let hasRoot := is_slash c0 in
      let noTrail := dropWhile is_slash (rev tl) in
      match dropWhile (fun c => negb (is_slash c)) noTrail with
      | [] => if hasRoot then [CHAR_FORWARD_SLASH] else dot
      | _ :: before =>
          if hasRoot && is_empty before
          then [CHAR_FORWARD_SLASH; CHAR_FORWARD_SLASH]
          else c0 :: rev before
      end
  end.

(** [path.basename(p)], without the optional suffix argument. *)
Definition basename (p : jsstring) : jsstring :=
  rev (takeWhile (fun c => negb (is_slash c)) (dropWhile is_slash (rev p))).

End path.

(* ================================================================= *)
(** ** Exceptions *)

Inductive exn :=
| URIError        (* thrown by [decodeURI] *)
| YAMLException   (* thrown by [yaml.load] *)
| ErrnoException  (* a rejected [fs] call *)
| NoH1Error       (* [new Error("No H1 header found")] *)
| TypeError.      (* thrown by [path] on an argument that is no string *)

Inductive result (A : Type) :=
| Ok (a : A)
| Throw (e : exn).

Arguments Ok {A} a.
Arguments Throw {A} e.

Definition bind {A B} (r : result A) (k : A -> result B) : result B :=
  match r with
  | Ok a => k a
  | Throw e => Throw e
  end.

Notation "x <- r ;; k" := (bind r (fun x => k))
  (at level 61, r at next level, right associativity).

(** [try { r } catch { h }]. *)
Definition try_catch {A} (r : result A) (h : result A) : result A :=
  match r with
  | Ok a => Ok a
  | Throw _ => h
  end.

(* ================================================================= *)
(** ** [decodeURI] (ECMAScript [Decode] with the reserved set plus [#]) *)

Definition hexDigit (c : N) : option N :=
  if (48 <=? c) && (c <=? 57) then Some (c - 48)
  else if (65 <=? c) && (c <=? 70) then Some (c - 55)
  else if (97 <=? c) && (c <=? 102) then Some (c - 87)
  else None.

Definition hexOctet (h1 h2 : N) : option N :=
  match hexDigit h1, hexDigit h2 with
  | Some a, Some b => Some (16 * a + b)
  | _, _ => None
  end.

Definition CHAR_PERCENT : N := 37.

(** A continuation escape [%XX] whose octet has the form [10xxxxxx];
    the result is its six payload bits. *)
Definition contOctet (p h1 h2 : N) : option N :=
  if p =? CHAR_PERCENT then
    match hexOctet h1 h2 with
    | Some b => if (128 <=? b) && (b <? 192) then Some (b - 128) else None
    | None => None
    end
  else None.

Definition uriReservedPlusHash : jsstring := js ";/?:@&=+$,#".

Definition UTF16EncodeCodePoint (v : N) : jsstring :=
  if v <? 65536 then [v]
  else [55296 + (v - 65536) / 1024; 56320 + (v - 65536) mod 1024].

Definition prepend (pre : jsstring) (r : result jsstring) : result jsstring :=
  match r with
  | Ok s => Ok (pre ++ s)
  | Throw e => Throw e
  end.

Fixpoint decodeURI (s : jsstring) : result jsstring :=
  match s with
  | [] => Ok []
  | c :: t =>
      if negb (c =? CHAR_PERCENT) then prepend [c] (decodeURI t)
      else
        match t with
        | h1 :: h2 :: r =>
            match hexOctet h1 h2 with
            | None => Throw URIError
            | Some b =>
                if b <? 128 then
                  (if existsb (N.eqb b) uriReservedPlusHash
                   then prepend [c; h1; h2] (decodeURI r)
                   else prepend [b] (decodeURI r))
                else if b <? 192 then Throw URIError
                else if b <? 224 then
                  match r with
                  | p1 :: a1 :: b1 :: r1 =>
                      match contOctet p1 a1 b1 with
                      | Some c1 =>
                          let v := (b - 192) * 64 + c1 in
                          if v <? 128 then Throw URIError
                          else prepend (UTF16EncodeCodePoint v) (decodeURI r1)
                      | None => Throw URIError
                      end
                  | _ => Throw URIError
                  end
                else if b <? 240 then
                  match r with
                  | p1 :: a1 :: b1 :: p2 :: a2 :: b2 :: r2 =>
                      match contOctet p1 a1 b1, contOctet p2 a2 b2 with
                      | Some c1, Some c2 =>
                          let v := (b - 224) * 4096 + c1 * 64 + c2 in
                          if (v <? 2048) || ((55296 <=? v) && (v <=? 57343))
                          then Throw URIError
                          else prepend (UTF16EncodeCodePoint v) (decodeURI r2)
                      | _, _ => Throw URIError
                      end
                  | _ => Throw URIError
                  end
                else if b <? 248 then
                  match r with
                  | p1 :: a1 :: b1 :: p2 :: a2 :: b2 :: p3 :: a3 :: b3 :: r3 =>
                      match contOctet p1 a1 b1, contOctet p2 a2 b2,
                            contOctet p3 a3 b3 with
                      | Some c1, Some c2, Some c3 =>
                          let v := (b - 240) * 262144 + c1 * 4096 + c2 * 64 + c3 in
                          if (v <? 65536) || (1114111 <? v)
                          then Throw URIError
                          else prepend (UTF16EncodeCodePoint v) (decodeURI r3)
                      | _, _, _ => Throw URIError
                      end
                  | _ => Throw URIError
                  end
                else Throw URIError
            end
        | _ => Throw URIError
        end
  end.

(* ================================================================= *)
(** ** Regular-expression helpers *)

(** The class [\s]: white space and line terminators. *)
Definition is_ws (c : N) : bool :=
  ((9 <=? c) && (c <=? 13)) || (c =? 32) || (c =? 160) || (c =? 5760)
  || ((8192 <=? c) && (c <=? 8202)) || (c =? 8232) || (c =? 8233)
  || (c =? 8239) || (c =? 8287) || (c =? 12288) || (c =? 65279).

(** Line terminators: what [.] refuses and what [^] and [$] see under
    the flag [m]. *)
Definition is_lt (c : N) : bool :=
  (c =? 10) || (c =? 13) || (c =? 8232) || (c =? 8233).

Definition LF : N := 10.

(** [s.trim()]. *)
Definition trim (s : jsstring) : jsstring :=
  rev (dropWhile is_ws (rev (dropWhile is_ws s))).

(** [/^(https?:)?\/\//i.test(s)]. *)
Definition isAbsoluteUrl (s : jsstring) : bool :=
  prefix_ci (js "//") s || prefix_ci (js "http://") s
  || prefix_ci (js "https://") s.

(** [/^(mailto:|tel:)/i.test(s)]. *)
Definition isMailOrTel (s : jsstring) : bool :=
  prefix_ci (js "mailto:") s || prefix_ci (js "tel:") s.

(** [/\.md$/i.test(s)]. *)
Definition isMarkdown (s : jsstring) : bool := ends_with_ci (js ".md") s.

(* ================================================================= *)
(** ** Helpers of [render.js] without side effects *)

Definition dq : jsstring := [34].

(** [escapeHtml(text)]. *)
Definition escapeChar (c : N) : jsstring :=
  if c =? 38 then js "&amp;"
  else if c =? 60 then js "&lt;"
  else if c =? 62 then js "&gt;"
  else if c =? 34 then js "&quot;"
  else if c =? 39 then js "&#039;"
  else [c].

Definition escapeHtml (text : jsstring) : jsstring :=
  flat_map escapeChar text.

(** The values [yaml.load] can return (numbers are integers here). *)
Inductive yaml :=
| YNull
| YBool (b : bool)
| YNum (z : Z)
| YStr (s : jsstring)
| YSeq (l : list yaml)
| YMap (l : list (jsstring * yaml)).

(** JavaScript truthiness of a loaded value. *)
Definition truthy (v : yaml) : bool :=
  match v with
  | YNull => false
  | YBool b => b
  | YNum z => negb (Z.eqb z 0)
  | YStr s => negb (is_empty s)
  | YSeq _ => true
  | YMap _ => true
  end.

Record frontmatter := { attributes : yaml; body : jsstring }.

(** The closing part of the frontmatter pattern, [\n---\s*\n?], found
    at the first place it fits: the text captured before it and the
    text left after the whole match. *)
Fixpoint fmClose (r : jsstring) : option (jsstring * jsstring) :=
  match r with
  | [] => None
  | c :: t =>
      if startsWith [LF; 45; 45; 45] r
      then Some ([], dropWhile is_ws (skipn 4 r))
      else match fmClose t with
           | Some (cap, rest) => Some (c :: cap, rest)
           | None => None
           end
  end.

(** The opening [\s*\n] after the first [---]: [w] is the run of white
    space, [after] the text behind it.  The greedy [\s*] gives back
    characters until the line feed it leaves for [\n] lets the rest of
    the pattern succeed. *)
Fixpoint fmOpen (w after : jsstring) : option (jsstring * jsstring) :=
  match w with
  | [] => None
  | c :: w' =>
      match fmOpen w' after with
      | Some r => Some r
      | None => if c =? LF then fmClose (w' ++ after) else None
      end
  end.

(** [md.match(/^---\s*\n([\s\S]*?)\n---\s*\n?/)]: the capture [m[1]] and
    [md.slice(m[0].length)]. *)
Definition matchFrontmatter (md : jsstring) : option (jsstring * jsstring) :=
  if startsWith [45; 45; 45] md then
    let rest := skipn 3 md in
    fmOpen (takeWhile is_ws rest) (dropWhile is_ws rest)
  else None.

Section Frontmatter.

(** [yaml.load] of js-yaml, an external collaborator. *)
Variable yaml_load : jsstring -> result yaml.

Definition parseYamlFrontmatter (md : jsstring) : result frontmatter :=
  match matchFrontmatter md with
  | None => Ok {| attributes := YMap []; body := md |}
  | Some (block, rest) =>
      attrs <- try_catch
                 (v <- yaml_load block ;;
                  Ok (if truthy v then v else YMap []))
                 (Ok (YMap [])) ;;
      Ok {| attributes := attrs; body := rest |}
  end.

End Frontmatter.

(** The last character of [w] that is not a line terminator. *)
Definition lastNonLt (w : jsstring) : option N :=
  match dropWhile is_lt (rev w) with
  | c :: _ => Some c
  | [] => None
  end.

(** One attempt of [\s{0,3}#\s+(.+)$] at the start of a line; the
    result is the capture.  At most three white-space characters may
    precede the [#]; the greedy [\s+] after it gives characters back
    only when it has run to the end of the text, and then [(.+)] is the
    last of them that is not a line terminator. *)
Definition h1Here (s : jsstring) : option jsstring :=
  let lead := takeWhile is_ws s in
  if (length lead <=? 3)%nat then
    match dropWhile is_ws s with
    | c :: r =>
        if c =? 35 then
          match takeWhile is_ws r with
          | [] => None
          | _ :: w' =>
              match dropWhile is_ws r with
              | [] =>
                  match lastNonLt w' with
                  | Some x => Some [x]
                  | None => None
                  end
              | text => Some (takeWhile (fun x => negb (is_lt x)) text)
              end
          end
        else None
    | [] => None
    end
  else None.

Fixpoint h1Scan (lineStart : bool) (s : jsstring) : option jsstring :=
  match (if lineStart then h1Here s else None) with
  | Some cap => Some cap
  | None =>
      match s with
      | [] => None
      | c :: t => h1Scan (is_lt c) t
      end
  end.

(** [md.match(/^\s{0,3}#\s+(.+)$/m)], the capture [m[1]]. *)
Definition matchFirstH1 (md : jsstring) : option jsstring := h1Scan true md.

Definition parseFirstH1 (md : jsstring) : result jsstring :=
  match matchFirstH1 md with
  | None => Throw NoH1Error
  | Some cap => Ok (trim cap)
  end.

(** The pattern [/(?:^|\/)index(?:\.html)?$/i]: the length of its
    match, which always reaches the end of the string. *)
Definition indexMatch (s : jsstring) : option nat :=
  let tail (n : nat) :=
    match rev (drop_last n s) with
    | [] => Some n
    | c :: _ => if path.is_slash c then Some (S n) else None
    end in
  if ends_with_ci (js "index.html") s then tail 10%nat
  else if ends_with_ci (js "index") s then tail 5%nat
  else None.

Definition toExtensionlessPath (href : jsstring) : jsstring :=
  let out := href in
  let out := match indexMatch out with
             | Some n => drop_last n out
             | None => out
             end in
  let out := strip_suffix_ci (js ".html") out in
  out.

(* ================================================================= *)
(** ** The DOM fragment [rewriteLinksHtml] works on *)

Record element := {
  tagName : jsstring;
  attrs : list (jsstring * jsstring)
}.

Fixpoint lookupAttr (name : jsstring) (l : list (jsstring * jsstring))
    : option jsstring :=
  match l with
  | [] => None
  | (k, v) :: r => if str_eqb k name then Some v else lookupAttr name r
  end.

Fixpoint updateAttr (name value : jsstring) (l : list (jsstring * jsstring))
    : list (jsstring * jsstring) :=
  match l with
  | [] => [(name, value)]
  | (k, v) :: r =>
      if str_eqb k name then (k, value) :: r
      else (k, v) :: updateAttr name value r
  end.

Definition getAttribute (el : element) (name : jsstring) : option jsstring :=
  lookupAttr name (attrs el).

Definition hasAttribute (el : element) (name : jsstring) : bool :=
  match getAttribute el name with Some _ => true | None => false end.

Definition setAttribute (el : element) (name value : jsstring) : element :=
  {| tagName := tagName el; attrs := updateAttr name value (attrs el) |}.

(** The tree JSDOM builds is outside the model.  A parsed document is
    represented by its elements in document order, an element's
    [tagName] being its local name, and by the serialisation of its
    body as a function of these elements once their attributes have
    been rewritten. *)
Record document := {
  elements : list element;
  innerHTML : list element -> jsstring
}.

(* ================================================================= *)
(** ** Helpers of [render.js] that read the global roots *)

Section Render.

(** [process.cwd()], an absolute path. *)
Variable cwd : jsstring.

Definition REPO_ROOT : jsstring := cwd.
Definition OUTPUT_ROOT : jsstring := path.join [REPO_ROOT; js "_site"].

Definition computeOutputHtmlPath (mdPath homeMdBasename : jsstring)
    : jsstring :=
  let rel := path.relative cwd REPO_ROOT mdPath in
  let base := path.basename rel in
  let dir := path.dirname rel in
  if str_eqb dir (js ".") && str_eqb base homeMdBasename then
    path.join [OUTPUT_ROOT; js "index.html"]
  else
    let name := strip_suffix_ci (js ".md") base in
    path.join [OUTPUT_ROOT;
               if str_eqb dir (js ".") then name else path.join [dir; name];
               js "index.html"].

Definition toRelativeHref (fromDir toFile : jsstring) : jsstring :=
  let rel := joinSlash (split (path.relative cwd fromDir toFile)) in
  if is_empty rel then js "index.html" else rel.

(** The two halves of a string around the first [c], as the pair of
    [slice] calls after [indexOf] computes them. *)
Definition splitAt (c : N) (url : jsstring) : jsstring * jsstring :=
  match cut_at c url with
  | Some (pre, suf) => (pre, suf)
  | None => (url, [])
  end.

Definition processAttr (sourceMdPath homeMdBasename : jsstring)
    (el : element) (attrName : jsstring) : result element :=
  let sourceOutDir :=
    path.dirname (computeOutputHtmlPath sourceMdPath homeMdBasename) in
  match getAttribute el attrName with
  | None => Ok el
  | Some raw =>
      if is_empty raw then Ok el
      else if isAbsoluteUrl raw then Ok el
      else if isMailOrTel raw then Ok el
      else if startsWith (js "#") raw then Ok el
      else
        let '(url, hash) := splitAt (ch "#") raw in
        let '(url, query) := splitAt (ch "?") url in
        decoded <- decodeURI url ;;
        let resolvedTarget :=
          path.resolve cwd [path.dirname sourceMdPath; decoded] in
        let targetOutputAbs :=
          if isMarkdown url
          then computeOutputHtmlPath resolvedTarget homeMdBasename
          else
            let rel := path.relative cwd REPO_ROOT resolvedTarget in
            path.join [OUTPUT_ROOT; rel] in
        let relativeHref := toRelativeHref sourceOutDir targetOutputAbs in
        let relativeHref :=
          if isMarkdown url then
            let relativeHref := toExtensionlessPath relativeHref in
            if is_empty relativeHref then js "." else relativeHref
          else relativeHref in
        let relativeHref := relativeHref ++ query ++ hash in
        Ok (setAttribute el attrName relativeHref)
  end.

(** [forEach] over a node list with a callback that may throw. *)
Fixpoint forEach (f : element -> result element) (l : list element)
    : result (list element) :=
  match l with
  | [] => Ok []
  | el :: r => el' <- f el ;; r' <- forEach f r ;; Ok (el' :: r')
  end.

Definition mediaTags : list jsstring :=
  [js "img"; js "video"; js "audio"; js "source"; js "script"].

(** The two [querySelectorAll] passes of [rewriteLinksHtml], one after
    the other, over the elements of the document. *)
Definition rewriteElements (elements : list element)
    (sourceMdPath homeMdBasename : jsstring) : result (list element) :=
  let process := processAttr sourceMdPath homeMdBasename in
  elements <- forEach (fun a =>
      if str_eqb (tagName a) (js "a") && hasAttribute a (js "href")
      then process a (js "href") else Ok a) elements ;;
  forEach (fun el =>
      if (existsb (str_eqb (tagName el)) mediaTags
            && hasAttribute el (js "src"))
         || (str_eqb (tagName el) (js "link")
               && hasAttribute el (js "href"))
      then
        el <- (if hasAttribute el (js "src")
               then process el (js "src") else Ok el) ;;
        (if hasAttribute el (js "href")
         then process el (js "href") else Ok el)
      else Ok el) elements.

(** [new JSDOM(...)], an external collaborator. *)
Variable JSDOM : jsstring -> document.

Definition rewriteLinksHtml (htmlContent sourceMdPath homeMdBasename : jsstring)
    : result jsstring :=
  let dom := JSDOM (js "<!DOCTYPE html><body>" ++ htmlContent ++ js "</body>") in
  rewritten <- rewriteElements (elements dom) sourceMdPath homeMdBasename ;;
  Ok (innerHTML dom rewritten).

End Render.

(* ================================================================= *)
(** ** Title and description of a page (from [renderPage]) *)

Fixpoint lookupKey (k : jsstring) (l : list (jsstring * yaml)) : option yaml :=
  match l with
  | [] => None
  | (k', v) :: r => if str_eqb k' k then Some v else lookupKey k r
  end.

(** [typeof frontmatter[key] === "string" && frontmatter[key].trim()
    ? frontmatter[key].trim() : fallback]. *)
Definition stringField (fm : yaml) (key fallback : jsstring) : jsstring :=
  match fm with
  | YMap l =>
      match lookupKey key l with
      | Some (YStr s) => if is_empty (trim s) then fallback else trim s
      | _ => fallback
      end
  | _ => fallback
  end.

(** [firstH1 || config.site_title || ""]. *)
Definition titleFallback (markdownContent site_title : jsstring) : jsstring :=
  let firstH1 := match matchFirstH1 markdownContent with
                 | Some cap => trim cap
                 | None => []
                 end in
  if negb (is_empty firstH1) then firstH1 else site_title.

Definition pageTitle (fm : frontmatter) (site_title : jsstring) : jsstring :=
  stringField (attributes fm) (js "title") (titleFallback (body fm) site_title).

Definition pageDescription (fm : frontmatter) (site_title : jsstring) : jsstring :=
  stringField (attributes fm) (js "description")
    (titleFallback (body fm) site_title).

(* ================================================================= *)
(** ** Navigation *)

(** What the build can see of the file system: an absolute path names
    a file with its text, a directory, or nothing. *)
Inductive fsnode :=
| File (content : jsstring)
| Directory.

Definition filesystem := jsstring -> option fsnode.

(** An element of [config.nav], as the program reads it: a string; a
    mapping, of which it reads the property [key], the first of
    [Object.keys(item)], and the value there (a string, or [None] for
    [null]); a sequence, of which it reads the first element (a
    string, or [None] for [null]) as the value of the property [0]; a
    mapping or a sequence without elements, for which
    [Object.keys(item)[0]] is [undefined]; or a scalar that is no
    string ([null], a number or a boolean). *)
Inductive navConfigItem :=
| NavKey (key : jsstring)
| NavMapping (key : jsstring) (title : option jsstring)
| NavSequence (first : option jsstring)
| NavEmpty
| NavScalar.

Inductive navItem :=
| External (href title : jsstring)
| Internal (mdPath title outPath : jsstring).

(** [s.replace(pattern, replacement)] for a string pattern: the first
    occurrence is replaced and the [$] patterns of the replacement are
    expanded. *)
Fixpoint findFirst (pat s : jsstring) : option (jsstring * jsstring) :=
  if startsWith pat s then Some ([], skipn (length pat) s)
  else match s with
       | [] => None
       | c :: t =>
           match findFirst pat t with
           | Some (pre, post) => Some (c :: pre, post)
           | None => None
           end
       end.

Fixpoint getSubstitution (matched pre post repl : jsstring) : jsstring :=
  match repl with
  | [] => []
  | c :: t =>
      if c =? 36 then
        match t with
        | d :: t' =>
            if d =? 36 then 36 :: getSubstitution matched pre post t'
            else if d =? 38 then matched ++ getSubstitution matched pre post t'
            else if d =? 96 then pre ++ getSubstitution matched pre post t'
            else if d =? 39 then post ++ getSubstitution matched pre post t'
            else c :: getSubstitution matched pre post t
        | [] => [c]
        end
      else c :: getSubstitution matched pre post t
  end.

Definition replace (pat repl s : jsstring) : jsstring :=
  match findFirst pat s with
  | Some (pre, post) => pre ++ getSubstitution pat pre post repl ++ post
  | None => s
  end.

(** [l.join(" ")]. *)
Fixpoint joinSpace (l : list jsstring) : jsstring :=
  match l with
  | [] => []
  | [x] => x
  | x :: r => x ++ 32 :: joinSpace r
  end.

Section Navigation.

Variable cwd : jsstring.
Variable fs : filesystem.

Definition fs_stat_isDirectory (p : jsstring) : result bool :=
  match fs p with
  | None => Throw ErrnoException
  | Some Directory => Ok true
  | Some (File _) => Ok false
  end.

Definition fs_access (p : jsstring) : result unit :=
  match fs p with
  | None => Throw ErrnoException
  | Some _ => Ok tt
  end.

Definition fs_readFile (p : jsstring) : result jsstring :=
  match fs p with
  | Some (File content) => Ok content
  | _ => Throw ErrnoException
  end.

(** [providedTitle ? String(providedTitle) : fallback]. *)
Definition titleOr {A} (providedTitle : option jsstring)
    (some : jsstring -> A) (none : A) : A :=
  match providedTitle with
  | Some t => if is_empty t then none else some t
  | None => none
  end.

Definition resolveMdNavItem (homeMdBasename mdPathAbs : jsstring)
    (providedTitle : option jsstring) : result navItem :=
  title <- titleOr providedTitle Ok
             (try_catch
                (raw <- fs_readFile mdPathAbs ;; parseFirstH1 raw)
                (let isHome :=
                   str_eqb (path.basename mdPathAbs) homeMdBasename
                   && str_eqb (path.dirname mdPathAbs) (REPO_ROOT cwd) in
                 Ok (if isHome then js "Home"
                     else strip_suffix_ci (js ".md") (path.basename mdPathAbs)))) ;;
  Ok (Internal mdPathAbs title
        (computeOutputHtmlPath cwd mdPathAbs homeMdBasename)).

(** [resolveDirKey]; [None] is the [null] it returns. *)
Definition resolveDirKey (homeMdBasename dirKey : jsstring)
    (providedTitle : option jsstring) : result (option navItem) :=
  let dirAbs := path.join [REPO_ROOT cwd; dirKey] in
  try_catch
    (isDirectory <- fs_stat_isDirectory dirAbs ;;
     if negb isDirectory then Ok None
     else
       let readme := path.join [dirAbs; js "README.md"] in
       let index := path.join [dirAbs; js "index.md"] in
       returned <- try_catch
                     (_ <- fs_access readme ;;
                      item <- resolveMdNavItem homeMdBasename readme providedTitle ;;
                      Ok (Some item))
                     (Ok None) ;;
       match returned with
       | Some item => Ok (Some item)
       | None =>
           try_catch
             (_ <- fs_access index ;;
              item <- resolveMdNavItem homeMdBasename index providedTitle ;;
              Ok (Some item))
             (Ok None)
       end)
    (Ok None).

(** The [map]/[filter] that turns [config.nav] into key and title.
    Every string and every mapping or sequence gives an entry, the
    scalars that are no strings give none; the key of an entry is
    [Object.keys(item)[0]], which is [undefined], here [None], for a
    mapping or sequence without elements. *)
Definition navEntries (nav : list navConfigItem)
    : list (option jsstring * option jsstring) :=
  flat_map (fun item =>
              match item with
              | NavKey key => [(Some key, None)]
              | NavMapping key title => [(Some key, title)]
              | NavSequence first => [(Some (js "0"), first)]
              | NavEmpty => [(None, None)]
              | NavScalar => []
              end) nav.

(** The body of the loop of [buildNavItems]. *)
Definition navItemFor (homeMdBasename : jsstring)
    (entry : jsstring * option jsstring) : result navItem :=
  let '(key, providedTitle) := entry in
  let isExternal := isAbsoluteUrl key || isMailOrTel key in
  if isExternal then
    Ok (External key (titleOr providedTitle (fun t => t) key))
  else if isMarkdown key then
    resolveMdNavItem homeMdBasename (path.join [REPO_ROOT cwd; key]) providedTitle
  else
    dirResolved <- resolveDirKey homeMdBasename key providedTitle ;;
    match dirResolved with
    | Some item => Ok item
    | None => Ok (External key (titleOr providedTitle (fun t => t) key))
    end.

Fixpoint mapResult {A B} (f : A -> result B) (l : list A) : result (list B) :=
  match l with
  | [] => Ok []
  | a :: r => b <- f a ;; r' <- mapResult f r ;; Ok (b :: r')
  end.

(** One turn of the loop of [buildNavItems].  A key that is
    [undefined] is read by the three tests as the text [undefined],
    which is neither a URL nor a Markdown path, and reaches
    [resolveDirKey], where [path.join(REPO_ROOT, undefined)] throws
    before the [try]. *)
Definition navItemOf (homeMdBasename : jsstring)
    (entry : option jsstring * option jsstring) : result navItem :=
  match fst entry with
  | Some key => navItemFor homeMdBasename (key, snd entry)
  | None => Throw TypeError
  end.

Definition buildNavItems (nav : list navConfigItem) (homeMdBasename : jsstring)
    : result (list navItem) :=
  mapResult (navItemOf homeMdBasename) (navEntries nav).

(** The callback of [navItems.map] in [buildNavHtml]. *)
Definition navLink (currentOutDir : jsstring) (item : navItem) : jsstring :=
  match item with
  | External href title =>
      js "<a href=" ++ dq ++ escapeHtml href ++ dq
      ++ js " style=" ++ dq ++ js "margin-right:12px;" ++ dq
      ++ js " target=" ++ dq ++ js "_blank" ++ dq
      ++ js " rel=" ++ dq ++ js "noopener noreferrer" ++ dq ++ js ">"
      ++ escapeHtml title ++ js "</a>"
  | Internal _ title outPath =>
      let hrefFile := toRelativeHref cwd currentOutDir outPath in
      let href := toExtensionlessPath hrefFile in
      js "<a href=" ++ dq ++ href ++ dq
      ++ js " style=" ++ dq ++ js "margin-right:12px;" ++ dq ++ js ">"
      ++ escapeHtml title ++ js "</a>"
  end.

(** The variable [homeHref] of [buildNavHtml]. *)
Definition homeHrefOf (currentOutDir homeOutPathAbsolute : jsstring)
    : jsstring :=
  let homeHrefFile := toRelativeHref cwd currentOutDir homeOutPathAbsolute in
  let homeHref := toExtensionlessPath homeHrefFile in
  if is_empty homeHref then js "." else homeHref.

Definition buildNavHtml (navItems : list navItem)
    (currentOutDir siteTitle homeOutPathAbsolute navTemplateContent : jsstring)
    : jsstring :=
  let links := map (navLink currentOutDir) navItems in
  let homeHref := homeHrefOf currentOutDir homeOutPathAbsolute in
  let titleHtml :=
    if is_empty siteTitle then []
    else js "<a href=" ++ dq ++ homeHref ++ dq
         ++ js " class=" ++ dq ++ js "site-title" ++ dq ++ js ">"
         ++ escapeHtml siteTitle ++ js "</a>" in
  let tpl := navTemplateContent in
  let tpl := replace (js "{{TITLE_HTML}}") titleHtml tpl in
  let tpl := replace (js "{{LINKS_HTML}}") (joinSpace links) tpl in
  let tpl := replace (js "{{HOME_HREF}}") homeHref tpl in
  let tpl := replace (js "{{SITE_TITLE}}") (escapeHtml siteTitle) tpl in
  tpl.

(** The output location of the configured home document, as
    [renderPage] and [buildSite] compute it from [config.home_md]. *)
Definition homeOutPathAbsolute (home_md : jsstring) : jsstring :=
  let homeMdBasename := path.basename home_md in
  computeOutputHtmlPath cwd (path.join [REPO_ROOT cwd; home_md]) homeMdBasename.

(** The navigation block [renderPage] puts on the page of [mdPath]. *)
Definition pageNavHtml (navItems : list navItem)
    (site_title home_md navTemplateContent mdPath : jsstring) : jsstring :=
  let homeMdBasename := path.basename home_md in
  let pageOutputPath := computeOutputHtmlPath cwd mdPath homeMdBasename in
  match navItems with
  | [] => []
  | _ => buildNavHtml navItems (path.dirname pageOutputPath) site_title
           (homeOutPathAbsolute home_md) navTemplateContent
  end.

End Navigation.

(* ================================================================= *)
(** ** Rendering the pages *)

(** The part of the context of [renderPage] that is data: the two
    templates, the navigation model, the location of the copied
    stylesheet ([None] when [copyStylesheet] returned [null]) and the
    two strings of the configuration. *)
Record context := {
  templateContent : jsstring;
  navItems : list navItem;
  stylesheetOut : option jsstring;
  navTemplateContent : jsstring;
  site_title : jsstring;
  home_md : jsstring
}.

(** [s.replace(/\\/g, "/")]. *)
Definition slashes (s : jsstring) : jsstring :=
  map (fun c => if c =? 92 then CHAR_FORWARD_SLASH else c) s.

Section Pages.

Variable cwd : jsstring.
Variable fs : filesystem.

(** The external collaborators: the YAML loader, the Markdown
    renderer, the sanitizer with the policy [renderPage] passes, and
    JSDOM. *)
Variable yaml_load : jsstring -> result yaml.
Variable marked : jsstring -> result jsstring.
Variable sanitize : jsstring -> result jsstring.
Variable JSDOM : jsstring -> document.

(** [renderPage]: the result is the file it writes, as the pair of
    its location and its text. *)
Definition renderPage (mdPath : jsstring) (ctx : context)
    : result (jsstring * jsstring) :=
  let homeMdBasename := path.basename (home_md ctx) in
  rawMarkdown <- fs_readFile fs mdPath ;;
  fm <- parseYamlFrontmatter yaml_load rawMarkdown ;;
  let markdownContent := body fm in
  htmlContent <- marked markdownContent ;;
  htmlContent <- sanitize htmlContent ;;
  htmlContent <- rewriteLinksHtml cwd JSDOM htmlContent mdPath homeMdBasename ;;
  let title := pageTitle fm (site_title ctx) in
  let description := pageDescription fm (site_title ctx) in
  let pageOutputPath := computeOutputHtmlPath cwd mdPath homeMdBasename in
  let navHtml :=
    pageNavHtml cwd (navItems ctx) (site_title ctx) (home_md ctx)
      (navTemplateContent ctx) mdPath in
  let stylesheetHref :=
    match stylesheetOut ctx with
    | Some out => slashes (toRelativeHref cwd (path.dirname pageOutputPath) out)
    | None => []
    end in
  let finalHtml :=
    replace (js "{{CONTENT}}") htmlContent
      (replace (js "{{STYLESHEET_HREF}}") stylesheetHref
         (replace (js "{{NAV}}") navHtml
            (replace (js "{{DESCRIPTION}}") (escapeHtml description)
               (replace (js "{{TITLE}}") (escapeHtml title)
                  (templateContent ctx))))) in
  Ok (pageOutputPath, finalHtml).

(** The loop of [buildSite] over the Markdown files it found: the
    first failure ends the build. *)
Definition renderPages (allMarkdownFiles : list jsstring) (ctx : context)
    : result (list (jsstring * jsstring)) :=
  mapResult (fun mdPath => renderPage mdPath ctx) allMarkdownFiles.

End Pages.

(* ================================================================= *)
(** ** Well-formed paths

    A name is what a directory entry can be called: not empty, free of
    slashes, and neither [.] nor [..].  [absPath segs] is the absolute
    path whose segments are [segs]; [absPath []] is the root. *)

Definition noSlash (s : jsstring) : bool :=
  forallb (fun c => negb (c =? CHAR_FORWARD_SLASH)) s.

Definition isSeg (s : jsstring) : bool := negb (is_empty s) && noSlash s.

Definition isName (s : jsstring) : bool :=
  isSeg s && negb (str_eqb s path.dot) && negb (str_eqb s path.dotdot).

Definition names (l : list jsstring) : bool := forallb isName l.

Definition absPath (segs : list jsstring) : jsstring :=
  CHAR_FORWARD_SLASH :: joinSlash segs.

(** [isPrefix a b]: the segment list [a] is a prefix of [b]. *)
Fixpoint isPrefix (a b : list jsstring) : bool :=
  match a, b with
  | [], _ => true
  | _ :: _, [] => false
  | x :: a', y :: b' => str_eqb x y && isPrefix a' b'
  end.

(** Free of the characters that [processAttr] and [decodeURI] treat
    specially: [#], [?] and [%]. *)
Definition plain (s : jsstring) : bool :=
  forallb (fun c => negb ((c =? ch "#") || (c =? ch "?") || (c =? CHAR_PERCENT))) s.

(* ================================================================= *)
(** ** Notions used to state the properties *)

(** The segments [path.resolve(absPath A, u)] ends on. *)
Definition resolveSegs (A : list jsstring) (u : jsstring) : list jsstring :=
  rev (path.normalizeSegs false
         (if path.isAbsolute u then [] else rev A) (split u)).

(** A path made of [..] segments only, one for each element of [up]. *)
Definition upsOf (up : list jsstring) : list jsstring :=
  map (fun _ => path.dotdot) up.

(** The segments of [path.relative(absPath A, absPath B)]. *)
Definition relSegs (A B : list jsstring) : list jsstring :=
  upsOf (fst (path.dropCommon A B)) ++ snd (path.dropCommon A B).

Definition notSlash (c : N) : bool := negb (path.is_slash c).

(** Segments of a relative path: names and [.] or [..]. *)
Definition segs (l : list jsstring) : bool := forallb isSeg l.

(** The segments of the output root below the content root [R]. *)
Definition siteSegs (R : list jsstring) : list jsstring := R ++ [js "_site"].

Definition indexHtml : jsstring := js "index.html".

(** The element [<a href="...">]. *)
Definition anchor (href : jsstring) : element :=
  {| tagName := js "a"; attrs := [(js "href", href)] |}.

(** A document whose frontmatter block [title: [] is not YAML. *)
Definition brokenFrontmatterDoc : jsstring :=
  js "---" ++ [LF] ++ js "title: [" ++ [LF] ++ js "---" ++ [LF] ++ js "# Hi".

(** A small content tree: [docs/README.md] and [notes/index.md]. *)
Definition sampleTree : filesystem :=
  fun p =>
    if str_eqb p (js "/repo/docs") then Some Directory
    else if str_eqb p (js "/repo/docs/README.md")
         then Some (File (js "# Documentation"))
    else if str_eqb p (js "/repo/docs/index.md") then Some (File (js "# Index"))
    else if str_eqb p (js "/repo/notes") then Some Directory
    else if str_eqb p (js "/repo/notes/index.md") then Some (File (js "# Notes"))
    else if str_eqb p (js "/repo/empty") then Some Directory
    else if str_eqb p (js "/repo/logo.svg") then Some (File (js "<svg/>"))
    else None.

(** [noChar c s]: the character [c] does not occur in [s]. *)
Definition noChar (c : N) (s : jsstring) : bool :=
  forallb (fun x => negb (x =? c)) s.

(** The reference [processAttr] writes for a local Markdown target:
    the extensionless relative path from the page of [sourceMdPath] to
    the page of the document the decoded path-part resolves to. *)
Definition mdHref (cwd sourceMdPath homeMdBasename decoded : jsstring) : jsstring :=
  let sourceOutDir :=
    path.dirname (computeOutputHtmlPath cwd sourceMdPath homeMdBasename) in
  let resolvedTarget := path.resolve cwd [path.dirname sourceMdPath; decoded] in
  let targetOutputAbs := computeOutputHtmlPath cwd resolvedTarget homeMdBasename in
  let relativeHref :=
    toExtensionlessPath (toRelativeHref cwd sourceOutDir targetOutputAbs) in
  if is_empty relativeHref then js "." else relativeHref.

(** The reference [processAttr] writes for a local target that is not
    a Markdown document: the relative path to the mirrored asset. *)
Definition assetHref (cwd sourceMdPath homeMdBasename decoded : jsstring) : jsstring :=
  let sourceOutDir :=
    path.dirname (computeOutputHtmlPath cwd sourceMdPath homeMdBasename) in
  let resolvedTarget := path.resolve cwd [path.dirname sourceMdPath; decoded] in
  let rel := path.relative cwd (REPO_ROOT cwd) resolvedTarget in
  toRelativeHref cwd sourceOutDir (path.join [OUTPUT_ROOT cwd; rel]).

(** The page a rewritten reference designates when it is followed from
    the directory [fromDir] on a server that answers a directory with
    its [index.html]. *)
Definition designates (cwd fromDir href : jsstring) : jsstring :=
  path.join [path.resolve cwd [fromDir; href]; js "index.html"].



(* ================================================================= *)
(** ** Walking the content tree *)

(** A directory entry as [fs.readdir(dir, { withFileTypes: true })]
    lists it, a directory together with its own listing: a regular
    file, a directory, or an entry that is neither (a symbolic link,
    a socket, ...). *)
Inductive dirent :=
| RegularFile (name : jsstring)
| SubDirectory (name : jsstring) (entries : list dirent)
| OtherEntry (name : jsstring).

Definition entryName (entry : dirent) : jsstring :=
  match entry with
  | RegularFile name => name
  | SubDirectory name _ => name
  | OtherEntry name => name
  end.

Definition excludeNames : list jsstring :=
  [js ".git"; js ".github"; js ".render"; js "_site"; js "node_modules"].

(** The body of the loop of [walk] for one entry of [dir]: the paths
    [onFile] is called with, in order. *)
Fixpoint walkEntry (dir : jsstring) (entry : dirent) : list jsstring :=
  if startsWith (js ".") (entryName entry) then []
  else if existsb (str_eqb (entryName entry)) excludeNames then []
  else
    let fullPath := path.join [dir; entryName entry] in
    match entry with
    | SubDirectory _ entries => flat_map (walkEntry fullPath) entries
    | RegularFile _ => [fullPath]
    | OtherEntry _ => []
    end.

(** [walkFiles(startDir, onFile)] on a directory whose listing is
    [entries]: the sequence of the calls of [onFile]. *)
Definition walkFiles (startDir : jsstring) (entries : list dirent)
    : list jsstring :=
  flat_map (walkEntry startDir) entries.

Definition findMarkdownFiles (startDir : jsstring) (entries : list dirent)
    : list jsstring :=
  filter isMarkdown (walkFiles startDir entries).

(** The effects of the build on the file system. *)
Inductive effect :=
| Mkdir (dir : jsstring)                 (* [fs.mkdir(dir, { recursive: true })] *)
| CopyFile (src dest : jsstring)         (* [fs.copyFile(src, dest)] *)
| WriteFile (file data : jsstring).      (* [fs.writeFile(file, data)] *)

(** [copyTree(startDir, outputDir)]: the effects of its callback, file
    after file. *)
Definition copyTree (cwd startDir outputDir : jsstring) (entries : list dirent)
    : list effect :=
  flat_map (fun fullPath =>
              let rel := path.relative cwd startDir fullPath in
              let dest := path.join [outputDir; rel] in
              [Mkdir (path.dirname dest); CopyFile fullPath dest])
           (walkFiles startDir entries).

(** The paths, as lists of names below the listed directory, of the
    regular files of a listing. *)
Fixpoint filesOf (entry : dirent) : list (list jsstring) :=
  match entry with
  | RegularFile name => [[name]]
  | SubDirectory name entries => map (cons name) (flat_map filesOf entries)
  | OtherEntry _ => []
  end.

(** A name the walk does not skip. *)
Definition visible (name : jsstring) : bool :=
  negb (startsWith (js ".") name)
  && negb (str_eqb name (js "_site")) && negb (str_eqb name (js "node_modules")).

(** Every entry of the listing carries a name a directory entry can
    have. *)
Fixpoint wellNamed (entry : dirent) : bool :=
  isName (entryName entry)
  && match entry with
     | SubDirectory _ entries => forallb wellNamed entries
     | _ => true
     end.

(** [inside A p]: the path [p] lies in the directory [absPath A] (or
    is that directory). *)
Definition inside (A : list jsstring) (p : jsstring) : Prop :=
  exists t, names t = true /\ p = absPath (A ++ t).

(** The path an effect creates or overwrites. *)
Definition target (e : effect) : jsstring :=
  match e with
  | Mkdir dir => dir
  | CopyFile _ dest => dest
  | WriteFile file _ => file
  end.

(** The file [b] of the directory [d] of the content root is the home
    document: it lies in the root itself and is called [home]. *)
Definition isHome (d : list jsstring) (b home : jsstring) : bool :=
  match d with
  | [] => str_eqb b home
  | _ :: _ => false
  end.

(** A small listing of a content root: a home document, a guide with
    an image, a hidden directory, an earlier output directory and a
    link. *)
Definition sampleListing : list dirent :=
  [RegularFile (js "README.md");
   SubDirectory (js "docs")
     [RegularFile (js "guide.md"); RegularFile (js "fig.png");
      SubDirectory (js "node_modules") [RegularFile (js "x.md")]];
   SubDirectory (js ".git") [RegularFile (js "config")];
   SubDirectory (js "_site") [RegularFile (js "index.html")];
   OtherEntry (js "latest.md")].

(** Two files that differ in the case of the extension only. *)
Definition caseListing : list dirent :=
  [RegularFile (js "notes.md"); RegularFile (js "notes.MD")].

(* ================================================================= *)
(** ** The stylesheet and the templates *)

(** A hexadecimal digit, as [digest("hex")] writes it. *)
Definition hexDigitOf (d : N) : N := if d <? 10 then 48 + d else 87 + d.

(** The octets of a buffer in hexadecimal, two digits each. *)
Definition hexOf (octets : list N) : jsstring :=
  flat_map (fun o => [hexDigitOf (o / 16 mod 16); hexDigitOf (o mod 16)]) octets.

Section Stylesheet.

Variable cwd : jsstring.
Variable fs : filesystem.

(** The octets of [crypto.createHash("sha1").update(css).digest()]. *)
Variable sha1 : jsstring -> list N.

Definition RENDER_ROOT : jsstring := path.join [REPO_ROOT cwd; js ".render"].

(** [copyStylesheet]: its effects and the value it returns, [None]
    being [null]. *)
Definition copyStylesheet : list effect * option jsstring :=
  let src := path.join [RENDER_ROOT; js "template"; js "style.css"] in
  let outDir := path.join [OUTPUT_ROOT cwd; js "assets"] in
  match fs_readFile fs src with
  | Ok css =>
      let hash := firstn 8 (hexOf (sha1 css)) in
      let filename := js "style." ++ hash ++ js ".css" in
      let dest := path.join [outDir; filename] in
      ([Mkdir outDir; WriteFile dest css], Some dest)
  | Throw _ => ([Mkdir outDir], None)
  end.

Definition readTemplate (templateFilename : jsstring) : result jsstring :=
  let templatePath := path.join [RENDER_ROOT; js "template"; templateFilename] in
  fs_readFile fs templatePath.

End Stylesheet.

(** The value [renderPage] substitutes for [{{STYLESHEET_HREF}}] on
    the page of [mdPath]. *)
Definition stylesheetHref (cwd mdPath homeMdBasename : jsstring)
    (stylesheetOut : option jsstring) : jsstring :=
  let pageOutputPath := computeOutputHtmlPath cwd mdPath homeMdBasename in
  match stylesheetOut with
  | Some out => slashes (toRelativeHref cwd (path.dirname pageOutputPath) out)
  | None => []
  end.

(** A file system that holds the stylesheet of the template and
    nothing else, and a stand-in for the digest. *)
Definition styleTree : filesystem :=
  fun p =>
    if str_eqb p (js "/srv/repo/.render/template/style.css")
    then Some (File (js "body{}"))
    else None.

Definition sampleDigest (css : jsstring) : list N :=
  [218; 57; 163; 238; 94; 107; 75; 13; 50; 85].

(** One of the digits [0]-[9] and [a]-[f]. *)
Definition isHexDigit (c : N) : bool :=
  ((48 <=? c) && (c <=? 57)) || ((97 <=? c) && (c <=? 102)).

(** Neither a slash nor a backslash. *)
Definition tame (c : N) : bool :=
  negb (c =? CHAR_FORWARD_SLASH) && negb (c =? 92).

(* ================================================================= *)
(** ** Escaped text *)

(** One of the five names [escapeHtml] writes after an ampersand
    starts the string. *)
Definition isEntityTail (s : jsstring) : bool :=
  startsWith (js "amp;") s || startsWith (js "lt;") s
  || startsWith (js "gt;") s || startsWith (js "quot;") s
  || startsWith (js "#039;") s.

(** [<], [>], the double quote and the apostrophe. *)
Definition isMarkupChar (c : N) : bool :=
  (c =? 60) || (c =? 62) || (c =? 34) || (c =? 39).

(** Text that is safe between tags and inside a quoted attribute:
    none of the four markup characters occurs, and every ampersand
    starts one of the five character references. *)
Fixpoint wellEscaped (s : jsstring) : bool :=
  match s with
  | [] => true
  | c :: t =>
      (if c =? 38 then isEntityTail t else negb (isMarkupChar c))
      && wellEscaped t
  end.


(* ================================================================= *)
(** ** What the rewriting leaves alone *)

(** [el'] is [el] up to the values of its attributes [href] and [src]:
    the same tag and the same attributes in the same order. *)
Definition sameButLinks (el el' : element) : Prop :=
  tagName el' = tagName el
  /\ Forall2 (fun kv kv' : jsstring * jsstring =>
                fst kv' = fst kv
                /\ (snd kv' = snd kv
                    \/ fst kv = js "href" \/ fst kv = js "src"))
             (attrs el) (attrs el').

(** The tags the two selectors of [rewriteLinksHtml] name. *)
Definition selectedTags : list jsstring :=
  [js "a"; js "img"; js "video"; js "audio"; js "source"; js "link";
   js "script"].

(** An embedded frame, which the selectors do not name. *)
Definition iframe (src : jsstring) : element :=
  {| tagName := js "iframe"; attrs := [(js "src", src); (js "title", js "demo")] |}.

(* ================================================================= *)
(** ** The configuration *)

(** The outcome of [loadConfig]: the configuration, the exception of
    a failed read or of the YAML loader, or the [Error] it throws
    itself, with its message. *)
Inductive loaded :=
| Loaded (cfg : yaml)
| Rejected (e : exn)
| MissingField (message : jsstring).

(** [cfg[key]]; a value that is no mapping has no such property. *)
Definition property (cfg : yaml) (key : jsstring) : option yaml :=
  match cfg with
  | YMap l => lookupKey key l
  | _ => None
  end.

(** [typeof v === "string"]. *)
Definition isStringValue (v : option yaml) : bool :=
  match v with Some (YStr _) => true | _ => false end.

(** [Array.isArray(v)]. *)
Definition isArrayValue (v : option yaml) : bool :=
  match v with Some (YSeq _) => true | _ => false end.

Section Config.

Variable cwd : jsstring.
Variable fs : filesystem.
Variable yaml_load : jsstring -> result yaml.

Definition loadConfig : loaded :=
  let configPath := path.join [REPO_ROOT cwd; js ".render"; js "config.yml"] in
  match fs_readFile fs configPath with
  | Throw e => Rejected e
  | Ok raw =>
      match yaml_load raw with
      | Throw e => Rejected e
      | Ok v =>
          let cfg := if truthy v then v else YMap [] in
          if negb (isStringValue (property cfg (js "site_title"))) then
            MissingField
              (js ".render/config.yml missing required string: site_title")
          else if negb (isStringValue (property cfg (js "home_md"))) then
            MissingField
              (js ".render/config.yml missing required string: home_md")
          else if negb (isArrayValue (property cfg (js "nav"))) then
            MissingField
              (js ".render/config.yml missing required array: nav (can be empty)")
          else Loaded cfg
      end
  end.

End Config.

(** A file system that holds a configuration file and nothing else,
    and a loader that reads it as a mapping with an empty navigation. *)
Definition configTree : filesystem :=
  fun p =>
    if str_eqb p (js "/srv/repo/.render/config.yml")
    then Some (File (js "site_title: Notes"))
    else None.

Definition sampleConfig : yaml :=
  YMap [(js "site_title", YStr (js "Notes"));
        (js "home_md", YStr (js "README.md"));
        (js "nav", YSeq [])].

(* ================================================================= *)
(** ** Templates *)

(** A template cut into its placeholders and the text between them. *)
Inductive piece :=
| Text (s : jsstring)
| Slot (name : jsstring).

(** The placeholder [{{name}}]. *)
Definition slotText (name : jsstring) : jsstring :=
  js "{{" ++ name ++ js "}}".

Definition pieceText (p : piece) : jsstring :=
  match p with
  | Text s => s
  | Slot name => slotText name
  end.

Definition templateText (pieces : list piece) : jsstring :=
  flat_map pieceText pieces.

(** The first placeholder called [name], if there is one, gives way to
    [value]; every other piece stays. *)
Fixpoint fillFirst (name value : jsstring) (pieces : list piece) : list piece :=
  match pieces with
  | [] => []
  | Text s :: rest => Text s :: fillFirst name value rest
  | Slot n :: rest =>
      if str_eqb n name then Text value :: rest
      else Slot n :: fillFirst name value rest
  end.

(** A name without braces. *)
Definition braceFree (s : jsstring) : bool :=
  forallb (fun c => negb ((c =? 123) || (c =? 125))) s.

(** The text of a template holds no opening brace outside its
    placeholders, and the names of the placeholders hold no brace. *)
Definition wellFormedPiece (p : piece) : bool :=
  match p with
  | Text s => noChar 123 s
  | Slot name => braceFree name
  end.

(** A value with neither an opening brace nor a dollar sign. *)
Definition plainValue (s : jsstring) : bool :=
  noChar 123 s && noChar 36 s.

(** A search result with [s] put before the text that precedes the
    match. *)
Definition prependTo (s : jsstring) (r : option (jsstring * jsstring))
    : option (jsstring * jsstring) :=
  match r with
  | Some (pre, post) => Some (s ++ pre, post)
  | None => None
  end.

(** The replacement [v] reads [v'] once its dollar patterns are
    expanded, wherever the match is. *)
Definition expandsTo (v v' : jsstring) : Prop :=
  forall m pre post, getSubstitution m pre post v = v'.

(** A one-page site: a guide, a renderer and a parser that answer
    with the given HTML, and a template that names its title twice. *)
Definition guideTree : filesystem :=
  fun p =>
    if str_eqb p (js "/srv/repo/docs/guide.md")
    then Some (File (js "# Guide"))
    else None.

Definition constMarked (html : jsstring) (md : jsstring) : result jsstring :=
  Ok html.

Definition constDom (html : jsstring) (source : jsstring) : document :=
  {| elements := []; innerHTML := fun _ => html |}.

Definition guideTemplate : list piece :=
  [Text (js "<title>"); Slot (js "TITLE"); Text (js "</title><h1>");
   Slot (js "TITLE"); Text (js "</h1>"); Slot (js "CONTENT")].

Definition guideContext : context :=
  {| templateContent := templateText guideTemplate;
     navItems := [];
     stylesheetOut := None;
     navTemplateContent := [];
     site_title := js "Notes";
     home_md := js "README.md" |}.

(** A document whose frontmatter block is a comment line. *)
Definition draftTree : filesystem :=
  fun p =>
    if str_eqb p (js "/srv/repo/notes.md")
    then Some (File (js "---" ++ [LF] ++ js "# draft" ++ [LF] ++ js "---"
                     ++ [LF] ++ js "# Field notes"))
    else None.

(** A guide next to a directory of the same name that holds an
    [index.html] of its own. *)
Definition clashListing : list dirent :=
  [SubDirectory (js "docs")
     [RegularFile (js "guide.md");
      SubDirectory (js "guide") [RegularFile (js "index.html")]]].

(* ================================================================= *)
(** ** Configured titles *)













(** The listing of the one-page site. *)
Definition guideListing : list dirent :=
  [SubDirectory (js "docs") [RegularFile (js "guide.md")]].

(* ================================================================= *)
(** * Properties *)

(** ** Strings *)

Lemma str_eqb_eq (a b : jsstring) : str_eqb a b = true <-> a = b.
Proof.
  unfold str_eqb. destruct (list_eq_dec N.eq_dec a b); split; congruence.
Qed.

Lemma str_eqb_neq (a b : jsstring) : str_eqb a b = false <-> a <> b.
Proof.
  unfold str_eqb. destruct (list_eq_dec N.eq_dec a b); split; congruence.
Qed.

Lemma str_eqb_refl (a : jsstring) : str_eqb a a = true.
Proof. now apply str_eqb_eq. Qed.

Lemma is_empty_true (s : jsstring) : is_empty s = true <-> s = [].
Proof. destruct s; simpl; split; congruence. Qed.

Lemma is_empty_app (a b : jsstring) :
  is_empty (a ++ b) = is_empty a && is_empty b.
Proof. now destruct a. Qed.

Lemma noSlash_app (a b : jsstring) :
  noSlash (a ++ b) = noSlash a && noSlash b.
Proof. unfold noSlash. apply forallb_app. Qed.

Lemma isName_isSeg (s : jsstring) : isName s = true -> isSeg s = true.
Proof.
  unfold isName. intros H.
  apply andb_true_iff in H as [H _]. now apply andb_true_iff in H as [H _].
Qed.

Lemma isSeg_noSlash (s : jsstring) : isSeg s = true -> noSlash s = true.
Proof. unfold isSeg. intros H. now apply andb_true_iff in H. Qed.

Lemma isSeg_nonempty (s : jsstring) : isSeg s = true -> s <> [].
Proof. destruct s; simpl; intros; discriminate. Qed.

Lemma isName_not_dots (s : jsstring) :
  isName s = true -> s <> path.dot /\ s <> path.dotdot.
Proof.
  unfold isName. intros H.
  apply andb_true_iff in H as [H H2]. apply andb_true_iff in H as [_ H1].
  apply negb_true_iff in H1, H2. now rewrite str_eqb_neq in H1, H2.
Qed.

Lemma names_app (a b : list jsstring) : names (a ++ b) = names a && names b.
Proof. apply forallb_app. Qed.

Lemma names_rev (a : list jsstring) : names (rev a) = names a.
Proof.
  induction a as [|x a IH]; simpl; trivial.
  rewrite names_app, IH. simpl. rewrite andb_true_r. apply andb_comm.
Qed.

(** *** [split] and [join] *)

Lemma split_nonnil (s : jsstring) : split s <> [].
Proof.
  induction s as [|c t IH]; simpl; [discriminate|].
  destruct (c =? CHAR_FORWARD_SLASH); [discriminate|].
  destruct (split t); discriminate.
Qed.

Lemma split_app_slash (a b : jsstring) :
  split (a ++ CHAR_FORWARD_SLASH :: b) = split a ++ split b.
Proof.
  induction a as [|c a IH]; simpl.
  - reflexivity.
  - destruct (c =? CHAR_FORWARD_SLASH); [now rewrite IH|].
    rewrite IH. pose proof (split_nonnil a).
    destruct (split a); [contradiction | reflexivity].
Qed.

Lemma split_noSlash (a : jsstring) : noSlash a = true -> split a = [a].
Proof.
  induction a as [|c a IH]; simpl; trivial.
  intros H. apply andb_true_iff in H as [Hc Ha].
  apply negb_true_iff in Hc. rewrite Hc, (IH Ha). reflexivity.
Qed.

Lemma split_joinSlash (l : list jsstring) :
  l <> [] -> forallb noSlash l = true -> split (joinSlash l) = l.
Proof.
  induction l as [|x l IH]; [congruence|].
  intros _ H. simpl in H. apply andb_true_iff in H as [Hx Hl].
  destruct l as [|y l].
  - simpl. now apply split_noSlash.
  - change (joinSlash (x :: y :: l)) with (x ++ CHAR_FORWARD_SLASH :: joinSlash (y :: l)).
    rewrite split_app_slash, (split_noSlash _ Hx), IH; [reflexivity|discriminate|assumption].
Qed.

Lemma joinSlash_split (s : jsstring) : joinSlash (split s) = s.
Proof.
  induction s as [|c t IH]; simpl; trivial.
  destruct (c =? CHAR_FORWARD_SLASH) eqn:E.
  - apply N.eqb_eq in E. subst c.
    pose proof (split_nonnil t). destruct (split t) as [|h r] eqn:Et; [contradiction|].
    change (joinSlash ([] :: h :: r)) with ([] ++ CHAR_FORWARD_SLASH :: joinSlash (h :: r)).
    now rewrite IH.
  - pose proof (split_nonnil t). destruct (split t) as [|h r] eqn:Et; [contradiction|].
    destruct r as [|h' r].
    + simpl in *. now rewrite IH.
    + change (joinSlash ((c :: h) :: h' :: r)) with (c :: (h ++ CHAR_FORWARD_SLASH :: joinSlash (h' :: r))).
      change (joinSlash (h :: h' :: r)) with (h ++ CHAR_FORWARD_SLASH :: joinSlash (h' :: r)) in IH.
      now rewrite IH.
Qed.

Lemma split_forall_noSlash (s : jsstring) : forallb noSlash (split s) = true.
Proof.
  induction s as [|c t IH]; simpl; trivial.
  destruct (c =? CHAR_FORWARD_SLASH) eqn:E; simpl; trivial.
  destruct (split t) as [|h r]; simpl in *.
  - now rewrite E.
  - now rewrite E.
Qed.

Lemma joinSlash_app (a b : list jsstring) :
  a <> [] -> b <> [] ->
  joinSlash (a ++ b) = joinSlash a ++ CHAR_FORWARD_SLASH :: joinSlash b.
Proof.
  induction a as [|x a IH]; [congruence|]. intros _ Hb.
  destruct a as [|y a].
  - simpl. destruct b; [congruence | reflexivity].
  - change ((x :: y :: a) ++ b) with (x :: (y :: a) ++ b).
    change (joinSlash (x :: y :: a)) with (x ++ CHAR_FORWARD_SLASH :: joinSlash (y :: a)).
    assert (E : joinSlash (x :: (y :: a) ++ b) = x ++ CHAR_FORWARD_SLASH :: joinSlash ((y :: a) ++ b))
      by reflexivity.
    rewrite E, IH by (assumption || discriminate).
    now rewrite <- app_assoc.
Qed.

Lemma joinSlash_snoc (a : list jsstring) (x : jsstring) :
  a <> [] -> joinSlash (a ++ [x]) = joinSlash a ++ CHAR_FORWARD_SLASH :: x.
Proof. intros H. now rewrite joinSlash_app by (assumption || discriminate). Qed.

Lemma names_noSlash (l : list jsstring) :
  names l = true -> forallb noSlash l = true.
Proof.
  induction l as [|x l IH]; simpl; trivial. intros H.
  apply andb_true_iff in H as [Hx Hl].
  now rewrite (isSeg_noSlash _ (isName_isSeg _ Hx)), IH.
Qed.

(** ** Node's [path] on well-formed paths *)

Arguments path.normalizeSegs : simpl never.
Arguments path.normalizeStep : simpl never.
Arguments absPath : simpl never.

Lemma normalizeStep_name (b : bool) (res : list jsstring) (x : jsstring) :
  isName x = true -> path.normalizeStep b res x = x :: res.
Proof.
  intros H. unfold path.normalizeStep.
  destruct (isName_not_dots _ H) as [H1 H2].
  apply str_eqb_neq in H1, H2. rewrite H1, H2.
  apply isName_isSeg, isSeg_nonempty in H.
  destruct x; [congruence | reflexivity].
Qed.

Lemma normalizeStep_empty (b : bool) (res : list jsstring) :
  path.normalizeStep b res [] = res.
Proof. reflexivity. Qed.

Lemma normalizeStep_dotdot_name (b : bool) (res : list jsstring) (x : jsstring) :
  isName x = true -> path.normalizeStep b (x :: res) path.dotdot = res.
Proof.
  intros H. unfold path.normalizeStep.
  destruct (isName_not_dots _ H) as [_ H2]. apply str_eqb_neq in H2.
  rewrite H2. reflexivity.
Qed.

Lemma normalizeSegs_app (b : bool) (res : list jsstring) (s1 s2 : list jsstring) :
  path.normalizeSegs b res (s1 ++ s2)
  = path.normalizeSegs b (path.normalizeSegs b res s1) s2.
Proof. apply fold_left_app. Qed.

Lemma normalizeSegs_cons (b : bool) (res : list jsstring) (x : jsstring)
    (segs : list jsstring) :
  path.normalizeSegs b res (x :: segs)
  = path.normalizeSegs b (path.normalizeStep b res x) segs.
Proof. reflexivity. Qed.

Lemma normalizeSegs_names (b : bool) (res segs : list jsstring) :
  names segs = true -> path.normalizeSegs b res segs = rev segs ++ res.
Proof.
  revert res. induction segs as [|x segs IH]; intros res H; trivial.
  simpl in H. apply andb_true_iff in H as [Hx Hs].
  rewrite normalizeSegs_cons, (normalizeStep_name _ _ _ Hx), IH by assumption.
  simpl. now rewrite <- app_assoc.
Qed.

Lemma map_const_snoc {A B : Type} (c : B) (l : list A) :
  map (fun _ => c) l ++ [c] = c :: map (fun _ => c) l.
Proof. induction l; simpl; congruence. Qed.

(** Popping: one [..] for each name on top of the stack. *)
Lemma normalizeSegs_ups (b : bool) (res up : list jsstring) :
  names up = true ->
  path.normalizeSegs b (rev up ++ res) (map (fun _ => path.dotdot) up) = res.
Proof.
  induction up as [|x up IH] using rev_ind; intros H; trivial.
  rewrite names_app in H. apply andb_true_iff in H as [Hu Hx].
  simpl in Hx. rewrite andb_true_r in Hx.
  rewrite rev_app_distr, map_app. simpl map. rewrite map_const_snoc.
  simpl. rewrite normalizeSegs_cons, (normalizeStep_dotdot_name _ _ _ Hx).
  now apply IH.
Qed.

(** Without [allowAboveRoot], a stack of names stays a stack of names. *)
Lemma normalizeStep_keeps_names (res : list jsstring) (x : jsstring) :
  names res = true -> noSlash x = true ->
  names (path.normalizeStep false res x) = true.
Proof.
  intros Hr Hx. unfold path.normalizeStep.
  destruct (is_empty x) eqn:E1; simpl; trivial.
  destruct (str_eqb x path.dot) eqn:E2; simpl; trivial.
  destruct (str_eqb x path.dotdot) eqn:E3.
  - destruct res as [|top below]; trivial.
    destruct (str_eqb top path.dotdot); trivial.
    simpl in Hr. now apply andb_true_iff in Hr.
  - simpl. rewrite Hr, andb_true_r. unfold isName, isSeg.
    now rewrite E1, E2, E3, Hx.
Qed.

Lemma normalizeSegs_keeps_names (res segs : list jsstring) :
  names res = true -> forallb noSlash segs = true ->
  names (path.normalizeSegs false res segs) = true.
Proof.
  revert res. induction segs as [|x segs IH]; intros res Hr Hs; trivial.
  simpl in Hs. apply andb_true_iff in Hs as [Hx Hs].
  rewrite normalizeSegs_cons. apply IH; trivial.
  now apply normalizeStep_keeps_names.
Qed.

Lemma split_absPath (A : list jsstring) :
  names A = true ->
  split (absPath A) = [] :: (if is_empty (joinSlash A) then [[]] else A).
Proof.
  intros H. unfold absPath.
  change (CHAR_FORWARD_SLASH :: joinSlash A)
    with ([] ++ CHAR_FORWARD_SLASH :: joinSlash A).
  rewrite split_app_slash. simpl. f_equal.
  destruct A as [|x A]; trivial.
  rewrite split_joinSlash by (discriminate || now apply names_noSlash).
  simpl in H. apply andb_true_iff in H as [Hx _].
  apply isName_isSeg, isSeg_nonempty in Hx.
  destruct x; [congruence|]. now destruct A.
Qed.

Lemma normalizeSegs_absPath (b : bool) (A : list jsstring) :
  names A = true ->
  path.normalizeSegs b [] (split (absPath A)) = rev A.
Proof.
  intros H. rewrite (split_absPath _ H).
  rewrite normalizeSegs_cons, normalizeStep_empty.
  destruct (is_empty (joinSlash A)) eqn:E.
  - apply is_empty_true in E. destruct A as [|x A]; trivial.
    simpl in H. apply andb_true_iff in H as [Hx _].
    apply isName_isSeg, isSeg_nonempty in Hx.
    destruct x; [congruence|]. destruct A; discriminate.
  - rewrite normalizeSegs_names by assumption. apply app_nil_r.
Qed.

Lemma segments_absPath (A : list jsstring) :
  names A = true -> path.segments (absPath A) = A.
Proof.
  intros H. unfold path.segments. rewrite (split_absPath _ H). simpl.
  destruct (is_empty (joinSlash A)) eqn:E.
  - apply is_empty_true in E. destruct A as [|x A]; trivial.
    simpl in H. apply andb_true_iff in H as [Hx _].
    apply isName_isSeg, isSeg_nonempty in Hx.
    destruct x; [congruence|]. destruct A; discriminate.
  - clear E. induction A as [|x A IH]; trivial. simpl in *.
    apply andb_true_iff in H as [Hx HA].
    apply isName_isSeg, isSeg_nonempty in Hx.
    destruct x; [congruence|]. simpl. f_equal. now apply IH.
Qed.

Lemma absPath_inj (A B : list jsstring) :
  names A = true -> names B = true -> absPath A = absPath B -> A = B.
Proof.
  intros HA HB E.
  rewrite <- (segments_absPath _ HA), <- (segments_absPath _ HB). now rewrite E.
Qed.

Lemma isAbsolute_absPath (A : list jsstring) : path.isAbsolute (absPath A) = true.
Proof. reflexivity. Qed.

Lemma resolveLoop_absolute (cwd : jsstring) (todo : list jsstring) (acc : jsstring) :
  path.isAbsolute cwd = true ->
  exists rp, path.resolveLoop (todo ++ [cwd]) acc = (rp, true).
Proof.
  intros Hc. revert acc. induction todo as [|p todo IH]; intros acc; simpl.
  - destruct cwd as [|c cwd]; [discriminate|]. simpl in *. rewrite Hc. eauto.
  - destruct (is_empty p); [apply IH|].
    destruct (path.isAbsolute p); [eauto | apply IH].
Qed.

(** [path.resolve] always returns a normalised absolute path. *)
Lemma resolve_shape (cwd : jsstring) (args : list jsstring) :
  path.isAbsolute cwd = true ->
  exists T, names T = true /\ path.resolve cwd args = absPath T.
Proof.
  intros Hc. unfold path.resolve.
  destruct (resolveLoop_absolute cwd (rev args) [] Hc) as [rp E]. rewrite E.
  exists (rev (path.normalizeSegs false [] (split rp))). split.
  - rewrite names_rev. apply normalizeSegs_keeps_names; trivial.
    apply split_forall_noSlash.
  - reflexivity.
Qed.

Lemma names_resolveSegs (A : list jsstring) (u : jsstring) :
  names A = true -> names (resolveSegs A u) = true.
Proof.
  intros H. unfold resolveSegs. rewrite names_rev.
  apply normalizeSegs_keeps_names; [|apply split_forall_noSlash].
  destruct (path.isAbsolute u); trivial. now rewrite names_rev.
Qed.

Lemma normalizeString_abs_slash (A : list jsstring) (u : jsstring) :
  names A = true ->
  path.normalizeString (absPath A ++ CHAR_FORWARD_SLASH :: u) false
  = joinSlash (rev (path.normalizeSegs false (rev A) (split u))).
Proof.
  intros H. unfold path.normalizeString.
  now rewrite split_app_slash, normalizeSegs_app, normalizeSegs_absPath.
Qed.

Lemma normalizeSegs_trailing (b : bool) (res : list jsstring) (u : jsstring) :
  path.normalizeSegs b res (split (u ++ [CHAR_FORWARD_SLASH]))
  = path.normalizeSegs b res (split u).
Proof.
  rewrite split_app_slash, normalizeSegs_app. reflexivity.
Qed.

Lemma resolveLoop_abs2 (cwd : jsstring) (A : list jsstring) (u : jsstring) :
  path.resolveLoop (rev [absPath A; u] ++ [cwd]) []
  = (if is_empty u then absPath A ++ [CHAR_FORWARD_SLASH]
     else if path.isAbsolute u then u ++ [CHAR_FORWARD_SLASH]
     else absPath A ++ CHAR_FORWARD_SLASH :: (u ++ [CHAR_FORWARD_SLASH]),
     true).
Proof.
  destruct u as [|c u]; [reflexivity|]. simpl.
  destruct (c =? CHAR_FORWARD_SLASH); reflexivity.
Qed.

Lemma resolve_abs2 (cwd : jsstring) (A : list jsstring) (u : jsstring) :
  names A = true ->
  path.resolve cwd [absPath A; u] = absPath (resolveSegs A u).
Proof.
  intros H. unfold path.resolve, resolveSegs. rewrite resolveLoop_abs2.
  simpl negb. cbv iota.
  match goal with |- _ = absPath ?x => unfold absPath at 3 end. f_equal.
  destruct (is_empty u) eqn:E.
  - apply is_empty_true in E. subst u. unfold path.normalizeString.
    now rewrite normalizeSegs_trailing, normalizeSegs_absPath.
  - destruct (path.isAbsolute u).
    + unfold path.normalizeString. now rewrite normalizeSegs_trailing.
    + rewrite normalizeString_abs_slash by assumption.
      now rewrite normalizeSegs_trailing.
Qed.

Lemma resolve_abs1 (cwd : jsstring) (A : list jsstring) :
  names A = true -> path.resolve cwd [absPath A] = absPath A.
Proof.
  intros H. unfold path.resolve. simpl.
  change (CHAR_FORWARD_SLASH :: joinSlash A ++ [CHAR_FORWARD_SLASH])
    with (absPath A ++ [CHAR_FORWARD_SLASH]).
  unfold path.normalizeString.
  rewrite normalizeSegs_trailing, normalizeSegs_absPath by assumption.
  now rewrite rev_involutive.
Qed.

(** *** [path.relative] *)

Lemma dropCommon_same (A : list jsstring) : path.dropCommon A A = ([], []).
Proof.
  induction A as [|x A IH]; simpl; trivial. now rewrite str_eqb_refl.
Qed.

Lemma dropCommon_app (C A B : list jsstring) :
  path.dropCommon (C ++ A) (C ++ B) = path.dropCommon A B.
Proof.
  induction C as [|x C IH]; simpl; trivial. now rewrite str_eqb_refl.
Qed.

Lemma dropCommon_split (A B : list jsstring) :
  exists C, A = C ++ fst (path.dropCommon A B)
            /\ B = C ++ snd (path.dropCommon A B).
Proof.
  revert B. induction A as [|x A IH]; intros B.
  - exists []. now destruct B.
  - destruct B as [|y B]; [now exists []|]. simpl.
    destruct (str_eqb x y) eqn:E.
    + apply str_eqb_eq in E. subst y.
      destruct (IH B) as [C [E1 E2]]. exists (x :: C). simpl. now rewrite <- E1, <- E2.
    + now exists [].
Qed.

Lemma relative_absPath (cwd : jsstring) (A B : list jsstring) :
  names A = true -> names B = true ->
  path.relative cwd (absPath A) (absPath B) = joinSlash (relSegs A B).
Proof.
  intros HA HB. unfold path.relative, relSegs.
  destruct (str_eqb (absPath A) (absPath B)) eqn:E.
  - apply str_eqb_eq, absPath_inj in E; trivial. subst B.
    now rewrite dropCommon_same.
  - rewrite !resolve_abs1, E, !segments_absPath by assumption.
    now destruct (path.dropCommon A B).
Qed.

(** [path.relative] in general: both ends are resolved first. *)
Lemma relative_shape (cwd from to : jsstring) :
  path.isAbsolute cwd = true ->
  exists F T, names F = true /\ names T = true
    /\ path.resolve cwd [from] = absPath F
    /\ path.resolve cwd [to] = absPath T
    /\ path.relative cwd from to = joinSlash (relSegs F T).
Proof.
  intros Hc.
  destruct (resolve_shape cwd [from] Hc) as [F [HF EF]].
  destruct (resolve_shape cwd [to] Hc) as [T [HT ET]].
  exists F, T. repeat split; trivial.
  unfold path.relative, relSegs.
  destruct (str_eqb from to) eqn:E.
  - apply str_eqb_eq in E. subst to. rewrite EF in ET.
    apply absPath_inj in ET; trivial. subst T. now rewrite dropCommon_same.
  - rewrite EF, ET. destruct (str_eqb (absPath F) (absPath T)) eqn:E2.
    + apply str_eqb_eq, absPath_inj in E2; trivial. subst T.
      now rewrite dropCommon_same.
    + rewrite !segments_absPath by assumption.
      now destruct (path.dropCommon F T).
Qed.

(** *** [path.dirname] and [path.basename] *)

Lemma noSlash_rev (l : jsstring) : noSlash (rev l) = noSlash l.
Proof.
  induction l as [|c l IH]; simpl; trivial.
  rewrite noSlash_app, IH. simpl. rewrite andb_true_r. apply andb_comm.
Qed.

Lemma dropWhile_notSlash_app (a y : jsstring) :
  noSlash a = true ->
  dropWhile notSlash (a ++ CHAR_FORWARD_SLASH :: y) = CHAR_FORWARD_SLASH :: y.
Proof.
  induction a as [|c a IH]; simpl; intros H; trivial.
  apply andb_true_iff in H as [Hc Ha]. unfold notSlash at 1, path.is_slash.
  rewrite Hc. now apply IH.
Qed.

Lemma dropWhile_notSlash_all (a : jsstring) :
  noSlash a = true -> dropWhile notSlash a = [].
Proof.
  induction a as [|c a IH]; simpl; intros H; trivial.
  apply andb_true_iff in H as [Hc Ha]. unfold notSlash at 1, path.is_slash.
  rewrite Hc. now apply IH.
Qed.

Lemma takeWhile_notSlash_app (a y : jsstring) :
  noSlash a = true ->
  takeWhile notSlash (a ++ CHAR_FORWARD_SLASH :: y) = a.
Proof.
  induction a as [|c a IH]; simpl; intros H; trivial.
  apply andb_true_iff in H as [Hc Ha]. unfold notSlash at 1, path.is_slash.
  rewrite Hc. f_equal. now apply IH.
Qed.

Lemma takeWhile_notSlash_all (a : jsstring) :
  noSlash a = true -> takeWhile notSlash a = a.
Proof.
  induction a as [|c a IH]; simpl; intros H; trivial.
  apply andb_true_iff in H as [Hc Ha]. unfold notSlash at 1, path.is_slash.
  rewrite Hc. f_equal. now apply IH.
Qed.

Lemma dropWhile_slash_seg (l y : jsstring) :
  isSeg l = true -> dropWhile path.is_slash (rev l ++ y) = rev l ++ y.
Proof.
  intros H. pose proof (isSeg_nonempty _ H) as Hn.
  apply isSeg_noSlash in H. rewrite <- noSlash_rev in H.
  destruct (rev l) as [|c r] eqn:E.
  - apply (f_equal (@rev N)) in E. rewrite rev_involutive in E. now subst l.
  - simpl in *. apply andb_true_iff in H as [Hc _].
    unfold path.is_slash. apply negb_true_iff in Hc. now rewrite Hc.
Qed.

Lemma dirname_slash_seg (c0 : N) (pre l : jsstring) :
  isSeg l = true ->
  path.dirname (c0 :: pre ++ CHAR_FORWARD_SLASH :: l)
  = if path.is_slash c0 && is_empty pre
    then [CHAR_FORWARD_SLASH; CHAR_FORWARD_SLASH] else c0 :: pre.
Proof.
  intros H. unfold path.dirname.
  rewrite rev_app_distr. simpl rev. rewrite <- app_assoc. simpl app.
  rewrite (dropWhile_slash_seg _ _ H).
  fold notSlash.
  rewrite dropWhile_notSlash_app
    by (rewrite noSlash_rev; now apply isSeg_noSlash).
  rewrite rev_involutive.
  assert (E : is_empty (rev pre) = is_empty pre).
  { destruct pre as [|c pre]; trivial. simpl. now destruct (rev pre). }
  now rewrite E.
Qed.

Lemma dropWhile_slash_noSlash (s : jsstring) :
  noSlash s = true -> dropWhile path.is_slash s = s.
Proof.
  destruct s as [|c s]; simpl; trivial. intros H.
  apply andb_true_iff in H as [Hc _]. apply negb_true_iff in Hc.
  unfold path.is_slash. now rewrite Hc.
Qed.

Lemma dirname_seg (l : jsstring) : isSeg l = true -> path.dirname l = path.dot.
Proof.
  intros H. destruct l as [|c0 l]; trivial.
  unfold isSeg in H. simpl in H. apply andb_true_iff in H as [Hc Hl].
  apply negb_true_iff in Hc. unfold path.dirname.
  rewrite dropWhile_slash_noSlash by now rewrite noSlash_rev.
  fold notSlash. rewrite dropWhile_notSlash_all by now rewrite noSlash_rev.
  unfold path.is_slash. now rewrite Hc.
Qed.

Lemma dirname_root_seg (l : jsstring) :
  isSeg l = true -> path.dirname (CHAR_FORWARD_SLASH :: l) = [CHAR_FORWARD_SLASH].
Proof.
  intros H. unfold path.dirname.
  rewrite <- (app_nil_r (rev l)), (dropWhile_slash_seg _ _ H), app_nil_r.
  fold notSlash. rewrite dropWhile_notSlash_all; trivial.
  rewrite noSlash_rev. now apply isSeg_noSlash.
Qed.

Lemma basename_slash_seg (pre l : jsstring) :
  isSeg l = true -> path.basename (pre ++ CHAR_FORWARD_SLASH :: l) = l.
Proof.
  intros H. unfold path.basename.
  rewrite rev_app_distr. simpl rev. rewrite <- app_assoc. simpl app.
  rewrite (dropWhile_slash_seg _ _ H). fold notSlash.
  rewrite takeWhile_notSlash_app
    by (rewrite noSlash_rev; now apply isSeg_noSlash).
  apply rev_involutive.
Qed.

Lemma basename_seg (l : jsstring) : isSeg l = true -> path.basename l = l.
Proof.
  intros H. unfold path.basename.
  rewrite <- (app_nil_r (rev l)), (dropWhile_slash_seg _ _ H), app_nil_r.
  fold notSlash. rewrite takeWhile_notSlash_all.
  - apply rev_involutive.
  - rewrite noSlash_rev. now apply isSeg_noSlash.
Qed.

Lemma names_segs (l : list jsstring) : names l = true -> segs l = true.
Proof.
  induction l as [|x l IH]; simpl; trivial. intros H.
  apply andb_true_iff in H as [Hx Hl]. now rewrite (isName_isSeg _ Hx), IH.
Qed.

Lemma segs_app (a b : list jsstring) : segs (a ++ b) = segs a && segs b.
Proof. apply forallb_app. Qed.

Lemma joinSlash_nonempty (l : list jsstring) :
  l <> [] -> segs l = true -> joinSlash l <> [].
Proof.
  destruct l as [|x l]; [congruence|]. intros _ H. simpl in H.
  apply andb_true_iff in H as [Hx _]. apply isSeg_nonempty in Hx.
  destruct x; [congruence|]. destruct l; discriminate.
Qed.

(** Directory and file name of a relative path given by its segments. *)
Lemma dirname_joinSlash (init : list jsstring) (l : jsstring) :
  segs init = true -> isSeg l = true ->
  path.dirname (joinSlash (init ++ [l]))
  = if is_empty (joinSlash init) then path.dot else joinSlash init.
Proof.
  intros Hi Hl. destruct init as [|x init].
  - simpl. now apply dirname_seg.
  - rewrite joinSlash_snoc by discriminate.
    pose proof (joinSlash_nonempty (x :: init)) as Hn.
    destruct (joinSlash (x :: init)) as [|c0 pre] eqn:E;
      [exfalso; apply Hn; (discriminate || trivial)|].
    simpl app. rewrite (dirname_slash_seg _ _ _ Hl). simpl is_empty.
    assert (Hc : path.is_slash c0 = false).
    { simpl in Hi. apply andb_true_iff in Hi as [Hx _].
      unfold isSeg in Hx. apply andb_true_iff in Hx as [Hx1 Hx2].
      destruct x as [|c x]; [discriminate|].
      assert (c0 = c) by (destruct init; simpl in E; congruence). subst c0.
      simpl in Hx2. apply andb_true_iff in Hx2 as [Hc _].
      now apply negb_true_iff in Hc. }
    now rewrite Hc.
Qed.

Lemma basename_joinSlash (init : list jsstring) (l : jsstring) :
  isSeg l = true -> path.basename (joinSlash (init ++ [l])) = l.
Proof.
  intros Hl. destruct init as [|x init].
  - simpl. now apply basename_seg.
  - rewrite joinSlash_snoc by discriminate. now apply basename_slash_seg.
Qed.

Lemma dirname_absPath (O : list jsstring) (x : jsstring) :
  names O = true -> isSeg x = true ->
  path.dirname (absPath (O ++ [x])) = absPath O.
Proof.
  intros HO Hx. unfold absPath. destruct O as [|y O].
  - simpl. now apply dirname_root_seg.
  - rewrite joinSlash_snoc by discriminate.
    rewrite (dirname_slash_seg _ _ _ Hx).
    pose proof (joinSlash_nonempty (y :: O)) as Hn.
    destruct (joinSlash (y :: O)) eqn:E.
    + exfalso. apply Hn; [discriminate| |trivial]. now apply names_segs.
    + reflexivity.
Qed.

Lemma basename_absPath (O : list jsstring) (x : jsstring) :
  isSeg x = true -> path.basename (absPath (O ++ [x])) = x.
Proof.
  intros Hx. unfold absPath. destruct O as [|y O].
  - simpl joinSlash.
    change (CHAR_FORWARD_SLASH :: x) with ([] ++ CHAR_FORWARD_SLASH :: x).
    now apply basename_slash_seg.
  - rewrite joinSlash_snoc by discriminate.
    change (CHAR_FORWARD_SLASH :: joinSlash (y :: O) ++ CHAR_FORWARD_SLASH :: x)
      with ((CHAR_FORWARD_SLASH :: joinSlash (y :: O)) ++ CHAR_FORWARD_SLASH :: x).
    now apply basename_slash_seg.
Qed.

(** *** [path.join] *)

Lemma trailingSlash_app (a b : jsstring) :
  b <> [] -> path.trailingSlash (a ++ b) = path.trailingSlash b.
Proof.
  intros H. unfold path.trailingSlash. rewrite rev_app_distr.
  destruct (rev b) eqn:E; trivial.
  apply (f_equal (@rev N)) in E. rewrite rev_involutive in E. now subst b.
Qed.

Lemma trailingSlash_seg (x : jsstring) :
  isSeg x = true -> path.trailingSlash x = false.
Proof.
  intros H. apply isSeg_noSlash in H. rewrite <- noSlash_rev in H.
  unfold path.trailingSlash. destruct (rev x) as [|c r]; trivial.
  simpl in H. apply andb_true_iff in H as [Hc _].
  now apply negb_true_iff in Hc.
Qed.

Lemma joinSlash_names_empty (A : list jsstring) :
  names A = true -> joinSlash A = [] -> A = [].
Proof.
  intros H E. destruct A as [|x A]; trivial. exfalso.
  apply (joinSlash_nonempty (x :: A)); trivial; [discriminate|].
  now apply names_segs.
Qed.

Lemma trailingSlash_joinSlash (A : list jsstring) :
  segs A = true -> path.trailingSlash (joinSlash A) = false.
Proof.
  induction A as [|x A IH] using rev_ind; trivial. intros H.
  rewrite segs_app in H. apply andb_true_iff in H as [HA Hx].
  simpl in Hx. rewrite andb_true_r in Hx.
  destruct A as [|y A]; [now apply trailingSlash_seg|].
  rewrite joinSlash_snoc by discriminate.
  rewrite trailingSlash_app by discriminate.
  change (CHAR_FORWARD_SLASH :: x) with ([CHAR_FORWARD_SLASH] ++ x).
  rewrite trailingSlash_app by now apply isSeg_nonempty.
  now apply trailingSlash_seg.
Qed.

(** [path.join(absPath A, u)] for a second argument without a
    trailing slash. *)
Lemma join_abs2 (A : list jsstring) (u : jsstring) :
  names A = true -> path.trailingSlash u = false ->
  path.join [absPath A; u]
  = absPath (rev (path.normalizeSegs false (rev A) (split u))).
Proof.
  intros HA Hu. unfold path.join.
  destruct u as [|c u].
  - change (joinSlash (filter (fun a => negb (is_empty a)) [absPath A; []]))
      with (absPath A).
    change (is_empty (absPath A)) with false. cbv iota.
    unfold path.normalize.
    change (is_empty (absPath A)) with false. cbv iota.
    rewrite isAbsolute_absPath. simpl negb.
    assert (NS : path.normalizeString (absPath A) false = joinSlash A).
    { unfold path.normalizeString.
      now rewrite normalizeSegs_absPath, rev_involutive. }
    rewrite !NS. change (split []) with [@nil N].
    rewrite normalizeSegs_cons, normalizeStep_empty.
    unfold path.normalizeSegs. simpl fold_left. rewrite rev_involutive.
    destruct (is_empty (joinSlash A)) eqn:E.
    + apply is_empty_true in E. now rewrite (joinSlash_names_empty _ HA E).
    + assert (T : path.trailingSlash (absPath A) = false).
      { unfold absPath.
        change (CHAR_FORWARD_SLASH :: joinSlash A)
          with ([CHAR_FORWARD_SLASH] ++ joinSlash A).
        rewrite trailingSlash_app
          by (intros E'; now rewrite E' in E).
        apply trailingSlash_joinSlash. now apply names_segs. }
      now rewrite T.
  - change (joinSlash (filter (fun a => negb (is_empty a)) [absPath A; c :: u]))
      with (absPath A ++ CHAR_FORWARD_SLASH :: c :: u).
    assert (Ne : is_empty (absPath A ++ CHAR_FORWARD_SLASH :: c :: u) = false)
      by reflexivity.
    rewrite Ne. unfold path.normalize. rewrite Ne.
    assert (Ab : path.isAbsolute (absPath A ++ CHAR_FORWARD_SLASH :: c :: u) = true)
      by reflexivity.
    rewrite Ab. simpl negb.
    rewrite normalizeString_abs_slash by assumption.
    rewrite trailingSlash_app by discriminate.
    change (CHAR_FORWARD_SLASH :: c :: u) with ([CHAR_FORWARD_SLASH] ++ c :: u).
    rewrite trailingSlash_app by discriminate. rewrite Hu. clear Ne Ab.
    destruct (is_empty (joinSlash _)) eqn:E; trivial.
    apply is_empty_true in E. unfold absPath. now rewrite E.
Qed.

Lemma join_abs_name (A : list jsstring) (x : jsstring) :
  names A = true -> isName x = true ->
  path.join [absPath A; x] = absPath (A ++ [x]).
Proof.
  intros HA Hx. rewrite join_abs2; trivial.
  - rewrite split_noSlash by now apply isSeg_noSlash, isName_isSeg.
    rewrite normalizeSegs_cons, (normalizeStep_name _ _ _ Hx).
    unfold path.normalizeSegs. simpl. now rewrite rev_involutive.
  - now apply trailingSlash_seg, isName_isSeg.
Qed.

(** [path.join(absPath A, X, y)] for any middle argument [X] and a
    final name [y]. *)
Lemma join_abs3 (A : list jsstring) (X y : jsstring) :
  names A = true -> isName y = true ->
  path.join [absPath A; X; y]
  = absPath (rev (path.normalizeSegs false (rev A) (split X)) ++ [y]).
Proof.
  intros HA Hy.
  pose proof (isName_isSeg _ Hy) as Hs.
  destruct X as [|c X].
  - change (path.join [absPath A; []; y]) with (path.join [absPath A; y]).
    rewrite join_abs_name by assumption.
    change (split []) with [@nil N].
    rewrite normalizeSegs_cons, normalizeStep_empty.
    unfold path.normalizeSegs. simpl. now rewrite rev_involutive.
  - assert (E : path.join [absPath A; c :: X; y]
                = path.join [absPath A; (c :: X) ++ CHAR_FORWARD_SLASH :: y]).
    { unfold path.join. simpl filter.
      destruct y as [|d y]; [discriminate|]. reflexivity. }
    etransitivity; [exact E|]. clear E.
    rewrite join_abs2; trivial.
    + rewrite split_app_slash, normalizeSegs_app.
      rewrite (split_noSlash y) by now apply isSeg_noSlash.
      rewrite normalizeSegs_cons, (normalizeStep_name _ _ _ Hy).
      unfold path.normalizeSegs at 1. simpl fold_left. reflexivity.
    + replace ((c :: X) ++ CHAR_FORWARD_SLASH :: y)
        with (((c :: X) ++ [CHAR_FORWARD_SLASH]) ++ y)
        by now rewrite <- app_assoc.
      rewrite trailingSlash_app by now apply isSeg_nonempty.
      now apply trailingSlash_seg.
Qed.

Lemma joinSlash_not_dot (d : list jsstring) :
  names d = true -> d <> [] -> joinSlash d <> path.dot.
Proof.
  intros H Hn E.
  pose proof (split_joinSlash d Hn (names_noSlash _ H)) as S.
  rewrite E in S. simpl in S. subst d. discriminate.
Qed.

Lemma isAbsolute_joinSlash (d : list jsstring) :
  segs d = true -> path.isAbsolute (joinSlash d) = false.
Proof.
  destruct d as [|x d]; trivial. intros H. simpl in H.
  apply andb_true_iff in H as [Hx _]. unfold isSeg in Hx.
  apply andb_true_iff in Hx as [Hx1 Hx2].
  destruct x as [|c x]; [discriminate|].
  simpl in Hx2. apply andb_true_iff in Hx2 as [Hc _].
  apply negb_true_iff in Hc. destruct d; simpl; assumption.
Qed.

(** [path.join] of a relative directory and a name. *)
Lemma join_rel_name (d : list jsstring) (x : jsstring) :
  names d = true -> d <> [] -> isName x = true ->
  path.join [joinSlash d; x] = joinSlash (d ++ [x]).
Proof.
  intros Hd Hn Hx.
  pose proof (joinSlash_nonempty d Hn (names_segs _ Hd)) as Hne.
  pose proof (isSeg_nonempty _ (isName_isSeg _ Hx)) as Hxe.
  assert (Hall : names (d ++ [x]) = true)
    by (rewrite names_app, Hd; simpl; now rewrite Hx).
  unfold path.join.
  assert (J : joinSlash (filter (fun a => negb (is_empty a)) [joinSlash d; x])
              = joinSlash (d ++ [x])).
  { rewrite joinSlash_snoc by assumption. simpl.
    destruct (joinSlash d); [congruence|]. destruct x; [congruence|]. reflexivity. }
  rewrite J. clear J.
  assert (Hne2 : joinSlash (d ++ [x]) <> []).
  { apply joinSlash_nonempty; [now destruct d | now apply names_segs]. }
  assert (E1 : is_empty (joinSlash (d ++ [x])) = false)
    by (destruct (joinSlash (d ++ [x])) eqn:E; [congruence | reflexivity]).
  rewrite E1. unfold path.normalize. rewrite E1.
  rewrite isAbsolute_joinSlash by now apply names_segs.
  rewrite trailingSlash_joinSlash by now apply names_segs.
  simpl negb. unfold path.normalizeString.
  rewrite split_joinSlash
    by (first [now destruct d | now apply names_noSlash]).
  rewrite normalizeSegs_names, app_nil_r, rev_involutive by assumption.
  now rewrite E1.
Qed.

(** ** The output layout *)

Section Layout.

(** The content root is a normalised absolute path. *)
Variable R : list jsstring.
Hypothesis HR : names R = true.

Let cwd := absPath R.

Lemma names_siteSegs : names (siteSegs R) = true.
Proof. unfold siteSegs. rewrite names_app, HR. reflexivity. Qed.

Lemma OUTPUT_ROOT_abs : OUTPUT_ROOT cwd = absPath (siteSegs R).
Proof.
  unfold OUTPUT_ROOT, REPO_ROOT, cwd. now apply join_abs_name.
Qed.

(** Every output location is a normalised absolute path that ends
    in [index.html]. *)
Lemma computeOutputHtmlPath_shape (mdPath home : jsstring) :
  exists O, names O = true
    /\ computeOutputHtmlPath cwd mdPath home = absPath (O ++ [js "index.html"]).
Proof.
  unfold computeOutputHtmlPath. rewrite OUTPUT_ROOT_abs.
  destruct (_ && _).
  - exists (siteSegs R). split; [apply names_siteSegs|].
    apply join_abs_name; [apply names_siteSegs | reflexivity].
  - eexists. split; [|apply join_abs3; [apply names_siteSegs | reflexivity]].
    rewrite names_rev. apply normalizeSegs_keeps_names.
    + rewrite names_rev. apply names_siteSegs.
    + apply split_forall_noSlash.
Qed.

Lemma relative_root_inside (t : list jsstring) :
  names t = true ->
  path.relative cwd (REPO_ROOT cwd) (absPath (R ++ t)) = joinSlash t.
Proof.
  intros Ht. unfold REPO_ROOT, cwd.
  rewrite relative_absPath; trivial; [|now rewrite names_app, HR].
  unfold relSegs. rewrite <- (app_nil_r R) at 1 3.
  now rewrite dropCommon_app; destruct t.
Qed.

(** A document [d/base] below the content root that is not the home
    document is written to [_site/d/name/index.html]. *)
Lemma computeOutputHtmlPath_inside (d : list jsstring) (base home : jsstring) :
  names d = true -> isName base = true ->
  isName (strip_suffix_ci (js ".md") base) = true ->
  d <> [] \/ base <> home ->
  computeOutputHtmlPath cwd (absPath (R ++ d ++ [base])) home
  = absPath ((siteSegs R) ++ d ++ [strip_suffix_ci (js ".md") base; js "index.html"]).
Proof.
  intros Hd Hb Hn Hnot.
  assert (Hdb : names (d ++ [base]) = true)
    by (rewrite names_app, Hd; simpl; now rewrite Hb).
  unfold computeOutputHtmlPath.
  rewrite relative_root_inside by assumption.
  rewrite basename_joinSlash by now apply isName_isSeg.
  rewrite dirname_joinSlash
    by (first [now apply names_segs | now apply isName_isSeg]).
  rewrite OUTPUT_ROOT_abs.
  set (name := strip_suffix_ci (js ".md") base) in *.
  destruct d as [|x d].
  - simpl joinSlash. simpl is_empty. cbv iota.
    change (str_eqb path.dot (js ".")) with true. simpl andb.
    destruct Hnot as [Hnot|Hnot]; [congruence|].
    apply str_eqb_neq in Hnot. rewrite Hnot.
    rewrite join_abs3 by (apply names_siteSegs || reflexivity).
    rewrite split_noSlash by now apply isSeg_noSlash, isName_isSeg.
    rewrite normalizeSegs_cons, (normalizeStep_name _ _ _ Hn).
    unfold path.normalizeSegs. simpl fold_left. simpl rev.
    rewrite rev_involutive. now rewrite <- app_assoc.
  - assert (Hne : x :: d <> []) by discriminate.
    assert (E1 : is_empty (joinSlash (x :: d)) = false).
    { pose proof (joinSlash_nonempty (x :: d) Hne (names_segs _ Hd)).
      destruct (joinSlash (x :: d)) eqn:E; [congruence | reflexivity]. }
    rewrite E1.
    assert (E2 : str_eqb (joinSlash (x :: d)) (js ".") = false)
      by (apply str_eqb_neq; now apply joinSlash_not_dot).
    rewrite E2. simpl andb. cbv iota.
    rewrite join_rel_name by assumption.
    rewrite join_abs3 by (apply names_siteSegs || reflexivity).
    assert (Hall : names ((x :: d) ++ [name]) = true)
      by (rewrite names_app, Hd; simpl; now rewrite Hn).
    rewrite split_joinSlash
      by (discriminate || now apply names_noSlash).
    rewrite normalizeSegs_names by assumption.
    rewrite rev_app_distr, !rev_involutive.
    now rewrite <- !app_assoc.
Qed.

(** The home document, placed directly in the content root. *)
Lemma computeOutputHtmlPath_home (home : jsstring) :
  isName home = true ->
  computeOutputHtmlPath cwd (absPath (R ++ [home])) home
  = absPath ((siteSegs R) ++ [js "index.html"]).
Proof.
  intros Hh. unfold computeOutputHtmlPath.
  rewrite relative_root_inside by (simpl; now rewrite Hh).
  simpl joinSlash.
  rewrite basename_seg, dirname_seg by now apply isName_isSeg.
  change (str_eqb path.dot (js ".")) with true. rewrite str_eqb_refl.
  simpl andb. cbv iota. rewrite OUTPUT_ROOT_abs.
  apply join_abs_name; [apply names_siteSegs | reflexivity].
Qed.

End Layout.

(** ** Suffix tests *)

Lemma prefix_ci_app (p q t r : jsstring) :
  length p = length t ->
  prefix_ci (p ++ q) (t ++ r) = prefix_ci p t && prefix_ci q r.
Proof.
  revert t. induction p as [|a p IH]; intros [|c t] H; try discriminate.
  - reflexivity.
  - simpl. rewrite IH by (simpl in H; congruence). now rewrite andb_assoc.
Qed.

Lemma prefix_ci_length (p s : jsstring) :
  prefix_ci p s = true -> (length p <= length s)%nat.
Proof.
  revert s. induction p as [|a p IH]; intros [|c s] H; simpl in *;
    try discriminate; try lia.
  apply andb_true_iff in H as [_ H]. apply IH in H. lia.
Qed.

Lemma ends_with_ci_length (p s : jsstring) :
  ends_with_ci p s = true -> (length p <= length s)%nat.
Proof.
  intros H. apply prefix_ci_length in H. now rewrite !length_rev in H.
Qed.

(** A pattern without a slash cannot reach across a slash. *)
Lemma prefix_ci_noSlash (p x y : jsstring) :
  noSlash p = true ->
  prefix_ci p (x ++ CHAR_FORWARD_SLASH :: y) = prefix_ci p x.
Proof.
  revert x. induction p as [|a p IH]; intros x H; trivial.
  simpl in H. apply andb_true_iff in H as [Ha Hp].
  destruct x as [|c x].
  - apply negb_true_iff in Ha.
    change (prefix_ci (a :: p) ([] ++ CHAR_FORWARD_SLASH :: y))
      with ((CHAR_FORWARD_SLASH =? a) && prefix_ci p y).
    rewrite N.eqb_sym, Ha. reflexivity.
  - simpl. now rewrite IH.
Qed.

Lemma ends_with_ci_noSlash (p x y : jsstring) :
  noSlash p = true ->
  ends_with_ci p (y ++ CHAR_FORWARD_SLASH :: x) = ends_with_ci p x.
Proof.
  intros H. unfold ends_with_ci.
  rewrite rev_app_distr. simpl rev. rewrite <- app_assoc. simpl app.
  apply prefix_ci_noSlash. now rewrite noSlash_rev.
Qed.

Lemma ends_with_ci_joinSlash (p : jsstring) (init : list jsstring) (x : jsstring) :
  noSlash p = true ->
  ends_with_ci p (joinSlash (init ++ [x])) = ends_with_ci p x.
Proof.
  intros H. destruct init as [|y init]; trivial.
  rewrite joinSlash_snoc by discriminate. now apply ends_with_ci_noSlash.
Qed.

Lemma drop_last_app (a b : jsstring) : drop_last (length b) (a ++ b) = a.
Proof.
  unfold drop_last. rewrite length_app.
  replace (length a + length b - length b)%nat with (length a + 0)%nat by lia.
  rewrite firstn_app_2. simpl. apply app_nil_r.
Qed.

Lemma split_last_n (n : nat) (s : jsstring) :
  (n <= length s)%nat ->
  exists a b, s = a ++ b /\ length b = n.
Proof.
  intros H. exists (firstn (length s - n) s), (skipn (length s - n) s).
  split; [now rewrite firstn_skipn|]. rewrite length_skipn. lia.
Qed.

(** Stripping a matched suffix [p] and testing for [q] afterwards is
    testing for [q ++ p] before. *)
Lemma ends_with_ci_drop_last (p q s : jsstring) :
  ends_with_ci p s = true ->
  ends_with_ci q (drop_last (length p) s) = ends_with_ci (q ++ p) s.
Proof.
  intros H. destruct (split_last_n (length p) s (ends_with_ci_length _ _ H))
    as [a [b [E L]]]. subst s.
  rewrite <- L, drop_last_app. unfold ends_with_ci in *.
  rewrite !rev_app_distr in *.
  rewrite <- (app_nil_r (rev p)) in H.
  rewrite prefix_ci_app in H by (rewrite !length_rev; lia).
  rewrite prefix_ci_app by (rewrite !length_rev; lia).
  apply andb_true_iff in H as [H _]. now rewrite H.
Qed.

Lemma ends_with_ci_snoc (p s : jsstring) (a c : N) :
  ends_with_ci (p ++ [a]) (s ++ [c]) = (to_lower c =? a) && ends_with_ci p s.
Proof.
  unfold ends_with_ci. now rewrite !rev_app_distr.
Qed.

Lemma ends_with_ci_nil (p : jsstring) (a : N) : ends_with_ci (p ++ [a]) [] = false.
Proof. unfold ends_with_ci. now rewrite rev_app_distr. Qed.

Lemma joinSlash_ups_last (up : list jsstring) :
  joinSlash (upsOf up) = []
  \/ exists s, joinSlash (upsOf up) = s ++ [CHAR_DOT].
Proof.
  induction up as [|x up IH] using rev_ind; [now left|]. right.
  unfold upsOf in *. rewrite map_app. simpl map.
  destruct (map (fun _ => path.dotdot) up) eqn:E.
  - now exists [CHAR_DOT].
  - rewrite joinSlash_snoc by discriminate.
    eexists (_ ++ [CHAR_FORWARD_SLASH; CHAR_DOT]).
    rewrite <- app_assoc. reflexivity.
Qed.

Lemma ends_with_ci_ups (p : jsstring) (a : N) (up : list jsstring) :
  a <> CHAR_DOT -> ends_with_ci (p ++ [a]) (joinSlash (upsOf up)) = false.
Proof.
  intros Ha. destruct (joinSlash_ups_last up) as [E|[s E]]; rewrite E.
  - apply ends_with_ci_nil.
  - rewrite ends_with_ci_snoc.
    change (to_lower CHAR_DOT) with CHAR_DOT.
    apply not_eq_sym, N.eqb_neq in Ha. now rewrite Ha.
Qed.

(** ** [toExtensionlessPath] *)

Lemma toExtensionlessPath_ups (up : list jsstring) :
  toExtensionlessPath (joinSlash (upsOf up)) = joinSlash (upsOf up).
Proof.
  unfold toExtensionlessPath, indexMatch, strip_suffix_ci.
  change (js "index.html") with (js "index.htm" ++ [ch "l"]).
  change (js "index") with (js "inde" ++ [ch "x"]).
  change (js ".html") with (js ".htm" ++ [ch "l"]).
  now rewrite !ends_with_ci_ups by discriminate.
Qed.

Lemma ends_with_refl_index : forall s, ends_with_ci (js "index.html") (s ++ js "index.html") = true.
Proof.
  intros s. unfold ends_with_ci. rewrite rev_app_distr.
  rewrite <- (app_nil_r (rev (js "index.html"))) at 1.
  rewrite prefix_ci_app by reflexivity. reflexivity.
Qed.

(** Dropping the final [index.html] segment of a relative path. *)
Lemma toExtensionlessPath_index (pre : list jsstring) :
  toExtensionlessPath (joinSlash (pre ++ [js "index.html"]))
  = strip_suffix_ci (js ".html") (joinSlash pre).
Proof.
  unfold toExtensionlessPath, indexMatch.
  destruct pre as [|x pre].
  - reflexivity.
  - rewrite joinSlash_snoc by discriminate.
    set (w := joinSlash (x :: pre)).
    replace (w ++ CHAR_FORWARD_SLASH :: js "index.html")
      with ((w ++ [CHAR_FORWARD_SLASH]) ++ js "index.html")
      by now rewrite <- app_assoc.
    rewrite ends_with_refl_index.
    change 10%nat with (length (js "index.html")).
    rewrite drop_last_app, rev_app_distr. simpl rev. simpl app.
    rewrite <- app_assoc.
    change (S (length (js "index.html")))
      with (length ([CHAR_FORWARD_SLASH] ++ js "index.html")).
    change (path.is_slash CHAR_FORWARD_SLASH) with true. cbv iota.
    now rewrite drop_last_app.
Qed.

(** ** Relative references between output locations *)

Lemma isSeg_dotdot : isSeg path.dotdot = true.
Proof. reflexivity. Qed.

Lemma segs_upsOf (up : list jsstring) : segs (upsOf up) = true.
Proof. induction up; simpl; trivial. Qed.

Lemma joinSlash_empty_iff (l : list jsstring) :
  segs l = true -> joinSlash l = [] -> l = [].
Proof.
  intros H E. destruct l as [|x l]; trivial. exfalso.
  now apply (joinSlash_nonempty (x :: l)).
Qed.

Lemma snoc_eq_app_cases (O C down : list jsstring) (x : jsstring) :
  O ++ [x] = C ++ down ->
  (down = [] /\ C = O ++ [x])
  \/ exists down', down = down' ++ [x] /\ O = C ++ down'.
Proof.
  intros E. destruct down as [|y down] using rev_ind.
  - left. now rewrite app_nil_r in E.
  - right. clear IHdown. rewrite app_assoc in E.
    apply app_inj_tail in E as [E1 E2]. subst. now exists down.
Qed.

Section Links.

Variable R : list jsstring.
Hypothesis HR : names R = true.

Let cwd := absPath R.

Lemma toRelativeHref_abs (S T : list jsstring) :
  names S = true -> names T = true ->
  toRelativeHref cwd (absPath S) (absPath T)
  = if is_empty (joinSlash (relSegs S T)) then indexHtml
    else joinSlash (relSegs S T).
Proof.
  intros HS HT. unfold toRelativeHref, cwd.
  now rewrite relative_absPath, joinSlash_split.
Qed.

(** The extensionless reference from the directory [S] to the page
    [O/index.html]: the way up, the way down without the final
    [index.html], and one trailing [.html] removed. *)
Lemma pageHref_formula (S O : list jsstring) :
  names S = true -> names O = true ->
  toExtensionlessPath (toRelativeHref cwd (absPath S) (absPath (O ++ [indexHtml])))
  = strip_suffix_ci (js ".html")
      (joinSlash (upsOf (fst (path.dropCommon S (O ++ [indexHtml])))
                  ++ removelast (snd (path.dropCommon S (O ++ [indexHtml]))))).
Proof.
  intros HS HO.
  assert (HT : names (O ++ [indexHtml]) = true)
    by (rewrite names_app, HO; reflexivity).
  rewrite toRelativeHref_abs by assumption. unfold relSegs.
  destruct (dropCommon_split S (O ++ [indexHtml])) as [C [ES ET]].
  set (up := fst (path.dropCommon S (O ++ [indexHtml]))) in *.
  set (down := snd (path.dropCommon S (O ++ [indexHtml]))) in *.
  destruct (snoc_eq_app_cases _ _ _ _ ET) as [[Ed EC]|[down' [Ed EO]]];
    rewrite Ed.
  - simpl removelast. rewrite !app_nil_r.
    destruct (is_empty (joinSlash (upsOf up))) eqn:E.
    + apply is_empty_true in E. rewrite E. reflexivity.
    + rewrite toExtensionlessPath_ups. unfold strip_suffix_ci.
      change (js ".html") with (js ".htm" ++ [ch "l"]).
      now rewrite ends_with_ci_ups by discriminate.
  - rewrite removelast_last, app_assoc.
    assert (E : is_empty (joinSlash ((upsOf up ++ down') ++ [indexHtml])) = false).
    { destruct (joinSlash ((upsOf up ++ down') ++ [indexHtml])) eqn:E; trivial.
      apply joinSlash_empty_iff in E.
      - now destruct (upsOf up ++ down').
      - rewrite !segs_app, segs_upsOf. simpl.
        rewrite andb_true_r. apply names_segs.
        rewrite EO, names_app in HO. now apply andb_true_iff in HO. }
    rewrite E. apply toExtensionlessPath_index.
Qed.

End Links.

(* ================================================================= *)
(** * The specified properties *)

(** ** Output locations *)

Lemma absPath_longer (A : list jsstring) (x y : jsstring) :
  names A = true -> isName x = true -> isName y = true ->
  absPath (A ++ [x; y]) <> absPath (A ++ [y]).
Proof.
  intros HA Hx Hy E. apply absPath_inj in E.
  - apply (f_equal (@length jsstring)) in E. rewrite !length_app in E.
    simpl in E. lia.
  - rewrite names_app, HA. simpl. now rewrite Hx, Hy.
  - rewrite names_app, HA. simpl. now rewrite Hy.
Qed.

(** C1 (defect in the code).  The comments of [computeOutputHtmlPath]
    promise [foo/index.md -> _site/foo/index.html]; the function
    itself sends a document [index.md] in a directory [d] to
    [_site/d/index/index.html] and a nested [README.md] to
    [_site/d/README/index.html], one level deeper than the directory's
    own [index.html]. *)
Theorem C1_index_md_lands_one_level_deeper
    (R d : list jsstring) (homeMdBasename : jsstring) :
  names R = true -> names d = true -> d <> [] ->
  let cwd := absPath R in
  let own := absPath ((siteSegs R ++ d) ++ [js "index.html"]) in
  computeOutputHtmlPath cwd (absPath (R ++ d ++ [js "index.md"])) homeMdBasename
    = absPath ((siteSegs R ++ d) ++ [js "index"; js "index.html"])
  /\ computeOutputHtmlPath cwd (absPath (R ++ d ++ [js "README.md"])) homeMdBasename
    = absPath ((siteSegs R ++ d) ++ [js "README"; js "index.html"])
  /\ computeOutputHtmlPath cwd (absPath (R ++ d ++ [js "index.md"])) homeMdBasename
     <> own
  /\ computeOutputHtmlPath cwd (absPath (R ++ d ++ [js "README.md"])) homeMdBasename
     <> own.
Proof.
  intros HR Hd Hne cwd own.
  assert (Hsd : names (siteSegs R ++ d) = true)
    by now rewrite names_app, names_siteSegs, Hd.
  assert (E1 : computeOutputHtmlPath cwd (absPath (R ++ d ++ [js "index.md"]))
                 homeMdBasename
               = absPath ((siteSegs R ++ d) ++ [js "index"; js "index.html"])).
  { unfold cwd. rewrite computeOutputHtmlPath_inside; trivial.
    - now rewrite <- app_assoc.
    - now left. }
  assert (E2 : computeOutputHtmlPath cwd (absPath (R ++ d ++ [js "README.md"]))
                 homeMdBasename
               = absPath ((siteSegs R ++ d) ++ [js "README"; js "index.html"])).
  { unfold cwd. rewrite computeOutputHtmlPath_inside; trivial.
    - now rewrite <- app_assoc.
    - now left. }
  rewrite E1, E2. repeat split; now apply absPath_longer.
Qed.

Lemma C1_index_md_lands_one_level_deeper_witness :
  computeOutputHtmlPath (absPath [js "repo"]) (js "/repo/foo/index.md")
    (js "README.md")
  = js "/repo/_site/foo/index/index.html".
Proof.
  apply (C1_index_md_lands_one_level_deeper [js "repo"] [js "foo"]
           (js "README.md")); try reflexivity. discriminate.
Defined.

(** C2, as stated, fails: a home document configured in a
    subdirectory is mapped like any other document. *)
Lemma C2_home_in_subdirectory_counterexample :
  let cwd := js "/repo" in
  homeOutPathAbsolute cwd (js "docs/home.md")
    = js "/repo/_site/docs/home/index.html"
  /\ homeOutPathAbsolute cwd (js "docs/home.md")
    <> path.join [OUTPUT_ROOT cwd; js "index.html"].
Proof.
  split; vm_compute; [reflexivity | discriminate].
Qed.

(** C2, amended.  When [config.home_md] names a document [b] placed
    directly in the content root, the home document is written to
    exactly [index.html] at the output root. *)
Theorem C2_home_in_root_is_site_index (R : list jsstring) (home_md b : jsstring) :
  names R = true ->
  isName b = true ->
  path.basename home_md = b ->
  path.join [REPO_ROOT (absPath R); home_md] = absPath (R ++ [b]) ->
  homeOutPathAbsolute (absPath R) home_md
  = path.join [OUTPUT_ROOT (absPath R); js "index.html"].
Proof.
  intros HR Hb Eb Ej. unfold homeOutPathAbsolute. rewrite Eb, Ej.
  rewrite computeOutputHtmlPath_home, OUTPUT_ROOT_abs by assumption.
  symmetry. apply join_abs_name; [now apply names_siteSegs | reflexivity].
Qed.

Lemma C2_home_in_root_witness :
  homeOutPathAbsolute (absPath [js "repo"]) (js "./README.md")
  = path.join [OUTPUT_ROOT (absPath [js "repo"]); js "index.html"].
Proof.
  apply (C2_home_in_root_is_site_index [js "repo"] (js "./README.md") (js "README.md"));
    vm_compute; reflexivity.
Defined.

(** ** Reference rewriting *)

(** C5, as stated, fails: only [http:], [https:] and scheme-less [//]
    count as absolute URLs; a reference under another scheme, such as
    [ftp://host/x], is treated as a local path and rewritten. *)
Lemma C5_ftp_reference_counterexample :
  processAttr (js "/repo") (js "/repo/README.md") (js "README.md")
    (anchor (js "ftp://host/x")) (js "href")
  = Ok (anchor (js "ftp:/host/x")).
Proof. vm_compute. reflexivity. Qed.

(** C5, amended.  A reference that starts, in any letter case, with
    [http://], [https://], [//], [mailto:] or [tel:], or that starts
    with [#], is left exactly as it was. *)
Theorem C5_external_references_untouched
    (cwd sourceMdPath homeMdBasename : jsstring) (el : element)
    (attrName raw : jsstring) :
  getAttribute el attrName = Some raw ->
  isAbsoluteUrl raw || isMailOrTel raw || startsWith (js "#") raw = true ->
  processAttr cwd sourceMdPath homeMdBasename el attrName = Ok el.
Proof.
  intros Hget Hext. unfold processAttr. rewrite Hget.
  destruct (is_empty raw); trivial.
  destruct (isAbsoluteUrl raw); trivial.
  destruct (isMailOrTel raw); trivial.
  change (startsWith (js "#") raw = true) in Hext. now rewrite Hext.
Qed.

Lemma C5_external_references_untouched_witness :
  processAttr (js "/repo") (js "/repo/a/b.md") (js "README.md")
    (anchor (js "HTTPS://example.org/x.md#top")) (js "href")
  = Ok (anchor (js "HTTPS://example.org/x.md#top")).
Proof.
  apply (C5_external_references_untouched (js "/repo") (js "/repo/a/b.md")
           (js "README.md") (anchor (js "HTTPS://example.org/x.md#top"))
           (js "href") (js "HTTPS://example.org/x.md#top"));
    vm_compute; reflexivity.
Defined.

(** ** Frontmatter *)

(** C9, as stated, fails: the [catch] in [parseYamlFrontmatter]
    swallows the loader's exception, so nothing aborts. *)
Lemma C9_malformed_frontmatter_counterexample :
  ~ (forall (yaml_load : jsstring -> result yaml) (md block rest : jsstring),
        matchFrontmatter md = Some (block, rest) ->
        yaml_load block = Throw YAMLException ->
        exists e, parseYamlFrontmatter yaml_load md = Throw e).
Proof.
  intros H.
  destruct (H (fun _ => Throw YAMLException) brokenFrontmatterDoc
              (js "title: [") (js "# Hi")) as [e E];
    try (vm_compute; reflexivity).
  vm_compute in E. discriminate.
Qed.

(** What [firstH1 || config.site_title] is: the first heading of the
    body if there is one and it is not blank, else the site title. *)
Lemma titleFallback_cases (markdownContent site_title : jsstring) :
  (forall h, parseFirstH1 markdownContent = Ok h -> is_empty h = false ->
             titleFallback markdownContent site_title = h)
  /\ (parseFirstH1 markdownContent = Ok []
      \/ (exists e, parseFirstH1 markdownContent = Throw e) ->
      titleFallback markdownContent site_title = site_title).
Proof.
  unfold parseFirstH1, titleFallback.
  destruct (matchFirstH1 markdownContent) as [cap|]; split.
  - intros h E Hh. inversion E; subst. now rewrite Hh.
  - intros [E|[e E]]; [|discriminate]. inversion E as [E']. now rewrite E'.
  - intros h E. discriminate.
  - reflexivity.
Qed.

(** C9, amended.  [parseYamlFrontmatter] never raises; when the loader
    rejects the block, the document is processed as if its frontmatter
    were empty: the body is the text after the block, and title and
    description both silently fall back to the first heading of that
    body or, without one, to the site title.  The renderer, the
    sanitizer and the link rewriting succeeding on that body,
    [renderPage] does not fail either: it fills the template with that
    title and description and hands the page to the file system at the
    output location of the document.  (Whether [mkdir] and [writeFile]
    succeed there is a matter of the file system, as for any other
    page, and is not part of the statement.) *)
Theorem C9_malformed_frontmatter_is_ignored
    (yaml_load : jsstring -> result yaml) (md block rest : jsstring) (e : exn) :
  matchFrontmatter md = Some (block, rest) ->
  yaml_load block = Throw e ->
  let fm := {| attributes := YMap []; body := rest |} in
  parseYamlFrontmatter yaml_load md = Ok fm
  /\ (forall site_title,
        pageTitle fm site_title = titleFallback rest site_title
        /\ pageDescription fm site_title = titleFallback rest site_title
        /\ (forall h, parseFirstH1 rest = Ok h -> is_empty h = false ->
                      titleFallback rest site_title = h)
        /\ (parseFirstH1 rest = Ok [] \/ (exists e', parseFirstH1 rest = Throw e') ->
            titleFallback rest site_title = site_title))
  /\ (forall md', exists fm', parseYamlFrontmatter yaml_load md' = Ok fm')
  /\ (forall cwd fs marked sanitize JSDOM mdPath ctx html1 html2 html3,
        fs mdPath = Some (File md) ->
        marked rest = Ok html1 ->
        sanitize html1 = Ok html2 ->
        rewriteLinksHtml cwd JSDOM html2 mdPath (path.basename (home_md ctx))
          = Ok html3 ->
        let fallback := escapeHtml (titleFallback rest (site_title ctx)) in
        exists navHtml stylesheetHref,
          renderPage cwd fs yaml_load marked sanitize JSDOM mdPath ctx
          = Ok (computeOutputHtmlPath cwd mdPath (path.basename (home_md ctx)),
                replace (js "{{CONTENT}}") html3
                  (replace (js "{{STYLESHEET_HREF}}") stylesheetHref
                     (replace (js "{{NAV}}") navHtml
                        (replace (js "{{DESCRIPTION}}") fallback
                           (replace (js "{{TITLE}}") fallback
                              (templateContent ctx))))))).
Proof.
  intros Hm Hl fm.
  assert (P : parseYamlFrontmatter yaml_load md = Ok fm).
  { unfold parseYamlFrontmatter. rewrite Hm. simpl. now rewrite Hl. }
  split; [exact P|]. split; [|split].
  - intros site_title.
    destruct (titleFallback_cases rest site_title) as [T1 T2].
    repeat split; assumption.
  - intros md'. unfold parseYamlFrontmatter.
    destruct (matchFrontmatter md') as [[b r]|]; [|eauto].
    destruct (yaml_load b) as [v|e']; simpl; eauto.
  - intros cwd fs marked sanitize JSDOM mdPath ctx html1 html2 html3
      Hfs H1 H2 H3 fallback.
    unfold renderPage, fs_readFile. rewrite Hfs. simpl bind. rewrite P.
    simpl bind. unfold fm at 1. simpl body. rewrite H1. simpl bind.
    rewrite H2. simpl bind. rewrite H3. simpl bind.
    eexists _, _. reflexivity.
Qed.

Lemma C9_malformed_frontmatter_is_ignored_witness :
  parseYamlFrontmatter (fun _ => Throw YAMLException) brokenFrontmatterDoc
  = Ok {| attributes := YMap []; body := js "# Hi" |}
  /\ pageTitle {| attributes := YMap []; body := js "# Hi" |} (js "Notes")
     = js "Hi"
  /\ pageDescription {| attributes := YMap []; body := js "# Hi" |} (js "Notes")
     = js "Hi".
Proof.
  destruct (C9_malformed_frontmatter_is_ignored (fun _ => Throw YAMLException)
              brokenFrontmatterDoc (js "title: [") (js "# Hi") YAMLException)
    as [P [T _]]; try (vm_compute; reflexivity).
  split; [exact P|]. destruct (T (js "Notes")) as [T1 [T2 [T3 _]]].
  split.
  - rewrite T1. apply T3; vm_compute; reflexivity.
  - rewrite T2. apply T3; vm_compute; reflexivity.
Defined.

(** ** Navigation links *)

Lemma relSegs_self_index (O : list jsstring) :
  relSegs O (O ++ [indexHtml]) = [indexHtml].
Proof.
  unfold relSegs. rewrite <- (app_nil_r O) at 1 3.
  now rewrite dropCommon_app.
Qed.

(** C10.  On the very page a navigation entry points to, the entry's
    link is emitted with an empty [href]: the relative path
    [index.html] is normalised to the empty string and no [.] is
    substituted.  The site-title link, when the home document is that
    same page, gets [href="."]. *)
Theorem C10_navigation_self_link
    (R : list jsstring) (mdPath homeMdBasename title : jsstring) :
  names R = true ->
  let cwd := absPath R in
  let outPath := computeOutputHtmlPath cwd mdPath homeMdBasename in
  let currentOutDir := path.dirname outPath in
  toRelativeHref cwd currentOutDir outPath = js "index.html"
  /\ navLink cwd currentOutDir (Internal mdPath title outPath)
     = js "<a href=" ++ dq ++ dq
       ++ js " style=" ++ dq ++ js "margin-right:12px;" ++ dq ++ js ">"
       ++ escapeHtml title ++ js "</a>"
  /\ homeHrefOf cwd currentOutDir outPath = js ".".
Proof.
  intros HR cwd outPath currentOutDir.
  destruct (computeOutputHtmlPath_shape R HR mdPath homeMdBasename)
    as [O [HO E]].
  fold cwd in E. fold outPath in E.
  assert (Ed : currentOutDir = absPath O).
  { unfold currentOutDir. rewrite E. now apply dirname_absPath. }
  assert (Er : toRelativeHref cwd currentOutDir outPath = js "index.html").
  { rewrite Ed, E. unfold cwd. rewrite toRelativeHref_abs; trivial.
    - now rewrite relSegs_self_index.
    - rewrite names_app, HO. reflexivity. }
  repeat split.
  - exact Er.
  - unfold navLink. now rewrite Er.
  - unfold homeHrefOf. now rewrite Er.
Qed.

Lemma C10_navigation_self_link_witness :
  navLink (absPath [js "repo"])
    (path.dirname (computeOutputHtmlPath (absPath [js "repo"])
                     (js "/repo/docs/guide.md") (js "README.md")))
    (Internal (js "/repo/docs/guide.md") (js "Guide")
       (computeOutputHtmlPath (absPath [js "repo"])
          (js "/repo/docs/guide.md") (js "README.md")))
  = js "<a href=" ++ dq ++ dq
    ++ js " style=" ++ dq ++ js "margin-right:12px;" ++ dq ++ js ">"
    ++ escapeHtml (js "Guide") ++ js "</a>".
Proof.
  apply (C10_navigation_self_link [js "repo"] (js "/repo/docs/guide.md")
           (js "README.md") (js "Guide")).
  reflexivity.
Defined.

(** ** Path, query and fragment of a reference *)

Lemma cut_at_app (c : N) (a b : jsstring) :
  noChar c a = true -> cut_at c (a ++ c :: b) = Some (a, c :: b).
Proof.
  induction a as [|x a IH]; simpl; intros H.
  - now rewrite N.eqb_refl.
  - apply andb_true_iff in H as [Hx Ha]. apply negb_true_iff in Hx.
    now rewrite Hx, IH.
Qed.

Lemma cut_at_none (c : N) (a : jsstring) :
  noChar c a = true -> cut_at c a = None.
Proof.
  induction a as [|x a IH]; simpl; intros H; trivial.
  apply andb_true_iff in H as [Hx Ha]. apply negb_true_iff in Hx.
  now rewrite Hx, IH.
Qed.

Lemma splitAt_app (c : N) (a b : jsstring) :
  noChar c a = true -> splitAt c (a ++ c :: b) = (a, c :: b).
Proof. intros H. unfold splitAt. now rewrite cut_at_app. Qed.

Lemma splitAt_none (c : N) (a : jsstring) :
  noChar c a = true -> splitAt c a = (a, []).
Proof. intros H. unfold splitAt. now rewrite cut_at_none. Qed.

Lemma splitAt_start (c : N) (s : jsstring) : splitAt c (c :: s) = ([], c :: s).
Proof. unfold splitAt. simpl. now rewrite N.eqb_refl. Qed.

Lemma noChar_app (c : N) (a b : jsstring) :
  noChar c (a ++ b) = noChar c a && noChar c b.
Proof. apply forallb_app. Qed.

Lemma prefix_ci_app_l (p a b : jsstring) :
  prefix_ci p a = true -> prefix_ci p (a ++ b) = true.
Proof.
  revert a. induction p as [|x p IH]; intros [|c a] H; simpl in *;
    trivial; try discriminate.
  apply andb_true_iff in H as [H1 H2]. now rewrite H1, IH.
Qed.

Lemma isMarkdown_nonempty (url : jsstring) : isMarkdown url = true -> url <> [].
Proof. intros H E. subst url. discriminate. Qed.

Lemma lookupAttr_updateAttr (name v : jsstring) (l : list (jsstring * jsstring)) :
  lookupAttr name (updateAttr name v l) = Some v.
Proof.
  induction l as [|[k w] l IH]; simpl.
  - now rewrite str_eqb_refl.
  - destruct (str_eqb k name) eqn:E; simpl; now rewrite E.
Qed.

(** What [processAttr] does with a local reference to a Markdown
    document, once the reference is cut into path, query and hash. *)
Lemma processAttr_markdown
    (cwd sourceMdPath homeMdBasename : jsstring) (el : element)
    (attrName raw rest url query hash decoded : jsstring) :
  getAttribute el attrName = Some raw ->
  isAbsoluteUrl raw = false -> isMailOrTel raw = false ->
  splitAt (ch "#") raw = (rest, hash) ->
  splitAt (ch "?") rest = (url, query) ->
  isMarkdown url = true ->
  decodeURI url = Ok decoded ->
  processAttr cwd sourceMdPath homeMdBasename el attrName
  = Ok (setAttribute el attrName
          (mdHref cwd sourceMdPath homeMdBasename decoded ++ query ++ hash)).
Proof.
  intros Hget Habs Hmail Hh Hq Hmd Hdec.
  unfold processAttr. rewrite Hget, Habs, Hmail.
  assert (Hne : raw <> []).
  { intros E. subst raw. unfold splitAt in Hh. simpl in Hh.
    inversion Hh; subst. unfold splitAt in Hq. simpl in Hq.
    inversion Hq; subst. discriminate. }
  assert (Hs : startsWith (js "#") raw = false).
  { destruct raw as [|c raw]; [congruence|].
    change (startsWith (js "#") (c :: raw)) with ((c =? ch "#") && true).
    rewrite andb_true_r. destruct (c =? ch "#") eqn:E; trivial.
    apply N.eqb_eq in E. subst c. rewrite splitAt_start in Hh.
    inversion Hh; subst. unfold splitAt in Hq. simpl in Hq.
    inversion Hq; subst. discriminate. }
  destruct raw as [|c raw]; [congruence|]. simpl is_empty. cbv iota.
  rewrite Hs, Hh, Hq, Hdec. simpl bind. rewrite Hmd. reflexivity.
Qed.

(** ** Directory entries of the navigation *)

Lemma resolveMdNavItem_ok (cwd : jsstring) (fs : filesystem)
    (home mdPathAbs : jsstring) (providedTitle : option jsstring) :
  exists item, resolveMdNavItem cwd fs home mdPathAbs providedTitle = Ok item.
Proof.
  unfold resolveMdNavItem, titleOr.
  destruct providedTitle as [t|]; [destruct (is_empty t); [|simpl; eauto]|];
    (destruct (fs_readFile fs mdPathAbs) as [raw|e]; simpl; [|eauto];
     destruct (parseFirstH1 raw); simpl; eauto).
Qed.

(** C8.  A navigation key that is neither an external URL nor a
    Markdown path is looked up as a directory: [README.md] is tried
    first, then [index.md], and the first one that exists is resolved
    by [resolveMdNavItem], exactly as the entries whose key is a
    Markdown path are; when neither exists, or the key is not an
    existing directory, the entry becomes an external entry whose href
    is the key itself. *)
Theorem C8_directory_navigation_entries
    (cwd : jsstring) (fs : filesystem) (homeMdBasename key : jsstring)
    (providedTitle : option jsstring) :
  isAbsoluteUrl key || isMailOrTel key = false ->
  isMarkdown key = false ->
  let dirAbs := path.join [REPO_ROOT cwd; key] in
  let readme := path.join [dirAbs; js "README.md"] in
  let index := path.join [dirAbs; js "index.md"] in
  let external := External key (titleOr providedTitle (fun t => t) key) in
  navItemFor cwd fs homeMdBasename (key, providedTitle)
  = match fs dirAbs with
    | Some Directory =>
        match fs readme, fs index with
        | Some _, _ => resolveMdNavItem cwd fs homeMdBasename readme providedTitle
        | None, Some _ => resolveMdNavItem cwd fs homeMdBasename index providedTitle
        | None, None => Ok external
        end
    | _ => Ok external
    end
  /\ (forall mdKey title,
        isAbsoluteUrl mdKey || isMailOrTel mdKey = false ->
        isMarkdown mdKey = true ->
        navItemFor cwd fs homeMdBasename (mdKey, title)
        = resolveMdNavItem cwd fs homeMdBasename
            (path.join [REPO_ROOT cwd; mdKey]) title).
Proof.
  intros Hext Hmd dirAbs readme index external. split.
  2: { intros mdKey title H1 H2. unfold navItemFor. now rewrite H1, H2. }
  unfold navItemFor. rewrite Hext, Hmd.
  unfold resolveDirKey. fold dirAbs. fold readme. fold index.
  unfold fs_stat_isDirectory, fs_access.
  destruct (fs dirAbs) as [[content|]|]; try reflexivity.
  simpl.
  destruct (resolveMdNavItem_ok cwd fs homeMdBasename readme providedTitle)
    as [i1 E1].
  destruct (resolveMdNavItem_ok cwd fs homeMdBasename index providedTitle)
    as [i2 E2].
  destruct (fs readme) as [n1|]; simpl.
  - rewrite E1. reflexivity.
  - destruct (fs index) as [n2|]; simpl.
    + rewrite E2. reflexivity.
    + reflexivity.
Qed.

Lemma C8_directory_navigation_entries_witness :
  navItemFor (js "/repo") sampleTree (js "README.md") (js "docs", Some (js "Docs"))
  = resolveMdNavItem (js "/repo") sampleTree (js "README.md")
      (js "/repo/docs/README.md") (Some (js "Docs")).
Proof.
  apply (C8_directory_navigation_entries (js "/repo") sampleTree
           (js "README.md") (js "docs") (Some (js "Docs")));
    vm_compute; reflexivity.
Defined.

Example navigation_examples :
  buildNavItems (js "/repo") sampleTree
    [NavMapping (js "docs") (Some (js "Docs")); NavKey (js "notes");
     NavKey (js "empty"); NavKey (js "missing"); NavKey (js "logo.svg")]
    (js "README.md")
  = Ok [Internal (js "/repo/docs/README.md") (js "Docs")
          (js "/repo/_site/docs/README/index.html");
        Internal (js "/repo/notes/index.md") (js "Notes")
          (js "/repo/_site/notes/index/index.html");
        External (js "empty") (js "empty");
        External (js "missing") (js "missing");
        External (js "logo.svg") (js "logo.svg")].
Proof. vm_compute. reflexivity. Qed.

(** ** Extensionless links *)

Lemma strip_html_twice (w : jsstring) :
  ends_with_ci (js ".html.html") w = false ->
  ends_with_ci (js ".html") (strip_suffix_ci (js ".html") w) = false.
Proof.
  intros H. unfold strip_suffix_ci.
  destruct (ends_with_ci (js ".html") w) eqn:E; trivial.
  now rewrite (ends_with_ci_drop_last (js ".html") (js ".html") w E).
Qed.

Lemma names_snoc (l : list jsstring) (x : jsstring) :
  names (l ++ [x]) = true -> names l = true /\ isName x = true.
Proof.
  rewrite names_app. simpl. rewrite andb_true_r. apply andb_true_iff.
Qed.

Section Extensionless.

Variable R : list jsstring.
Hypothesis HR : names R = true.

Let cwd := absPath R.

Lemma sourceOutDir_shape (sourceMdPath home : jsstring) :
  exists S, names S = true
    /\ path.dirname (computeOutputHtmlPath cwd sourceMdPath home) = absPath S.
Proof.
  destruct (computeOutputHtmlPath_shape R HR sourceMdPath home) as [S [HS E]].
  exists S. split; trivial. fold cwd in E. rewrite E.
  now apply dirname_absPath.
Qed.

(** The way up and down between two output locations never ends in
    [.html.html] unless the directory of the target page does. *)
Lemma pageHref_segments_no_html (S O : list jsstring) :
  names S = true -> names O = true ->
  ends_with_ci (js ".html.html") (path.basename (absPath O)) = false ->
  ends_with_ci (js ".html.html")
    (joinSlash (upsOf (fst (path.dropCommon S (O ++ [indexHtml])))
                ++ removelast (snd (path.dropCommon S (O ++ [indexHtml])))))
  = false.
Proof.
  intros HS HO Hn.
  destruct (dropCommon_split S (O ++ [indexHtml])) as [C [ES ET]].
  set (up := fst (path.dropCommon S (O ++ [indexHtml]))) in *.
  set (down := snd (path.dropCommon S (O ++ [indexHtml]))) in *.
  assert (Hups : ends_with_ci (js ".html.html") (joinSlash (upsOf up)) = false).
  { change (js ".html.html") with (js ".html.htm" ++ [ch "l"]).
    now apply ends_with_ci_ups. }
  destruct (snoc_eq_app_cases _ _ _ _ ET) as [[Ed EC]|[down' [Ed EO]]];
    rewrite Ed.
  - simpl removelast. now rewrite app_nil_r.
  - rewrite removelast_last.
    destruct down' as [|n d'' _] using rev_ind; [now rewrite app_nil_r|].
    rewrite app_assoc, ends_with_ci_joinSlash by reflexivity.
    rewrite EO, app_assoc in Hn, HO.
    apply names_snoc in HO as [_ Hname].
    now rewrite basename_absPath in Hn by now apply isName_isSeg.
Qed.

Lemma pageHref_no_html (S O : list jsstring) :
  names S = true -> names O = true ->
  ends_with_ci (js ".html.html") (path.basename (absPath O)) = false ->
  ends_with_ci (js ".html")
    (toExtensionlessPath
       (toRelativeHref cwd (absPath S) (absPath (O ++ [indexHtml]))))
  = false.
Proof.
  intros HS HO Hn. unfold cwd. rewrite pageHref_formula by assumption.
  apply strip_html_twice. now apply pageHref_segments_no_html.
Qed.

Lemma mdHref_no_html (sourceMdPath home decoded : jsstring) :
  ends_with_ci (js ".html.html")
    (path.basename
       (path.dirname
          (computeOutputHtmlPath cwd
             (path.resolve cwd [path.dirname sourceMdPath; decoded]) home)))
  = false ->
  ends_with_ci (js ".html") (mdHref cwd sourceMdPath home decoded) = false.
Proof.
  intros Hn. unfold mdHref.
  destruct (sourceOutDir_shape sourceMdPath home) as [S [HS ES]].
  destruct (computeOutputHtmlPath_shape R HR
              (path.resolve cwd [path.dirname sourceMdPath; decoded]) home)
    as [O [HO EO]].
  fold cwd in EO. rewrite EO in *. rewrite ES.
  rewrite dirname_absPath in Hn by (trivial; reflexivity).
  destruct (is_empty _); [reflexivity|].
  now apply pageHref_no_html.
Qed.

End Extensionless.

Lemma processAttr_asset
    (cwd sourceMdPath homeMdBasename : jsstring) (el : element)
    (attrName raw rest url query hash decoded : jsstring) :
  getAttribute el attrName = Some raw ->
  raw <> [] ->
  isAbsoluteUrl raw = false -> isMailOrTel raw = false ->
  startsWith (js "#") raw = false ->
  splitAt (ch "#") raw = (rest, hash) ->
  splitAt (ch "?") rest = (url, query) ->
  isMarkdown url = false ->
  decodeURI url = Ok decoded ->
  processAttr cwd sourceMdPath homeMdBasename el attrName
  = Ok (setAttribute el attrName
          (assetHref cwd sourceMdPath homeMdBasename decoded ++ query ++ hash)).
Proof.
  intros Hget Hne Habs Hmail Hs Hh Hq Hmd Hdec.
  unfold processAttr. rewrite Hget, Habs, Hmail.
  destruct raw as [|c raw]; [congruence|]. simpl is_empty. cbv iota.
  rewrite Hs, Hh, Hq, Hdec. simpl bind. rewrite Hmd. reflexivity.
Qed.

Lemma toRelativeHref_nonempty (cwd a b : jsstring) : toRelativeHref cwd a b <> [].
Proof.
  unfold toRelativeHref. destruct (joinSlash _) eqn:E; simpl; discriminate.
Qed.

Lemma isPrefix_app (C up : list jsstring) : isPrefix C (C ++ up) = true.
Proof. induction C as [|x C IH]; simpl; trivial. now rewrite str_eqb_refl. Qed.

Section Assets.

Variable R : list jsstring.
Hypothesis HR : names R = true.

Let cwd := absPath R.

(** An asset inside the content root keeps its file name. *)
Lemma assetHref_basename (sourceMdPath home decoded : jsstring)
    (S t : list jsstring) :
  path.dirname (computeOutputHtmlPath cwd sourceMdPath home) = absPath S ->
  names S = true ->
  path.resolve cwd [path.dirname sourceMdPath; decoded] = absPath (R ++ t) ->
  names t = true -> t <> [] ->
  isPrefix (siteSegs R ++ t) S = false ->
  path.basename (assetHref cwd sourceMdPath home decoded)
  = path.basename (absPath (R ++ t)).
Proof.
  intros ES HS ET Ht Hne Hpre. unfold assetHref. rewrite ES, ET.
  unfold cwd. rewrite relative_root_inside, OUTPUT_ROOT_abs by assumption.
  rewrite join_abs2
    by (first [apply names_siteSegs; assumption
              | apply trailingSlash_joinSlash; now apply names_segs]).
  rewrite split_joinSlash by (trivial; now apply names_noSlash).
  rewrite normalizeSegs_names, rev_app_distr, !rev_involutive by assumption.
  assert (HT : names (siteSegs R ++ t) = true)
    by (rewrite names_app, names_siteSegs, Ht; trivial).
  rewrite toRelativeHref_abs by assumption. unfold relSegs.
  destruct (dropCommon_split S (siteSegs R ++ t)) as [C [E1 E2]].
  set (up := fst (path.dropCommon S (siteSegs R ++ t))) in *.
  set (down := snd (path.dropCommon S (siteSegs R ++ t))) in *.
  assert (Hd : names down = true).
  { rewrite E2, names_app in HT. now apply andb_true_iff in HT. }
  destruct down as [|l down' _] using rev_ind.
  - rewrite app_nil_r in E2. rewrite E2, E1 in Hpre.
    now rewrite isPrefix_app in Hpre.
  - destruct t as [|l' t' _] using rev_ind; [congruence|].
    rewrite !app_assoc in E2. apply app_inj_tail in E2 as [_ El]. subst l'.
    apply names_snoc in Hd as [Hd' Hl]. apply isName_isSeg in Hl.
    rewrite !app_assoc, basename_absPath by assumption.
    destruct (is_empty _) eqn:E.
    + apply is_empty_true, joinSlash_empty_iff in E.
      * now destruct (upsOf up ++ down').
      * rewrite !segs_app, segs_upsOf. simpl. rewrite Hl, andb_true_r.
        now apply names_segs.
    + now apply basename_joinSlash.
Qed.

End Assets.

(** C6, as stated, fails: only one trailing [.html] is removed, so a
    link to a page whose own name ends in [.html.html] still ends in
    [.html]. *)
Lemma C6_double_html_counterexample :
  processAttr (js "/repo") (js "/repo/README.md") (js "README.md")
    (anchor (js "x.html.html.md")) (js "href")
  = Ok (anchor (js "x.html"))
  /\ isMarkdown (js "x.html.html.md") = true
  /\ ends_with_ci (js ".html") (js "x.html") = true.
Proof. repeat split; vm_compute; reflexivity. Qed.

(** C6, amended.  A local reference is rewritten to a non-empty
    relative path followed by its query and fragment.  For a Markdown
    target the path is [.] whenever stripping leaves nothing, and it
    does not end in [.html] (hence not in [index.html]), in any letter
    case, provided the directory the target page is written to does
    not itself have a name ending in [.html.html].  For any other
    target inside the content root, the path ends in the file name of
    the asset, extension included, unless the asset's location is the
    page's own output directory or one of its ancestors. *)
Theorem C6_extensionless_normalization
    (R : list jsstring) (sourceMdPath homeMdBasename : jsstring) (el : element)
    (attrName raw rest url query hash decoded : jsstring) :
  names R = true ->
  let cwd := absPath R in
  getAttribute el attrName = Some raw ->
  raw <> [] ->
  isAbsoluteUrl raw = false -> isMailOrTel raw = false ->
  startsWith (js "#") raw = false ->
  splitAt (ch "#") raw = (rest, hash) ->
  splitAt (ch "?") rest = (url, query) ->
  decodeURI url = Ok decoded ->
  let sourceOutDir :=
    path.dirname (computeOutputHtmlPath cwd sourceMdPath homeMdBasename) in
  let resolvedTarget := path.resolve cwd [path.dirname sourceMdPath; decoded] in
  exists p,
    processAttr cwd sourceMdPath homeMdBasename el attrName
      = Ok (setAttribute el attrName (p ++ query ++ hash))
    /\ p <> []
    /\ (isMarkdown url = true ->
        let targetOutputAbs :=
          computeOutputHtmlPath cwd resolvedTarget homeMdBasename in
        (toExtensionlessPath (toRelativeHref cwd sourceOutDir targetOutputAbs) = []
         -> p = js ".")
        /\ (ends_with_ci (js ".html.html")
              (path.basename (path.dirname targetOutputAbs)) = false
            -> ends_with_ci (js ".html") p = false))
    /\ (isMarkdown url = false ->
        forall S t : list jsstring,
          sourceOutDir = absPath S -> names S = true ->
          resolvedTarget = absPath (R ++ t) -> names t = true -> t <> [] ->
          isPrefix (siteSegs R ++ t) S = false ->
          path.basename p = path.basename resolvedTarget).
Proof.
  intros HR cwd Hget Hne Habs Hmail Hs Hh Hq Hdec sourceOutDir resolvedTarget.
  destruct (isMarkdown url) eqn:Hmd.
  - exists (mdHref cwd sourceMdPath homeMdBasename decoded). repeat split.
    + now apply processAttr_markdown with (raw := raw) (rest := rest) (url := url).
    + unfold mdHref. destruct (is_empty _) eqn:E; [discriminate|].
      intros E'. now rewrite E' in E.
    + intros E. unfold mdHref. fold sourceOutDir. fold resolvedTarget.
      now rewrite E.
    + intros Hn. now apply mdHref_no_html.
    + discriminate.
  - exists (assetHref cwd sourceMdPath homeMdBasename decoded). repeat split.
    + now apply processAttr_asset with (raw := raw) (rest := rest) (url := url).
    + apply toRelativeHref_nonempty.
    + discriminate.
    + discriminate.
    + intros _ S t ES HS ET Ht Hnt Hpre. rewrite ET.
      now apply assetHref_basename with (S := S).
Qed.

Lemma C6_extensionless_normalization_witness :
  (exists p,
     processAttr (absPath [js "repo"]) (js "/repo/a/b.md") (js "README.md")
       (anchor (js "../x.html.md?v=2#top")) (js "href")
     = Ok (setAttribute (anchor (js "../x.html.md?v=2#top")) (js "href")
             (p ++ js "?v=2" ++ js "#top"))
     /\ p <> []
     /\ ends_with_ci (js ".html") p = false)
  /\ (exists p,
        processAttr (absPath [js "repo"]) (js "/repo/a/b.md") (js "README.md")
          (anchor (js "img/pic.html")) (js "href")
        = Ok (setAttribute (anchor (js "img/pic.html")) (js "href") (p ++ [] ++ []))
        /\ path.basename p = js "pic.html").
Proof.
  split.
  - destruct (C6_extensionless_normalization [js "repo"] (js "/repo/a/b.md")
                (js "README.md") (anchor (js "../x.html.md?v=2#top")) (js "href")
                (js "../x.html.md?v=2#top") (js "../x.html.md?v=2")
                (js "../x.html.md") (js "?v=2") (js "#top") (js "../x.html.md"))
      as [p [H1 [H2 [H3 _]]]].
    all: try (vm_compute; reflexivity).
    + vm_compute. discriminate.
    + exists p. split; [exact H1|]. split; [exact H2|].
      apply H3; vm_compute; reflexivity.
  - destruct (C6_extensionless_normalization [js "repo"] (js "/repo/a/b.md")
                (js "README.md") (anchor (js "img/pic.html")) (js "href")
                (js "img/pic.html") (js "img/pic.html") (js "img/pic.html")
                [] [] (js "img/pic.html"))
      as [p [H1 [_ [_ H4]]]].
    all: try (vm_compute; reflexivity).
    + vm_compute. discriminate.
    + exists p. split; [exact H1|].
      etransitivity;
        [apply (H4 eq_refl [js "repo"; js "_site"; js "a"; js "b"]
                  [js "a"; js "img"; js "pic.html"]);
         try (vm_compute; reflexivity); discriminate
        | vm_compute; reflexivity].
Defined.

Example C6_asset_keeps_extension :
  processAttr (js "/repo") (js "/repo/a/b.md") (js "README.md")
    (anchor (js "page.html")) (js "href")
  = Ok (anchor (js "../page.html"))
  /\ processAttr (js "/repo") (js "/repo/README.md") (js "README.md")
       {| tagName := js "img"; attrs := [(js "src", js "./images/logo.svg")] |}
       (js "src")
     = Ok {| tagName := js "img"; attrs := [(js "src", js "images/logo.svg")] |}.
Proof. split; vm_compute; reflexivity. Qed.

(** ** Link round trip *)

Lemma decodeURI_plain (s : jsstring) :
  noChar CHAR_PERCENT s = true -> decodeURI s = Ok s.
Proof.
  induction s as [|c s IH]; trivial. intros H. simpl in H.
  apply andb_true_iff in H as [Hc Hs]. simpl. rewrite Hc, (IH Hs). reflexivity.
Qed.

Lemma to_lower_not_slash (c : N) :
  (c =? CHAR_FORWARD_SLASH) = false -> (to_lower c =? CHAR_FORWARD_SLASH) = false.
Proof.
  intros H. unfold to_lower.
  destruct ((65 <=? c) && (c <=? 90)) eqn:E; trivial.
  apply andb_true_iff in E as [E1 E2].
  apply N.leb_le in E1, E2. apply N.eqb_neq. unfold CHAR_FORWARD_SLASH. lia.
Qed.

(** A pattern that contains a slash cannot match a string without. *)
Lemma prefix_ci_slash_pattern (p s : jsstring) :
  noSlash s = true -> existsb path.is_slash p = true -> prefix_ci p s = false.
Proof.
  revert s. induction p as [|a p IH]; intros s Hs Hp; [discriminate|].
  destruct s as [|c s]; trivial. simpl in *.
  apply andb_true_iff in Hs as [Hc Hs]. apply negb_true_iff in Hc.
  apply orb_true_iff in Hp as [Ha|Hp].
  - apply N.eqb_eq in Ha. subst a. now rewrite (to_lower_not_slash _ Hc).
  - rewrite (IH s Hs Hp). apply andb_false_r.
Qed.

Lemma isAbsoluteUrl_noSlash (s : jsstring) :
  noSlash s = true -> isAbsoluteUrl s = false.
Proof.
  intros H. unfold isAbsoluteUrl.
  now rewrite !prefix_ci_slash_pattern.
Qed.

Lemma plain_noChar (s : jsstring) :
  plain s = true ->
  noChar (ch "#") s = true /\ noChar (ch "?") s = true
  /\ noChar CHAR_PERCENT s = true.
Proof.
  induction s as [|c s IH]; [auto|]. unfold plain, noChar in *.
  cbn [forallb]. intros H. apply andb_true_iff in H as [Hc Hs].
  destruct (IH Hs) as [H1 [H2 H3]]. rewrite H1, H2, H3.
  destruct (c =? ch "#"), (c =? ch "?"), (c =? CHAR_PERCENT);
    simpl in *; try discriminate; auto.
Qed.

Lemma ends_with_ci_self (p x : jsstring) :
  prefix_ci (rev p) (rev p) = true -> ends_with_ci p (x ++ p) = true.
Proof.
  intros H. unfold ends_with_ci. rewrite rev_app_distr.
  now apply prefix_ci_app_l.
Qed.

Lemma strip_md (x : jsstring) : strip_suffix_ci (js ".md") (x ++ js ".md") = x.
Proof.
  unfold strip_suffix_ci. rewrite ends_with_ci_self by reflexivity.
  apply drop_last_app.
Qed.

Lemma isName_md (x : jsstring) : isName x = true -> isName (x ++ js ".md") = true.
Proof.
  intros H. pose proof (isName_isSeg _ H) as Hs.
  unfold isName, isSeg. rewrite is_empty_app, noSlash_app.
  rewrite (isSeg_noSlash _ Hs). simpl.
  destruct x as [|c x]; [discriminate|]. simpl.
  assert (E1 : str_eqb ((c :: x) ++ js ".md") path.dot = false).
  { apply str_eqb_neq. destruct x; discriminate. }
  assert (E2 : str_eqb ((c :: x) ++ js ".md") path.dotdot = false).
  { apply str_eqb_neq. destruct x as [|? [|? ?]]; discriminate. }
  simpl in E1, E2. now rewrite E1, E2.
Qed.

Section RoundTrip.

Variable R : list jsstring.
Hypothesis HR : names R = true.

Let cwd := absPath R.

(** Resolving the rewritten reference from the page's own output
    directory leads to the directory of the target page. *)
Lemma pageHref_round_trip (S O : list jsstring) :
  names S = true -> names O = true ->
  snd (path.dropCommon S (O ++ [indexHtml])) <> [] ->
  ends_with_ci (js ".html") (path.basename (absPath O)) = false ->
  let v := toExtensionlessPath
             (toRelativeHref cwd (absPath S) (absPath (O ++ [indexHtml]))) in
  path.resolve cwd [absPath S; if is_empty v then js "." else v] = absPath O.
Proof.
  intros HS HO Hdown Hn v. unfold v, cwd. clear v.
  rewrite pageHref_formula by assumption.
  destruct (dropCommon_split S (O ++ [indexHtml])) as [C [ES ET]].
  set (up := fst (path.dropCommon S (O ++ [indexHtml]))) in *.
  set (down := snd (path.dropCommon S (O ++ [indexHtml]))) in *.
  destruct (snoc_eq_app_cases _ _ _ _ ET) as [[Ed EC]|[down' [Ed EO]]];
    [congruence|].
  rewrite Ed, removelast_last.
  assert (Hup : names up = true)
    by (rewrite ES, names_app in HS; now apply andb_true_iff in HS).
  assert (Hd' : names down' = true)
    by (rewrite EO, names_app in HO; now apply andb_true_iff in HO).
  assert (HC : names C = true)
    by (rewrite EO, names_app in HO; now apply andb_true_iff in HO).
  set (w := joinSlash (upsOf up ++ down')).
  assert (Hw : strip_suffix_ci (js ".html") w = w).
  { unfold strip_suffix_ci.
    assert (E : ends_with_ci (js ".html") w = false); [|now rewrite E].
    unfold w. destruct down' as [|n d'' _] using rev_ind.
    - rewrite app_nil_r. change (js ".html") with (js ".htm" ++ [ch "l"]).
      now apply ends_with_ci_ups.
    - rewrite app_assoc, ends_with_ci_joinSlash by reflexivity.
      rewrite EO, app_assoc in Hn. apply names_snoc in Hd' as [_ Hname].
      now rewrite basename_absPath in Hn by now apply isName_isSeg. }
  rewrite Hw, resolve_abs2 by assumption. f_equal.
  assert (Hsegs : segs (upsOf up ++ down') = true)
    by (rewrite segs_app, segs_upsOf; now apply names_segs).
  destruct (is_empty w) eqn:E.
  - apply is_empty_true, joinSlash_empty_iff in E; trivial.
    apply app_eq_nil in E as [E1 E2]. subst down'.
    destruct up; [|discriminate]. rewrite app_nil_r in *. subst.
    unfold resolveSegs. change (path.isAbsolute (js ".")) with false.
    change (split (js ".")) with [path.dot].
    rewrite normalizeSegs_cons. unfold path.normalizeStep.
    simpl. unfold path.normalizeSegs. simpl. apply rev_involutive.
  - unfold resolveSegs, w.
    rewrite isAbsolute_joinSlash by assumption.
    rewrite split_joinSlash.
    + rewrite ES, rev_app_distr, normalizeSegs_app.
      unfold upsOf. rewrite normalizeSegs_ups by assumption.
      rewrite normalizeSegs_names by assumption.
      now rewrite rev_app_distr, !rev_involutive, EO.
    + intros E'. unfold w in E. now rewrite E' in E.
    + clear -Hsegs. induction (upsOf up ++ down') as [|x l IH]; trivial.
      simpl in *. apply andb_true_iff in Hsegs as [Hx Hl].
      now rewrite (isSeg_noSlash _ Hx), IH.
Qed.

(** The same for any local Markdown reference: followed from the
    page's own output directory, the rewritten reference designates
    the output location of its target, unless that location is the
    page's directory itself or one of its ancestors, or the directory
    of the target page has a name ending in [.html]. *)
Lemma mdHref_round_trip (sourceMdPath home decoded : jsstring)
    (S O : list jsstring) :
  let sourceOutDir :=
    path.dirname (computeOutputHtmlPath cwd sourceMdPath home) in
  let targetOutputAbs :=
    computeOutputHtmlPath cwd
      (path.resolve cwd [path.dirname sourceMdPath; decoded]) home in
  sourceOutDir = absPath S -> names S = true ->
  targetOutputAbs = absPath (O ++ [indexHtml]) -> names O = true ->
  isPrefix (O ++ [indexHtml]) S = false ->
  ends_with_ci (js ".html") (path.basename (absPath O)) = false ->
  designates cwd sourceOutDir (mdHref cwd sourceMdPath home decoded)
  = targetOutputAbs.
Proof.
  intros sourceOutDir targetOutputAbs ES HS EO HO Hpre Hn.
  unfold designates, mdHref. fold sourceOutDir. fold targetOutputAbs.
  rewrite ES, EO. unfold cwd. rewrite pageHref_round_trip; trivial.
  - apply join_abs_name; trivial.
  - intros E. destruct (dropCommon_split S (O ++ [indexHtml])) as [C [E1 E2]].
    rewrite E, app_nil_r in E2. rewrite E2, E1 in Hpre.
    now rewrite isPrefix_app in Hpre.
Qed.

End RoundTrip.

(** C3, as stated, fails for the spelling [../c.md]: references are
    resolved against the directory of the source document, so from
    [a/b.md] the reference [../c.md] names [c.md] in the content root,
    and the rewritten reference leads to [c/index.html], not to
    [a/c/index.html]. *)
Lemma C3_parent_spelling_counterexample :
  let cwd := js "/repo" in
  let sourceOutDir :=
    path.dirname (computeOutputHtmlPath cwd (js "/repo/a/b.md") (js "README.md")) in
  processAttr cwd (js "/repo/a/b.md") (js "README.md")
    (anchor (js "../c.md")) (js "href")
  = Ok (anchor (js "../../c"))
  /\ sourceOutDir = js "/repo/_site/a/b"
  /\ designates cwd sourceOutDir (js "../../c") = js "/repo/_site/c/index.html"
  /\ designates cwd sourceOutDir (js "../../c")
     <> computeOutputHtmlPath cwd (js "/repo/a/c.md") (js "README.md").
Proof.
  repeat split; try (vm_compute; reflexivity). vm_compute. discriminate.
Qed.

(** C3, amended.  For a document [d/b.md] and a sibling [d/c.md]
    referred to as [c.md] or [./c.md], where [b] and [c] are names,
    [c] is free of [#], [?] and [%] and does not end in [.html], and
    the reference does not start with [mailto:] or [tel:], the
    rewritten reference, followed from the directory of
    [d/b/index.html], designates [d/c/index.html], the output location
    of the target. *)
Theorem C3_sibling_link_round_trip
    (R d : list jsstring) (b c homeMdBasename : jsstring) (el : element)
    (attrName ref : jsstring) :
  names R = true -> names d = true -> d <> [] ->
  isName b = true -> isName c = true ->
  plain c = true -> ends_with_ci (js ".html") c = false ->
  ref = c ++ js ".md" \/ ref = js "./" ++ c ++ js ".md" ->
  isMailOrTel ref = false ->
  getAttribute el attrName = Some ref ->
  let cwd := absPath R in
  let source := absPath (R ++ d ++ [b ++ js ".md"]) in
  let target := absPath (R ++ d ++ [c ++ js ".md"]) in
  let sourceOutDir :=
    path.dirname (computeOutputHtmlPath cwd source homeMdBasename) in
  exists v,
    processAttr cwd source homeMdBasename el attrName
      = Ok (setAttribute el attrName v)
    /\ designates cwd sourceOutDir v
       = computeOutputHtmlPath cwd target homeMdBasename
    /\ computeOutputHtmlPath cwd target homeMdBasename
       = absPath (R ++ [js "_site"] ++ d ++ [c; js "index.html"])
    /\ (b <> c -> v = js "../" ++ c).
Proof.
  intros HR Hd Hdne Hb Hc Hplain Hhtml Href Hmail Hget cwd source target
    sourceOutDir.
  destruct (plain_noChar _ Hplain) as [P1 [P2 P3]].
  pose proof (isSeg_noSlash _ (isName_isSeg _ Hc)) as Hcs.
  pose proof (isName_md _ Hb) as Hbmd. pose proof (isName_md _ Hc) as Hcmd.
  (* the reference has neither query nor fragment and needs no decoding *)
  assert (N1 : noChar (ch "#") ref = true)
    by (destruct Href; subst ref; rewrite !noChar_app, P1; reflexivity).
  assert (N2 : noChar (ch "?") ref = true)
    by (destruct Href; subst ref; rewrite !noChar_app, P2; reflexivity).
  assert (N3 : noChar CHAR_PERCENT ref = true)
    by (destruct Href; subst ref; rewrite !noChar_app, P3; reflexivity).
  assert (Hmd : isMarkdown ref = true).
  { unfold isMarkdown. destruct Href; subst ref.
    - now apply ends_with_ci_self.
    - rewrite app_assoc. now apply ends_with_ci_self. }
  assert (Habs : isAbsoluteUrl ref = false).
  { destruct Href; subst ref.
    - apply isAbsoluteUrl_noSlash. now rewrite noSlash_app, Hcs.
    - reflexivity. }
  (* where the source page is written and what the reference names *)
  assert (ES : computeOutputHtmlPath cwd source homeMdBasename
               = absPath ((siteSegs R ++ d ++ [b]) ++ [indexHtml])).
  { unfold cwd, source. rewrite computeOutputHtmlPath_inside; trivial.
    - rewrite strip_md. now rewrite <- !app_assoc.
    - now rewrite strip_md.
    - now left. }
  assert (HS : names (siteSegs R ++ d ++ [b]) = true).
  { rewrite !names_app, names_siteSegs, Hd by assumption. simpl. now rewrite Hb. }
  assert (EO : computeOutputHtmlPath cwd target homeMdBasename
               = absPath ((siteSegs R ++ d ++ [c]) ++ [indexHtml])).
  { unfold cwd, target. rewrite computeOutputHtmlPath_inside; trivial.
    - rewrite strip_md. now rewrite <- !app_assoc.
    - now rewrite strip_md.
    - now left. }
  assert (HO : names (siteSegs R ++ d ++ [c]) = true).
  { rewrite !names_app, names_siteSegs, Hd by assumption. simpl. now rewrite Hc. }
  assert (Edir : sourceOutDir = absPath (siteSegs R ++ d ++ [b])).
  { unfold sourceOutDir. rewrite ES. apply dirname_absPath; trivial. }
  assert (HRd : names (R ++ d) = true) by now rewrite names_app, HR, Hd.
  assert (ET : path.resolve cwd [path.dirname source; ref] = target).
  { unfold source, target. rewrite !app_assoc.
    rewrite dirname_absPath by (trivial; now apply isName_isSeg).
    rewrite resolve_abs2 by assumption. f_equal. unfold resolveSegs.
    destruct Href; subst ref.
    - pose proof (isAbsolute_joinSlash [c ++ js ".md"]) as Ha.
      simpl in Ha. rewrite Ha by now rewrite (isName_isSeg _ Hcmd).
      rewrite split_noSlash by now apply isSeg_noSlash, isName_isSeg.
      rewrite normalizeSegs_names by (simpl; now rewrite Hcmd).
      simpl. now rewrite rev_involutive.
    - change (js "./" ++ c ++ js ".md")
        with (path.dot ++ CHAR_FORWARD_SLASH :: (c ++ js ".md")).
      change (path.isAbsolute (path.dot ++ CHAR_FORWARD_SLASH :: c ++ js ".md"))
        with false.
      rewrite split_app_slash, normalizeSegs_app.
      change (split path.dot) with [path.dot].
      rewrite split_noSlash by now apply isSeg_noSlash, isName_isSeg.
      change (path.normalizeSegs false (rev (R ++ d)) [path.dot])
        with (rev (R ++ d)).
      rewrite normalizeSegs_names by (simpl; now rewrite Hcmd).
      simpl. now rewrite rev_involutive. }
  exists (mdHref cwd source homeMdBasename ref). repeat split.
  - rewrite <- (app_nil_r (mdHref _ _ _ _)).
    change (mdHref cwd source homeMdBasename ref ++ [])
      with (mdHref cwd source homeMdBasename ref ++ [] ++ []).
    apply processAttr_markdown with (raw := ref) (rest := ref) (url := ref);
      trivial; try now apply splitAt_none.
    now apply decodeURI_plain.
  - unfold designates, mdHref. fold sourceOutDir. rewrite ET, EO, Edir.
    unfold cwd. rewrite pageHref_round_trip; trivial.
    + apply join_abs_name; trivial.
    + rewrite !app_assoc. rewrite <- (app_assoc _ [c] [indexHtml]).
      rewrite dropCommon_app. simpl.
      destruct (str_eqb b c); discriminate.
    + rewrite app_assoc, basename_absPath; trivial. now apply isName_isSeg.
  - rewrite EO. unfold siteSegs. now rewrite <- !app_assoc.
  - intros Hbc. unfold mdHref. fold sourceOutDir. rewrite ET, EO, Edir.
    unfold cwd. rewrite pageHref_formula by assumption.
    rewrite !app_assoc. rewrite <- (app_assoc _ [c] [indexHtml]).
    rewrite dropCommon_app. simpl path.dropCommon.
    apply str_eqb_neq in Hbc. rewrite Hbc. simpl fst. simpl snd.
    change (upsOf [b] ++ removelast [c; indexHtml]) with ([path.dotdot] ++ [c]).
    unfold strip_suffix_ci.
    rewrite ends_with_ci_joinSlash, Hhtml by reflexivity.
    destruct c; [discriminate | reflexivity].
Qed.

Lemma C3_sibling_link_round_trip_witness :
  exists v,
    processAttr (absPath [js "repo"]) (js "/repo/a/b.md") (js "README.md")
      (anchor (js "./c.md")) (js "href")
    = Ok (setAttribute (anchor (js "./c.md")) (js "href") v)
    /\ designates (absPath [js "repo"])
         (path.dirname (computeOutputHtmlPath (absPath [js "repo"])
                          (js "/repo/a/b.md") (js "README.md"))) v
       = js "/repo/_site/a/c/index.html".
Proof.
  destruct (C3_sibling_link_round_trip [js "repo"] [js "a"] (js "b") (js "c")
              (js "README.md") (anchor (js "./c.md")) (js "href") (js "./c.md"))
    as [v [H1 [H2 [H3 _]]]].
  all: try (vm_compute; reflexivity).
  - discriminate.
  - now right.
  - exists v. split; [exact H1|].
    etransitivity; [exact H2|]. etransitivity; [exact H3|].
    vm_compute. reflexivity.
Defined.

Example C3_rewritten_values :
  processAttr (js "/repo") (js "/repo/a/b.md") (js "README.md")
    (anchor (js "./c.md")) (js "href") = Ok (anchor (js "../c"))
  /\ processAttr (js "/repo") (js "/repo/a/b.md") (js "README.md")
       (anchor (js "c.md")) (js "href") = Ok (anchor (js "../c"))
  /\ designates (js "/repo") (js "/repo/_site/a/b") (js "../c")
     = js "/repo/_site/a/c/index.html".
Proof. repeat split; vm_compute; reflexivity. Qed.

(** ** Totality of the rewriting *)







Section OutsideRoot.

(** The content root [R/r] lies one level below [R]. *)
Variable R : list jsstring.
Variable r : jsstring.
Hypothesis HR : names (R ++ [r]) = true.

Let cwd := absPath (R ++ [r]).


End OutsideRoot.




(* ================================================================= *)
(** * Further properties of the build *)

(** ** The walk *)

Lemma dirent_forall_ind (P : dirent -> Prop) :
  (forall name, P (RegularFile name)) ->
  (forall name entries, Forall P entries -> P (SubDirectory name entries)) ->
  (forall name, P (OtherEntry name)) ->
  forall entry, P entry.
Proof.
  intros Hf Hd Ho. fix IH 1. intros [name|name entries|name].
  - apply Hf.
  - apply Hd. induction entries as [|e r IHr]; constructor; [apply IH | exact IHr].
  - apply Ho.
Qed.

Lemma visible_skip (name : jsstring) :
  startsWith (js ".") name || existsb (str_eqb name) excludeNames
  = negb (visible name).
Proof.
  unfold visible, excludeNames. cbn [existsb].
  destruct (startsWith (js ".") name) eqn:E; [reflexivity|]. cbn [orb negb andb].
  destruct (str_eqb name (js ".git")) eqn:E1.
  { apply str_eqb_eq in E1. subst. discriminate. }
  destruct (str_eqb name (js ".github")) eqn:E2.
  { apply str_eqb_eq in E2. subst. discriminate. }
  destruct (str_eqb name (js ".render")) eqn:E3.
  { apply str_eqb_eq in E3. subst. discriminate. }
  cbn [orb]. rewrite orb_false_r.
  now destruct (str_eqb name (js "_site")), (str_eqb name (js "node_modules")).
Qed.

Lemma walkEntry_eq (dir : jsstring) (entry : dirent) :
  walkEntry dir entry
  = if visible (entryName entry) then
      match entry with
      | SubDirectory _ entries =>
          flat_map (walkEntry (path.join [dir; entryName entry])) entries
      | RegularFile _ => [path.join [dir; entryName entry]]
      | OtherEntry _ => []
      end
    else [].
Proof.
  pose proof (visible_skip (entryName entry)) as V.
  destruct entry as [n|n es|n]; cbn [walkEntry entryName] in *;
    destruct (startsWith (js ".") n); cbn [orb] in V;
    try (destruct (visible n); [discriminate|reflexivity]);
    destruct (existsb (str_eqb n) excludeNames);
    destruct (visible n); try discriminate; reflexivity.
Qed.

Lemma filter_map_cons_visible (n : jsstring) (l : list (list jsstring)) :
  filter (forallb visible) (map (cons n) l)
  = if visible n then map (cons n) (filter (forallb visible) l) else [].
Proof.
  induction l as [|p l IH]; cbn [map filter forallb].
  - now destruct (visible n).
  - rewrite IH. destruct (visible n); cbn [andb]; [|reflexivity].
    now destruct (forallb visible p).
Qed.

Lemma filter_flat_map {A B : Type} (f : B -> bool) (g : A -> list B) (l : list A) :
  filter f (flat_map g l) = flat_map (fun a => filter f (g a)) l.
Proof.
  induction l as [|a l IH]; [reflexivity|]. cbn [flat_map].
  now rewrite filter_app, IH.
Qed.

Lemma map_flat_map {A B C : Type} (f : B -> C) (g : A -> list B) (l : list A) :
  map f (flat_map g l) = flat_map (fun a => map f (g a)) l.
Proof.
  induction l as [|a l IH]; [reflexivity|]. cbn [flat_map].
  now rewrite map_app, IH.
Qed.

Lemma flat_map_ext_Forall {A B : Type} (f g : A -> list B) (l : list A) :
  Forall (fun a => f a = g a) l -> flat_map f l = flat_map g l.
Proof.
  induction 1 as [|a l E _ IH]; [reflexivity|]. cbn [flat_map]. now rewrite E, IH.
Qed.

Lemma walkEntry_visits (entry : dirent) :
  forall D, names D = true -> wellNamed entry = true ->
  walkEntry (absPath D) entry
  = map (fun p => absPath (D ++ p)) (filter (forallb visible) (filesOf entry)).
Proof.
  induction entry as [n|n es IH|n] using dirent_forall_ind; intros D HD HW;
    rewrite walkEntry_eq; cbn [entryName filesOf wellNamed] in *.
  - apply andb_prop in HW as [Hn _].
    cbn [filter forallb]. rewrite andb_true_r.
    destruct (visible n); [|reflexivity]. cbn [map].
    now rewrite join_abs_name.
  - apply andb_prop in HW as [Hn Hes].
    rewrite filter_map_cons_visible.
    destruct (visible n); [|reflexivity].
    rewrite join_abs_name by assumption.
    rewrite map_map, filter_flat_map, map_flat_map.
    apply flat_map_ext_Forall.
    rewrite forallb_forall in Hes. rewrite Forall_forall in IH |- *.
    intros e He. rewrite (IH e He (D ++ [n])).
    + apply map_ext. intros p. now rewrite <- app_assoc.
    + rewrite names_app, HD. cbn. now rewrite Hn.
    + now apply Hes.
  - now destruct (visible n).
Qed.

Lemma walkEntry_visits_all (D : list jsstring) (entries : list dirent) :
  names D = true -> forallb wellNamed entries = true ->
  walkFiles (absPath D) entries
  = map (fun p => absPath (D ++ p))
        (filter (forallb visible) (flat_map filesOf entries)).
Proof.
  intros HD HW. unfold walkFiles.
  rewrite filter_flat_map, map_flat_map. apply flat_map_ext_Forall.
  rewrite forallb_forall in HW. apply Forall_forall. intros e He.
  apply walkEntry_visits; auto.
Qed.

(** X1.  [walkFiles] calls [onFile] for exactly the regular files of
    the listing none of whose path segments, the file name included,
    starts with a dot or is [_site] or [node_modules], at any depth;
    each is visited once, in the order of the listing, with the path
    [startDir/segments].  Directories are entered, entries that are
    neither files nor directories are passed over. *)
Theorem walkFiles_visits_visible_files (D : list jsstring) (entries : list dirent) :
  names D = true -> forallb wellNamed entries = true ->
  walkFiles (absPath D) entries
  = map (fun p => absPath (D ++ p))
        (filter (forallb visible) (flat_map filesOf entries))
  /\ forall f,
       In f (walkFiles (absPath D) entries)
       <-> exists p, In p (flat_map filesOf entries)
                     /\ forallb visible p = true /\ f = absPath (D ++ p).
Proof.
  intros HD HW. pose proof (walkEntry_visits_all D entries HD HW) as E.
  split; [exact E|]. intros f. rewrite E, in_map_iff. split.
  - intros [p [<- Hp]]. apply filter_In in Hp as [Hin Hv]. now exists p.
  - intros [p [Hin [Hv ->]]]. exists p. split; trivial.
    apply filter_In. now split.
Qed.

Lemma walkFiles_visits_visible_files_witness :
  walkFiles (js "/srv/repo") sampleListing
  = [js "/srv/repo/README.md"; js "/srv/repo/docs/guide.md";
     js "/srv/repo/docs/fig.png"].
Proof.
  apply (walkFiles_visits_visible_files [js "srv"; js "repo"] sampleListing);
    vm_compute; reflexivity.
Defined.

Lemma filesOf_names (entry : dirent) :
  wellNamed entry = true ->
  forall p, In p (filesOf entry) -> names p = true /\ p <> [].
Proof.
  induction entry as [n|n es IH|n] using dirent_forall_ind;
    cbn [wellNamed filesOf entryName]; intros HW p Hp.
  - destruct Hp as [<-|[]]. apply andb_prop in HW as [Hn _].
    split; [cbn; now rewrite Hn | discriminate].
  - apply andb_prop in HW as [Hn Hes].
    apply in_map_iff in Hp as [q [<- Hq]]. split; [|discriminate].
    apply in_flat_map in Hq as [e [He Hq]].
    rewrite Forall_forall in IH. rewrite forallb_forall in Hes.
    destruct (IH e He (Hes e He) q Hq) as [Nq _].
    cbn. now rewrite Hn.
  - destruct Hp.
Qed.

Lemma visible_files_names (entries : list dirent) (p : list jsstring) :
  forallb wellNamed entries = true ->
  In p (filter (forallb visible) (flat_map filesOf entries)) ->
  names p = true /\ p <> [] /\ forallb visible p = true.
Proof.
  intros HW Hp. apply filter_In in Hp as [Hp Hv].
  apply in_flat_map in Hp as [e [He Hp]].
  rewrite forallb_forall in HW.
  destruct (filesOf_names e (HW e He) p Hp). auto.
Qed.

Lemma relSegs_below (D p : list jsstring) : relSegs D (D ++ p) = p.
Proof.
  unfold relSegs. rewrite <- (app_nil_r D) at 1 3.
  rewrite dropCommon_app. now destruct p.
Qed.

Lemma relative_below (cwd : jsstring) (D p : list jsstring) :
  names D = true -> names p = true ->
  path.relative cwd (absPath D) (absPath (D ++ p)) = joinSlash p.
Proof.
  intros HD Hp. rewrite relative_absPath; trivial.
  - now rewrite relSegs_below.
  - now rewrite names_app, HD.
Qed.

Lemma join_abs_names (O p : list jsstring) :
  names O = true -> names p = true -> p <> [] ->
  path.join [absPath O; joinSlash p] = absPath (O ++ p).
Proof.
  intros HO Hp Hne. rewrite join_abs2; trivial.
  - rewrite split_joinSlash; trivial.
    + rewrite normalizeSegs_names by assumption.
      now rewrite rev_app_distr, !rev_involutive.
    + now apply names_noSlash.
  - destruct p as [|x p] using rev_ind; [congruence|].
    rewrite names_app in Hp. apply andb_prop in Hp as [_ Hx].
    cbn in Hx. rewrite andb_true_r in Hx.
    destruct p as [|y p].
    + cbn [app joinSlash]. apply trailingSlash_seg. now apply isName_isSeg.
    + rewrite joinSlash_snoc by discriminate.
      rewrite trailingSlash_app by discriminate.
      change (CHAR_FORWARD_SLASH :: x) with ([CHAR_FORWARD_SLASH] ++ x).
      rewrite trailingSlash_app.
      * apply trailingSlash_seg. now apply isName_isSeg.
      * apply isName_isSeg, isSeg_nonempty in Hx. assumption.
Qed.

Lemma flat_map_map {A B C : Type} (f : A -> B) (g : B -> list C) (l : list A) :
  flat_map g (map f l) = flat_map (fun a => g (f a)) l.
Proof. induction l as [|a l IH]; [reflexivity|]. cbn. now rewrite IH. Qed.

Lemma flat_map_ext_in {A B : Type} (f g : A -> list B) (l : list A) :
  (forall a, In a l -> f a = g a) -> flat_map f l = flat_map g l.
Proof. intros H. apply flat_map_ext_Forall, Forall_forall, H. Qed.

Lemma dirname_absPath_removelast (O p : list jsstring) :
  names O = true -> names p = true -> p <> [] ->
  path.dirname (absPath (O ++ p)) = absPath (O ++ removelast p).
Proof.
  intros HO Hp Hne. destruct p as [|x p] using rev_ind; [congruence|].
  rewrite removelast_last. rewrite names_app in Hp.
  apply andb_prop in Hp as [Hp Hx]. cbn in Hx. rewrite andb_true_r in Hx.
  rewrite app_assoc. apply dirname_absPath.
  - now rewrite names_app, HO.
  - now apply isName_isSeg.
Qed.

Lemma copyTree_plan
    (cwd : jsstring) (D O : list jsstring) (entries : list dirent) :
  names D = true -> names O = true -> forallb wellNamed entries = true ->
  copyTree cwd (absPath D) (absPath O) entries
  = flat_map (fun p => [Mkdir (absPath (O ++ removelast p));
                        CopyFile (absPath (D ++ p)) (absPath (O ++ p))])
             (filter (forallb visible) (flat_map filesOf entries)).
Proof.
  intros HD HO HW. unfold copyTree.
  rewrite (walkEntry_visits_all D entries HD HW), flat_map_map.
  apply flat_map_ext_in. intros p Hp.
  destruct (visible_files_names entries p HW Hp) as [Np [Ne _]].
  rewrite relative_below, join_abs_names by assumption.
  now rewrite dirname_absPath_removelast.
Qed.

(** ** The pages of the Markdown files the walk finds *)

Lemma to_lower_dot (c : N) : to_lower c = CHAR_DOT -> c = CHAR_DOT.
Proof.
  unfold to_lower, CHAR_DOT.
  destruct ((65 <=? c) && (c <=? 90)) eqn:E; [|trivial].
  apply andb_prop in E as [E1 E2]. apply N.leb_le in E1. lia.
Qed.

Lemma isMarkdown_split (b : jsstring) :
  isMarkdown b = true ->
  exists stem ext, b = stem ++ ext /\ length ext = 3%nat
                   /\ strip_suffix_ci (js ".md") b = stem
                   /\ ends_with_ci (js ".md") ext = true.
Proof.
  intros H. unfold strip_suffix_ci. unfold isMarkdown in H. rewrite H.
  destruct (split_last_n 3 b (ends_with_ci_length _ _ H)) as [a [e [E L]]].
  subst b. exists a, e. repeat split; trivial.
  - change (length (js ".md")) with 3%nat. rewrite <- L. apply drop_last_app.
  - unfold ends_with_ci in *. rewrite rev_app_distr in H.
    rewrite <- (app_nil_r (rev (js ".md"))) in H.
    rewrite prefix_ci_app in H by (now rewrite !length_rev, L).
    now apply andb_prop in H as [H _].
Qed.

(** The stem of a Markdown file the walk can find is a name. *)
Lemma md_stem_isName (b : jsstring) :
  isName b = true -> startsWith (js ".") b = false -> isMarkdown b = true ->
  isName (strip_suffix_ci (js ".md") b) = true.
Proof.
  intros Hb Hdot Hmd.
  destruct (isMarkdown_split b Hmd) as [stem [ext [E [L [-> Hext]]]]].
  subst b. destruct stem as [|c stem].
  - exfalso. destruct ext as [|e1 [|e2 [|e3 [|]]]]; try discriminate.
    unfold ends_with_ci in Hext. cbn in Hext.
    apply andb_prop in Hext as [_ Hext]. apply andb_prop in Hext as [_ Hext].
    rewrite andb_true_r in Hext. apply N.eqb_eq in Hext.
    apply to_lower_dot in Hext. subst e1. discriminate.
  - unfold isName in *. apply andb_prop in Hb as [Hb _].
    apply andb_prop in Hb as [Hb _]. unfold isSeg in *.
    apply andb_prop in Hb as [_ Hb]. rewrite noSlash_app in Hb.
    apply andb_prop in Hb as [Hb _]. rewrite Hb. cbn [is_empty negb andb].
    cbn [app startsWith js] in Hdot.
    change (startsWith (js ".") (c :: stem ++ ext))
      with ((c =? CHAR_DOT) && true) in Hdot.
    rewrite andb_true_r in Hdot.
    assert (E1 : str_eqb (c :: stem) path.dot = false).
    { apply str_eqb_neq. intros E. inversion E. subst. discriminate. }
    assert (E2 : str_eqb (c :: stem) path.dotdot = false).
    { apply str_eqb_neq. intros E. inversion E. subst. discriminate. }
    now rewrite E1, E2.
Qed.

(** Where the page of a Markdown file found below the content root is
    written. *)
Lemma page_of_found_file (R d : list jsstring) (b home : jsstring) :
  names R = true -> names d = true -> isName b = true ->
  startsWith (js ".") b = false -> isMarkdown b = true ->
  computeOutputHtmlPath (absPath R) (absPath (R ++ d ++ [b])) home
  = absPath (siteSegs R
             ++ (if isHome d b home then []
                 else d ++ [strip_suffix_ci (js ".md") b])
             ++ [js "index.html"]).
Proof.
  intros HR Hd Hb Hdot Hmd.
  destruct (isHome d b home) eqn:E.
  - destruct d; [|discriminate]. apply str_eqb_eq in E. subst home. cbn [app].
    now apply computeOutputHtmlPath_home.
  - rewrite computeOutputHtmlPath_inside; trivial.
    + now rewrite <- app_assoc.
    + now apply md_stem_isName.
    + destruct d; [right; now apply str_eqb_neq | left; discriminate].
Qed.

Lemma isMarkdown_absPath (A : list jsstring) (b : jsstring) :
  isMarkdown (absPath (A ++ [b])) = isMarkdown b.
Proof.
  unfold isMarkdown, absPath.
  change (CHAR_FORWARD_SLASH :: joinSlash (A ++ [b]))
    with ([] ++ CHAR_FORWARD_SLASH :: joinSlash (A ++ [b])).
  rewrite ends_with_ci_noSlash by reflexivity.
  now apply ends_with_ci_joinSlash.
Qed.

Lemma visible_not_dot (b : jsstring) :
  visible b = true -> startsWith (js ".") b = false.
Proof.
  unfold visible. intros H. apply andb_prop in H as [H _].
  apply andb_prop in H as [H _]. now apply negb_true_iff.
Qed.

Lemma not_inside_site (R p : list jsstring) :
  names R = true -> names p = true -> forallb visible p = true ->
  ~ inside (siteSegs R) (absPath (R ++ p)).
Proof.
  intros HR Hp Hv [t [Ht E]].
  apply absPath_inj in E;
    [|now rewrite names_app, HR
     |now rewrite names_app, (names_siteSegs R HR)].
  unfold siteSegs in E. rewrite <- app_assoc in E. apply app_inv_head in E.
  subst p. cbn in Hv. discriminate.
Qed.

(** The Markdown files found: a directory [d] of visible names below
    the root and a visible file name with the Markdown extension. *)
Lemma found_markdown_file (R : list jsstring) (entries : list dirent)
    (mdPath : jsstring) :
  names R = true -> forallb wellNamed entries = true ->
  In mdPath (findMarkdownFiles (absPath R) entries) ->
  exists d b, mdPath = absPath (R ++ d ++ [b])
              /\ names d = true /\ isName b = true
              /\ forallb visible (d ++ [b]) = true /\ isMarkdown b = true.
Proof.
  intros HR HW Hin. unfold findMarkdownFiles in Hin.
  apply filter_In in Hin as [Hin Hmd].
  rewrite walkEntry_visits_all in Hin by assumption.
  apply in_map_iff in Hin as [p [<- Hp]].
  destruct (visible_files_names entries p HW Hp) as [Np [Ne Vp]].
  destruct p as [|b d] using rev_ind; [congruence|]. clear IHd.
  exists d, b. rewrite names_app in Np. apply andb_prop in Np as [Nd Nb].
  cbn in Nb. rewrite andb_true_r in Nb.
  rewrite app_assoc, isMarkdown_absPath in Hmd. auto.
Qed.

(** X2.  [copyTree] copies every file the walk visits to the same
    relative path below the output directory, after creating the
    directory of the destination: the tree is mirrored, Markdown
    sources included.  It makes no other copy. *)
Theorem copyTree_mirrors_the_tree
    (cwd : jsstring) (D O : list jsstring) (entries : list dirent) :
  names D = true -> names O = true -> forallb wellNamed entries = true ->
  copyTree cwd (absPath D) (absPath O) entries
  = flat_map (fun p => [Mkdir (absPath (O ++ removelast p));
                        CopyFile (absPath (D ++ p)) (absPath (O ++ p))])
             (filter (forallb visible) (flat_map filesOf entries))
  /\ forall src dest,
       In (CopyFile src dest) (copyTree cwd (absPath D) (absPath O) entries)
       <-> exists p, In p (flat_map filesOf entries)
                     /\ forallb visible p = true
                     /\ src = absPath (D ++ p) /\ dest = absPath (O ++ p).
Proof.
  intros HD HO HW. pose proof (copyTree_plan cwd D O entries HD HO HW) as E.
  split; [exact E|]. intros src dest. rewrite E, in_flat_map. split.
  - intros [p [Hp [H|[H|[]]]]]; [discriminate|]. inversion H; subst.
    apply filter_In in Hp as [Hin Hv]. now exists p.
  - intros [p [Hin [Hv [-> ->]]]]. exists p. split.
    + apply filter_In. now split.
    + right. now left.
Qed.

Lemma copyTree_mirrors_the_tree_witness :
  copyTree (js "/") (js "/srv/repo") (js "/srv/repo/_site") sampleListing
  = [Mkdir (js "/srv/repo/_site");
     CopyFile (js "/srv/repo/README.md") (js "/srv/repo/_site/README.md");
     Mkdir (js "/srv/repo/_site/docs");
     CopyFile (js "/srv/repo/docs/guide.md") (js "/srv/repo/_site/docs/guide.md");
     Mkdir (js "/srv/repo/_site/docs");
     CopyFile (js "/srv/repo/docs/fig.png") (js "/srv/repo/_site/docs/fig.png")].
Proof.
  apply (copyTree_mirrors_the_tree (js "/") [js "srv"; js "repo"]
           [js "srv"; js "repo"; js "_site"] sampleListing);
    vm_compute; reflexivity.
Defined.

Lemma names_removelast (p : list jsstring) :
  names p = true -> names (removelast p) = true.
Proof.
  destruct p as [|x p] using rev_ind; trivial. rewrite removelast_last.
  rewrite names_app. intros H. now apply andb_prop in H as [H _].
Qed.

Lemma inside_page (R d : list jsstring) (b home : jsstring) :
  names R = true -> names d = true -> isName b = true ->
  startsWith (js ".") b = false -> isMarkdown b = true ->
  let out := computeOutputHtmlPath (absPath R) (absPath (R ++ d ++ [b])) home in
  inside (siteSegs R) out /\ inside (siteSegs R) (path.dirname out).
Proof.
  intros HR Hd Hb Hdot Hmd out. unfold out.
  rewrite page_of_found_file by assumption.
  set (t := if isHome d b home then [] else d ++ [strip_suffix_ci (js ".md") b]).
  assert (Ht : names t = true).
  { unfold t. destruct (isHome d b home); trivial.
    rewrite names_app, Hd. cbn. now rewrite md_stem_isName. }
  split.
  - exists (t ++ [js "index.html"]). split; trivial.
    now rewrite names_app, Ht.
  - exists t. split; trivial. rewrite app_assoc. apply dirname_absPath; trivial.
    now rewrite names_app, (names_siteSegs R HR).
Qed.

(** X3.  The build reads outside and writes inside the site.  Every
    directory [copyTree(REPO_ROOT, OUTPUT_ROOT)] creates and every file
    it writes lies in [_site], and no file it copies comes from there;
    every Markdown file [findMarkdownFiles(REPO_ROOT)] finds lies
    outside [_site], and its page and the directory made for the page
    lie in [_site]. *)
Theorem build_reads_outside_and_writes_inside_the_site
    (R : list jsstring) (entries : list dirent) (home : jsstring) :
  names R = true -> forallb wellNamed entries = true ->
  let cwd := absPath R in
  Forall (fun e => inside (siteSegs R) (target e)
                   /\ forall src dest, e = CopyFile src dest ->
                                       ~ inside (siteSegs R) src)
         (copyTree cwd (REPO_ROOT cwd) (OUTPUT_ROOT cwd) entries)
  /\ Forall (fun mdPath =>
               ~ inside (siteSegs R) mdPath
               /\ inside (siteSegs R) (computeOutputHtmlPath cwd mdPath home)
               /\ inside (siteSegs R)
                    (path.dirname (computeOutputHtmlPath cwd mdPath home)))
            (findMarkdownFiles cwd entries).
Proof.
  intros HR HW cwd. split.
  - unfold cwd, REPO_ROOT. rewrite (OUTPUT_ROOT_abs R HR).
    rewrite copyTree_plan; trivial; [|apply (names_siteSegs R HR)].
    apply Forall_forall. intros e He.
    apply in_flat_map in He as [p [Hp He]].
    destruct (visible_files_names entries p HW Hp) as [Np [Ne Vp]].
    destruct He as [<-|[<-|[]]]; cbn [target].
    + split; [|discriminate]. exists (removelast p).
      split; [now apply names_removelast | reflexivity].
    + split; [now exists p|]. intros src dest E. inversion E; subst.
      now apply not_inside_site.
  - apply Forall_forall. intros mdPath Hin.
    destruct (found_markdown_file R entries mdPath HR HW Hin)
      as [d [b [-> [Hd [Hb [Hv Hmd]]]]]].
    split.
    + apply not_inside_site; trivial. rewrite names_app, Hd. cbn. now rewrite Hb.
    + apply inside_page; trivial. apply visible_not_dot.
      rewrite forallb_app in Hv. apply andb_prop in Hv as [_ Hv].
      cbn in Hv. now rewrite andb_true_r in Hv.
Qed.

Lemma build_reads_outside_and_writes_inside_the_site_witness :
  let R := [js "srv"; js "repo"] in
  let cwd := absPath R in
  copyTree cwd (REPO_ROOT cwd) (OUTPUT_ROOT cwd) sampleListing
  = [Mkdir (js "/srv/repo/_site");
     CopyFile (js "/srv/repo/README.md") (js "/srv/repo/_site/README.md");
     Mkdir (js "/srv/repo/_site/docs");
     CopyFile (js "/srv/repo/docs/guide.md") (js "/srv/repo/_site/docs/guide.md");
     Mkdir (js "/srv/repo/_site/docs");
     CopyFile (js "/srv/repo/docs/fig.png") (js "/srv/repo/_site/docs/fig.png")]
  /\ findMarkdownFiles cwd sampleListing
     = [js "/srv/repo/README.md"; js "/srv/repo/docs/guide.md"]
  /\ Forall (fun e => inside (siteSegs R) (target e)
                      /\ forall src dest, e = CopyFile src dest ->
                                          ~ inside (siteSegs R) src)
            (copyTree cwd (REPO_ROOT cwd) (OUTPUT_ROOT cwd) sampleListing)
  /\ Forall (fun mdPath =>
               ~ inside (siteSegs R) mdPath
               /\ inside (siteSegs R)
                    (computeOutputHtmlPath cwd mdPath (js "README.md"))
               /\ inside (siteSegs R)
                    (path.dirname
                       (computeOutputHtmlPath cwd mdPath (js "README.md"))))
            (findMarkdownFiles cwd sampleListing).
Proof.
  split; [vm_compute; reflexivity|]. split; [vm_compute; reflexivity|].
  apply (build_reads_outside_and_writes_inside_the_site
           [js "srv"; js "repo"] sampleListing (js "README.md"));
    vm_compute; reflexivity.
Defined.

Lemma absPath_snoc (A : list jsstring) :
  exists pre, forall x, absPath (A ++ [x]) = pre ++ x.
Proof.
  destruct A as [|a A].
  - now exists [CHAR_FORWARD_SLASH].
  - exists (CHAR_FORWARD_SLASH :: joinSlash (a :: A) ++ [CHAR_FORWARD_SLASH]).
    intros x. unfold absPath. rewrite joinSlash_snoc by discriminate.
    cbn [app]. now rewrite <- app_assoc.
Qed.

Lemma strip_md_absPath (A : list jsstring) (b : jsstring) :
  isMarkdown b = true ->
  strip_suffix_ci (js ".md") (absPath (A ++ [b]))
  = absPath (A ++ [strip_suffix_ci (js ".md") b]).
Proof.
  intros Hmd. pose proof (isMarkdown_absPath A b) as E. rewrite Hmd in E.
  unfold strip_suffix_ci at 1. unfold isMarkdown in E. rewrite E.
  destruct (isMarkdown_split b Hmd) as [stem [ext [-> [L [-> _]]]]].
  destruct (absPath_snoc A) as [pre Hpre]. rewrite !Hpre.
  rewrite app_assoc. change (length (js ".md")) with 3%nat. rewrite <- L.
  apply drop_last_app.
Qed.

Lemma names_page_segs (d : list jsstring) (b home stem : jsstring) :
  names d = true -> isName stem = true ->
  names ((if isHome d b home then [] else d ++ [stem]) ++ [js "index.html"])
  = true.
Proof.
  intros Hd Hs. rewrite names_app. destruct (isHome d b home); [reflexivity|].
  rewrite names_app, Hd. unfold names. cbn [forallb]. now rewrite Hs.
Qed.

Lemma NoDup_map_transfer {A B C : Type} (g : A -> B) (h : A -> C) (l : list A) :
  (forall x y, In x l -> In y l -> g x = g y -> h x = h y) ->
  NoDup (map h l) -> NoDup (map g l).
Proof.
  induction l as [|a l IH]; intros H N; [constructor|].
  cbn [map] in *. inversion N as [|? ? Hn N']; subst. constructor.
  - intros Hin. apply in_map_iff in Hin as [y [E Hy]]. apply Hn.
    apply in_map_iff. exists y. split; trivial.
    apply H; [now right | now left | exact E].
  - apply IH; trivial. intros x y Hx Hy. apply H; now right.
Qed.

Lemma found_pages_same_stem
    (R : list jsstring) (entries : list dirent) (home md1 md2 : jsstring) :
  names R = true -> forallb wellNamed entries = true ->
  let cwd := absPath R in
  In md1 (findMarkdownFiles cwd entries) ->
  In md2 (findMarkdownFiles cwd entries) ->
  computeOutputHtmlPath cwd md1 home = computeOutputHtmlPath cwd md2 home ->
  strip_suffix_ci (js ".md") md1 = strip_suffix_ci (js ".md") md2.
Proof.
  intros HR HW cwd H1 H2 E.
  destruct (found_markdown_file R entries md1 HR HW H1)
    as [d1 [b1 [-> [Hd1 [Hb1 [Hv1 Hm1]]]]]].
  destruct (found_markdown_file R entries md2 HR HW H2)
    as [d2 [b2 [-> [Hd2 [Hb2 [Hv2 Hm2]]]]]].
  assert (D1 : startsWith (js ".") b1 = false).
  { apply visible_not_dot. rewrite forallb_app in Hv1.
    apply andb_prop in Hv1 as [_ Hv]. cbn in Hv. now rewrite andb_true_r in Hv. }
  assert (D2 : startsWith (js ".") b2 = false).
  { apply visible_not_dot. rewrite forallb_app in Hv2.
    apply andb_prop in Hv2 as [_ Hv]. cbn in Hv. now rewrite andb_true_r in Hv. }
  pose proof (md_stem_isName b1 Hb1 D1 Hm1) as S1.
  pose proof (md_stem_isName b2 Hb2 D2 Hm2) as S2.
  unfold cwd in E. rewrite !page_of_found_file in E by assumption.
  apply absPath_inj in E.
  - apply app_inv_head in E.
    rewrite !(app_assoc R), !strip_md_absPath by assumption.
    destruct (isHome d1 b1 home) eqn:I1, (isHome d2 b2 home) eqn:I2.
    + destruct d1, d2; try discriminate.
      apply str_eqb_eq in I1, I2. now subst.
    + apply (f_equal (@length _)) in E. rewrite !length_app in E.
      cbn in E. lia.
    + apply (f_equal (@length _)) in E. rewrite !length_app in E.
      cbn in E. lia.
    + change [strip_suffix_ci (js ".md") b1; js "index.html"]
        with ([strip_suffix_ci (js ".md") b1] ++ [js "index.html"]) in E.
      change [strip_suffix_ci (js ".md") b2; js "index.html"]
        with ([strip_suffix_ci (js ".md") b2] ++ [js "index.html"]) in E.
      rewrite <- !app_assoc in E. rewrite !app_assoc in E.
      apply app_inj_tail in E as [E _]. apply app_inj_tail in E as [E1 E2].
      now rewrite <- !app_assoc, E1, E2.
  - rewrite names_app, (names_siteSegs R HR). now apply names_page_segs.
  - rewrite names_app, (names_siteSegs R HR). now apply names_page_segs.
Qed.

(** X4.  Two Markdown files the walk finds are rendered to the same
    location only if their paths are equal once the extension is
    stripped, that is, if they differ at most in the letter case of
    [.md].  Hence files with pairwise different paths without
    extension get pairwise different pages. *)
Theorem found_pages_collide_only_up_to_the_case_of_the_extension
    (R : list jsstring) (entries : list dirent) (home : jsstring) :
  names R = true -> forallb wellNamed entries = true ->
  let cwd := absPath R in
  let found := findMarkdownFiles cwd entries in
  (forall md1 md2,
     In md1 found -> In md2 found ->
     computeOutputHtmlPath cwd md1 home = computeOutputHtmlPath cwd md2 home ->
     strip_suffix_ci (js ".md") md1 = strip_suffix_ci (js ".md") md2)
  /\ (NoDup (map (strip_suffix_ci (js ".md")) found) ->
      NoDup (map (fun md => computeOutputHtmlPath cwd md home) found)).
Proof.
  intros HR HW cwd found.
  assert (H : forall md1 md2,
             In md1 found -> In md2 found ->
             computeOutputHtmlPath cwd md1 home
             = computeOutputHtmlPath cwd md2 home ->
             strip_suffix_ci (js ".md") md1 = strip_suffix_ci (js ".md") md2).
  { intros md1 md2. now apply found_pages_same_stem. }
  split; [exact H|]. now apply NoDup_map_transfer.
Qed.

Lemma found_pages_collide_only_up_to_the_case_of_the_extension_witness :
  computeOutputHtmlPath (js "/srv/repo") (js "/srv/repo/notes.md") (js "README.md")
  = computeOutputHtmlPath (js "/srv/repo") (js "/srv/repo/notes.MD") (js "README.md")
  /\ strip_suffix_ci (js ".md") (js "/srv/repo/notes.md")
     = strip_suffix_ci (js ".md") (js "/srv/repo/notes.MD").
Proof.
  split; [vm_compute; reflexivity|].
  apply (proj1 (found_pages_collide_only_up_to_the_case_of_the_extension
                  [js "srv"; js "repo"] caseListing (js "README.md")
                  eq_refl eq_refl)).
  - now left.
  - right. now left.
  - vm_compute. reflexivity.
Defined.

(** ** Relative references lead back to their targets *)

Lemma forallb_noSlash_segs (l : list jsstring) :
  segs l = true -> forallb noSlash l = true.
Proof.
  induction l as [|x l IH]; trivial. cbn. intros H.
  apply andb_prop in H as [Hx Hl]. now rewrite (isSeg_noSlash _ Hx), IH.
Qed.

(** Resolving a path of [..] segments and names against [C ++ up]
    climbs out of [up] and descends into [down]. *)
Lemma resolve_relSegs (cwd : jsstring) (C up down : list jsstring) :
  names C = true -> names up = true -> names down = true ->
  upsOf up ++ down <> [] ->
  path.resolve cwd [absPath (C ++ up); joinSlash (upsOf up ++ down)]
  = absPath (C ++ down).
Proof.
  intros HC Hup Hdown Hne.
  assert (Hsegs : segs (upsOf up ++ down) = true)
    by (rewrite segs_app, segs_upsOf; now apply names_segs).
  rewrite resolve_abs2 by (now rewrite names_app, HC). f_equal.
  unfold resolveSegs. rewrite isAbsolute_joinSlash by assumption.
  rewrite split_joinSlash; trivial; [|now apply forallb_noSlash_segs].
  rewrite rev_app_distr, normalizeSegs_app. unfold upsOf.
  rewrite normalizeSegs_ups, normalizeSegs_names by assumption.
  now rewrite rev_app_distr, !rev_involutive.
Qed.

Lemma toRelativeHref_resolves (R S T : list jsstring) :
  names S = true -> names T = true ->
  path.resolve (absPath R)
    [absPath S; toRelativeHref (absPath R) (absPath S) (absPath T)]
  = if str_eqb (absPath S) (absPath T) then absPath (S ++ [js "index.html"])
    else absPath T.
Proof.
  intros HS HT. rewrite toRelativeHref_abs by assumption.
  destruct (dropCommon_split S T) as [C [ES ET]]. unfold relSegs.
  set (up := fst (path.dropCommon S T)) in *.
  set (down := snd (path.dropCommon S T)) in *.
  assert (HC : names C = true)
    by (rewrite ES, names_app in HS; now apply andb_prop in HS).
  assert (Hup : names up = true)
    by (rewrite ES, names_app in HS; now apply andb_prop in HS).
  assert (Hdown : names down = true)
    by (rewrite ET, names_app in HT; now apply andb_prop in HT).
  assert (Hsegs : segs (upsOf up ++ down) = true)
    by (rewrite segs_app, segs_upsOf; now apply names_segs).
  destruct (is_empty (joinSlash (upsOf up ++ down))) eqn:E.
  - apply is_empty_true, joinSlash_empty_iff in E; trivial.
    apply app_eq_nil in E as [E1 E2]. destruct up; [|discriminate].
    rewrite ES, ET, E2, str_eqb_refl, !app_nil_r.
    change indexHtml with (joinSlash (upsOf [] ++ [js "index.html"])).
    rewrite <- (app_nil_r C) at 1. now apply resolve_relSegs.
  - assert (Hne : upsOf up ++ down <> []).
    { intros E'. now rewrite E' in E. }
    assert (Hneq : str_eqb (absPath S) (absPath T) = false).
    { apply str_eqb_neq. intros E'. apply absPath_inj in E'; trivial.
      unfold up, down in Hne. rewrite E', dropCommon_same in Hne.
      now apply Hne. }
    rewrite Hneq, ES, ET. now apply resolve_relSegs.
Qed.

(** X5.  [toRelativeHref] never returns the empty string, and,
    resolved against the directory it starts from, the path it returns
    leads back to its target.  The one
    exception is a target equal to that directory: the empty relative
    path is replaced by [index.html], which leads to [index.html]
    inside the directory. *)
Theorem toRelativeHref_leads_back_to_its_target (R S T : list jsstring) :
  names S = true -> names T = true ->
  is_empty (toRelativeHref (absPath R) (absPath S) (absPath T)) = false
  /\ path.resolve (absPath R)
       [absPath S; toRelativeHref (absPath R) (absPath S) (absPath T)]
     = if str_eqb (absPath S) (absPath T) then absPath (S ++ [js "index.html"])
       else absPath T.
Proof.
  intros HS HT. split; [|now apply toRelativeHref_resolves].
  pose proof (toRelativeHref_nonempty (absPath R) (absPath S) (absPath T)) as N.
  now destruct (toRelativeHref (absPath R) (absPath S) (absPath T)).
Qed.

Lemma toRelativeHref_leads_back_to_its_target_witness :
  path.resolve (js "/srv/repo")
    [js "/srv/repo/_site/docs/guide";
     toRelativeHref (js "/srv/repo") (js "/srv/repo/_site/docs/guide")
       (js "/srv/repo/_site/assets/style.css")]
  = js "/srv/repo/_site/assets/style.css"
  /\ toRelativeHref (js "/srv/repo") (js "/srv/repo/_site/docs/guide")
       (js "/srv/repo/_site/assets/style.css")
     = js "../../assets/style.css".
Proof.
  split; [|vm_compute; reflexivity].
  apply (proj2 (toRelativeHref_leads_back_to_its_target
                  [js "srv"; js "repo"]
                  [js "srv"; js "repo"; js "_site"; js "docs"; js "guide"]
                  [js "srv"; js "repo"; js "_site"; js "assets"; js "style.css"]
                  eq_refl eq_refl)).
Defined.

Lemma isPrefix_snoc_In (a l : list jsstring) (x : jsstring) :
  isPrefix (a ++ [x]) l = true -> In x l.
Proof.
  revert l. induction a as [|y a IH]; intros [|z l] H; try discriminate.
  - cbn in H. rewrite andb_true_r in H. apply str_eqb_eq in H. now left.
  - cbn in H. apply andb_prop in H as [_ H]. right. now apply IH.
Qed.

Lemma not_prefix_goes_down (S T : list jsstring) :
  isPrefix T S = false -> snd (path.dropCommon S T) <> [].
Proof.
  intros Hpre E. destruct (dropCommon_split S T) as [C [E1 E2]].
  rewrite E, app_nil_r in E2. rewrite E2, E1 in Hpre.
  now rewrite isPrefix_app in Hpre.
Qed.

Lemma resolve_empty_last (cwd a : jsstring) :
  path.resolve cwd [a; []] = path.resolve cwd [a].
Proof. reflexivity. Qed.

(** Followed from the directory [S], the extensionless reference to
    the page [O/index.html] designates that page, whether an empty
    reference is left empty or written as [.]. *)
Lemma pageHref_designates (R S O : list jsstring) :
  names S = true -> names O = true ->
  isPrefix (O ++ [indexHtml]) S = false ->
  ends_with_ci (js ".html") (path.basename (absPath O)) = false ->
  let cwd := absPath R in
  let v := toExtensionlessPath
             (toRelativeHref cwd (absPath S) (absPath (O ++ [indexHtml]))) in
  designates cwd (absPath S) v = absPath (O ++ [indexHtml])
  /\ designates cwd (absPath S) (if is_empty v then js "." else v)
     = absPath (O ++ [indexHtml]).
Proof.
  intros HS HO Hpre Hn cwd v.
  pose proof (pageHref_round_trip R S O HS HO
                (not_prefix_goes_down _ _ Hpre) Hn) as G.
  cbv zeta in G. fold cwd in G. fold v in G.
  assert (G2 : designates cwd (absPath S) (if is_empty v then js "." else v)
               = absPath (O ++ [indexHtml])).
  { unfold designates. rewrite G. now apply join_abs_name. }
  split; [|exact G2].
  destruct (is_empty v) eqn:E; [|exact G2].
  apply is_empty_true in E. rewrite E. unfold designates.
  rewrite resolve_empty_last, resolve_abs1 by assumption.
  unfold designates in G2. rewrite <- G2. f_equal. f_equal.
  change (js ".") with (joinSlash (upsOf [] ++ [path.dot])).
  unfold cwd. rewrite resolve_abs2 by assumption. f_equal.
  unfold resolveSegs. cbn [upsOf map app joinSlash].
  change (path.isAbsolute path.dot) with false. cbv iota.
  change (split path.dot) with [path.dot].
  rewrite normalizeSegs_cons. unfold path.normalizeStep.
  cbn. unfold path.normalizeSegs. cbn. symmetry. apply rev_involutive.
Qed.

(** X6.  The link [buildNavHtml] writes for an internal entry, and
    the home link of the site title, lead to their page: followed from
    the directory of the current page, on a server that answers a
    directory with its [index.html], the extensionless href designates
    the entry's output location.  This holds for the page's link to
    itself, whose href is empty.  Excluded are a target directory
    whose name ends in [.html], and a current directory lying below a
    directory called [index.html] of the target's directory. *)
Theorem navigation_links_lead_to_their_pages
    (R S O : list jsstring) (mdPath title : jsstring) :
  names S = true -> names O = true ->
  isPrefix (O ++ [indexHtml]) S = false ->
  ends_with_ci (js ".html") (path.basename (absPath O)) = false ->
  let cwd := absPath R in
  let outPath := absPath (O ++ [indexHtml]) in
  exists href,
    navLink cwd (absPath S) (Internal mdPath title outPath)
    = js "<a href=" ++ dq ++ href ++ dq
      ++ js " style=" ++ dq ++ js "margin-right:12px;" ++ dq ++ js ">"
      ++ escapeHtml title ++ js "</a>"
    /\ designates cwd (absPath S) href = outPath
    /\ designates cwd (absPath S) (homeHrefOf cwd (absPath S) outPath)
       = outPath.
Proof.
  intros HS HO Hpre Hn cwd outPath.
  destruct (pageHref_designates R S O HS HO Hpre Hn) as [G1 G2].
  eexists. split; [reflexivity|]. split; [exact G1 | exact G2].
Qed.

Lemma navigation_links_lead_to_their_pages_witness :
  let cwd := js "/srv/repo" in
  let page := js "/srv/repo/_site/docs/guide" in
  exists href,
    navLink cwd page
      (Internal (js "/srv/repo/notes/a.md") (js "A")
         (js "/srv/repo/_site/notes/a/index.html"))
    = js "<a href=" ++ dq ++ href ++ dq
      ++ js " style=" ++ dq ++ js "margin-right:12px;" ++ dq ++ js ">"
      ++ escapeHtml (js "A") ++ js "</a>"
    /\ designates cwd page href = js "/srv/repo/_site/notes/a/index.html"
    /\ designates cwd page
         (homeHrefOf cwd page (js "/srv/repo/_site/notes/a/index.html"))
       = js "/srv/repo/_site/notes/a/index.html".
Proof.
  apply (navigation_links_lead_to_their_pages
           [js "srv"; js "repo"]
           [js "srv"; js "repo"; js "_site"; js "docs"; js "guide"]
           [js "srv"; js "repo"; js "_site"; js "notes"; js "a"]
           (js "/srv/repo/notes/a.md") (js "A"));
    vm_compute; reflexivity.
Defined.

Lemma isPrefix_app_cancel (C a b : list jsstring) :
  isPrefix (C ++ a) (C ++ b) = isPrefix a b.
Proof.
  induction C as [|x C IH]; trivial. cbn. now rewrite str_eqb_refl.
Qed.

(** ** Query and fragment of a reference to a document *)

Lemma isAbsolute_firstn (n : nat) (w : jsstring) :
  path.isAbsolute w = false -> path.isAbsolute (firstn n w) = false.
Proof. destruct n, w; trivial. Qed.

(** The extensionless reference to a page is a relative path. *)
Lemma pageHref_relative (R S O : list jsstring) :
  names S = true -> names O = true ->
  let v := toExtensionlessPath
             (toRelativeHref (absPath R) (absPath S)
                (absPath (O ++ [indexHtml]))) in
  path.isAbsolute (if is_empty v then js "." else v) = false.
Proof.
  intros HS HO v.
  assert (Hv : path.isAbsolute v = false).
  { unfold v. rewrite pageHref_formula by assumption.
    destruct (dropCommon_split S (O ++ [indexHtml])) as [C [ES ET]].
    set (up := fst (path.dropCommon S (O ++ [indexHtml]))) in *.
    set (down := snd (path.dropCommon S (O ++ [indexHtml]))) in *.
    assert (Hdown : names down = true).
    { assert (HT : names (O ++ [indexHtml]) = true)
        by (rewrite names_app, HO; reflexivity).
      rewrite ET, names_app in HT. now apply andb_true_iff in HT. }
    assert (Hw : path.isAbsolute (joinSlash (upsOf up ++ removelast down))
                 = false).
    { apply isAbsolute_joinSlash. rewrite segs_app, segs_upsOf.
      now apply names_segs, names_removelast. }
    unfold strip_suffix_ci.
    destruct (ends_with_ci (js ".html")
                (joinSlash (upsOf up ++ removelast down))); trivial.
    now apply isAbsolute_firstn. }
  now destruct (is_empty v).
Qed.

(** Where the pages of two documents below the content root lie, and
    what the path written for a reference from the first to the second
    is: a relative path that leads from the directory of the first
    page to the second page. *)
Lemma mdHref_leads_to_the_page
    (R d e : list jsstring) (b c home decoded : jsstring) :
  names R = true ->
  names d = true -> isName b = true ->
  startsWith (js ".") b = false -> isMarkdown b = true ->
  names e = true -> isName c = true ->
  startsWith (js ".") c = false -> isMarkdown c = true ->
  let cwd := absPath R in
  let source := absPath (R ++ d ++ [b]) in
  let target := absPath (R ++ e ++ [c]) in
  path.resolve cwd [path.dirname source; decoded] = target ->
  ~ In indexHtml (d ++ [strip_suffix_ci (js ".md") b]) ->
  ends_with_ci (js ".html") (strip_suffix_ci (js ".md") c) = false ->
  let pageDir :=
    siteSegs R ++ (if isHome d b home then []
                   else d ++ [strip_suffix_ci (js ".md") b]) in
  let targetPage :=
    siteSegs R ++ (if isHome e c home then []
                   else e ++ [strip_suffix_ci (js ".md") c])
    ++ [indexHtml] in
  path.dirname (computeOutputHtmlPath cwd source home) = absPath pageDir
  /\ computeOutputHtmlPath cwd target home = absPath targetPage
  /\ designates cwd (absPath pageDir) (mdHref cwd source home decoded)
     = absPath targetPage
  /\ path.isAbsolute (mdHref cwd source home decoded) = false.
Proof.
  intros HR Hd Hb Hbdot Hbmd He Hc Hcdot Hcmd cwd source target
         Hres Hix Hhtml.
  set (s' := if isHome d b home then []
             else d ++ [strip_suffix_ci (js ".md") b]).
  set (o' := if isHome e c home then []
             else e ++ [strip_suffix_ci (js ".md") c]).
  intros pageDir targetPage.
  assert (Hs' : names s' = true).
  { unfold s'. destruct (isHome d b home); trivial.
    rewrite names_app, Hd. unfold names. cbn [forallb].
    now rewrite md_stem_isName. }
  assert (Ho' : names o' = true).
  { unfold o'. destruct (isHome e c home); trivial.
    rewrite names_app, He. unfold names. cbn [forallb].
    now rewrite md_stem_isName. }
  assert (NS : names pageDir = true)
    by (unfold pageDir; now rewrite names_app, (names_siteSegs R HR)).
  assert (NO : names (siteSegs R ++ o') = true)
    by now rewrite names_app, (names_siteSegs R HR).
  assert (ES : computeOutputHtmlPath cwd source home
               = absPath (pageDir ++ [indexHtml])).
  { unfold cwd, source, pageDir. rewrite page_of_found_file by assumption.
    now rewrite app_assoc. }
  assert (ET : computeOutputHtmlPath cwd target home
               = absPath ((siteSegs R ++ o') ++ [indexHtml])).
  { unfold cwd, target. rewrite page_of_found_file by assumption.
    now rewrite app_assoc. }
  assert (ED : path.dirname (computeOutputHtmlPath cwd source home)
               = absPath pageDir)
    by (rewrite ES; now apply dirname_absPath).
  assert (EP : targetPage = (siteSegs R ++ o') ++ [indexHtml])
    by (unfold targetPage; now rewrite app_assoc).
  split; [exact ED|]. split; [now rewrite EP|]. split.
  - pose proof (mdHref_round_trip R source home decoded
                  pageDir (siteSegs R ++ o')) as G.
    cbv zeta in G. fold cwd in G. rewrite Hres, ED, ET in G. rewrite EP.
    apply G; trivial.
    + unfold pageDir. rewrite <- app_assoc, isPrefix_app_cancel.
      destruct (isPrefix (o' ++ [indexHtml]) s') eqn:E; trivial.
      apply isPrefix_snoc_In in E. exfalso. unfold s' in E.
      destruct (isHome d b home); [destruct E | now apply Hix].
    + unfold o'. destruct (isHome e c home).
      * rewrite app_nil_r. unfold siteSegs.
        now rewrite basename_absPath.
      * rewrite app_assoc, basename_absPath; trivial.
        apply isName_isSeg. now apply md_stem_isName.
  - unfold mdHref. rewrite Hres. fold cwd. rewrite ED, ET.
    now apply pageHref_relative.
Qed.

(** C7, as stated, fails: not every local Markdown reference with a
    query and a fragment is rewritten.  The path part is passed to
    [decodeURI], outside any [try], and a malformed percent-escape in
    it makes the rewriting throw. *)
Lemma C7_undecodable_reference_counterexample :
  let raw := js "50%off.md?x=1#sec" in
  isAbsoluteUrl raw = false /\ isMailOrTel raw = false
  /\ splitAt (ch "?") (fst (splitAt (ch "#") raw)) = (js "50%off.md", js "?x=1")
  /\ isMarkdown (js "50%off.md") = true
  /\ processAttr (js "/repo") (js "/repo/a/b.md") (js "README.md")
       (anchor raw) (js "href")
     = Throw URIError.
Proof. repeat split; vm_compute; reflexivity. Qed.

(** C7, amended.  A local Markdown reference [url?q#h] whose path
    part [decodeURI] accepts, written in a document below the content
    root and naming a document below it, is rewritten to [p?q#h]:
    query and fragment are untouched and follow the path in that
    order.  The path [p] is the one the bare reference [url] is
    rewritten to; it is relative, and followed from the directory of
    the source's page, [_site/<directory>/<name>], it designates the
    output location of the target,
    [_site/<directory>/<name>/index.html], or [_site/index.html] for
    the home document.  Excluded are targets whose name without [.md]
    ends in [.html] and sources with [index.html] among the names of
    their page's directory. *)
Theorem C7_query_and_fragment_preserved
    (R d e : list jsstring) (b c home : jsstring) (el : element)
    (attrName url q h decoded : jsstring) :
  names R = true ->
  names d = true -> isName b = true ->
  startsWith (js ".") b = false -> isMarkdown b = true ->
  names e = true -> isName c = true ->
  startsWith (js ".") c = false -> isMarkdown c = true ->
  let cwd := absPath R in
  let source := absPath (R ++ d ++ [b]) in
  let target := absPath (R ++ e ++ [c]) in
  noChar (ch "#") url = true -> noChar (ch "?") url = true ->
  noChar (ch "#") q = true ->
  isMarkdown url = true ->
  decodeURI url = Ok decoded ->
  path.resolve cwd [path.dirname source; decoded] = target ->
  let raw := url ++ ch "?" :: q ++ ch "#" :: h in
  isAbsoluteUrl raw = false -> isMailOrTel raw = false ->
  getAttribute el attrName = Some raw ->
  ~ In indexHtml (d ++ [strip_suffix_ci (js ".md") b]) ->
  ends_with_ci (js ".html") (strip_suffix_ci (js ".md") c) = false ->
  let pageDir :=
    siteSegs R ++ (if isHome d b home then []
                   else d ++ [strip_suffix_ci (js ".md") b]) in
  let targetPage :=
    siteSegs R ++ (if isHome e c home then []
                   else e ++ [strip_suffix_ci (js ".md") c])
    ++ [indexHtml] in
  exists p,
    processAttr cwd source home el attrName
    = Ok (setAttribute el attrName (p ++ (ch "?" :: q) ++ (ch "#" :: h)))
    /\ processAttr cwd source home (setAttribute el attrName url) attrName
       = Ok (setAttribute (setAttribute el attrName url) attrName p)
    /\ path.isAbsolute p = false
    /\ path.dirname (computeOutputHtmlPath cwd source home) = absPath pageDir
    /\ computeOutputHtmlPath cwd target home = absPath targetPage
    /\ designates cwd (absPath pageDir) p = absPath targetPage.
Proof.
  intros HR Hd Hb Hbdot Hbmd He Hc Hcdot Hcmd cwd source target
         Hu1 Hu2 Hq Hmd Hdec Hres raw Habs Hmail Hget Hix Hhtml
         pageDir targetPage.
  destruct (mdHref_leads_to_the_page R d e b c home decoded
              HR Hd Hb Hbdot Hbmd He Hc Hcdot Hcmd Hres Hix Hhtml)
    as [ED [ET [G Hrel]]].
  exists (mdHref cwd source home decoded).
  split; [|split; [|repeat split; assumption]].
  - apply processAttr_markdown with (raw := raw) (rest := url ++ ch "?" :: q)
                                    (url := url); trivial.
    + unfold raw.
      replace (url ++ ch "?" :: q ++ ch "#" :: h)
        with ((url ++ ch "?" :: q) ++ ch "#" :: h)
        by now rewrite <- app_assoc.
      apply splitAt_app. rewrite noChar_app, Hu1.
      change (noChar (ch "#") (ch "?" :: q)) with (noChar (ch "#") q).
      now rewrite Hq.
    + now apply splitAt_app.
  - pose proof (processAttr_markdown cwd source home
                  (setAttribute el attrName url) attrName url url url [] []
                  decoded) as P.
    simpl app in P. rewrite app_nil_r in P. apply P; trivial.
    + unfold getAttribute, setAttribute. simpl. apply lookupAttr_updateAttr.
    + destruct (isAbsoluteUrl url) eqn:E; trivial.
      unfold isAbsoluteUrl in *.
      apply orb_false_iff in Habs as [Habs H3].
      apply orb_false_iff in Habs as [H1 H2].
      apply orb_true_iff in E as [E|E];
        [apply orb_true_iff in E as [E|E]|];
        apply (prefix_ci_app_l _ _ (ch "?" :: q ++ ch "#" :: h)) in E;
        fold raw in E; congruence.
    + destruct (isMailOrTel url) eqn:E; trivial.
      unfold isMailOrTel in *.
      apply orb_false_iff in Hmail as [H1 H2].
      apply orb_true_iff in E as [E|E];
        apply (prefix_ci_app_l _ _ (ch "?" :: q ++ ch "#" :: h)) in E;
        fold raw in E; congruence.
    + now apply splitAt_none.
    + now apply splitAt_none.
Qed.

Lemma C7_query_and_fragment_preserved_witness :
  let cwd := js "/repo" in
  let el := anchor (js "foo.md?x=1#sec") in
  processAttr cwd (js "/repo/a/b.md") (js "README.md") el (js "href")
  = Ok (anchor (js "../foo?x=1#sec"))
  /\ exists p,
       processAttr cwd (js "/repo/a/b.md") (js "README.md") el (js "href")
       = Ok (setAttribute el (js "href") (p ++ js "?x=1" ++ js "#sec"))
       /\ path.isAbsolute p = false
       /\ designates cwd (js "/repo/_site/a/b") p
          = js "/repo/_site/a/foo/index.html".
Proof.
  split; [vm_compute; reflexivity|].
  destruct (C7_query_and_fragment_preserved
              [js "repo"] [js "a"] [js "a"] (js "b.md") (js "foo.md")
              (js "README.md") (anchor (js "foo.md?x=1#sec")) (js "href")
              (js "foo.md") (js "x=1") (js "sec") (js "foo.md"))
    as [p [E1 [_ [E2 [_ [_ E3]]]]]]; try (vm_compute; reflexivity).
  - vm_compute. intros [E|[E|[]]]; discriminate.
  - exists p. split; [exact E1|]. split; [exact E2 | exact E3].
Defined.

(** X7.  A local reference to a Markdown document, however it is
    spelled, is rewritten to a reference to the page of that document:
    for a source and a target that the walk can find below the content
    root, the rewritten path, followed from the directory of the
    source's page, designates the output location of the target, and
    the query and the fragment are appended unchanged.  Excluded are
    targets whose name without [.md] ends in [.html] and sources with
    [index.html] among the names of their page's directory. *)
Theorem markdown_links_lead_to_the_page_of_their_target
    (R d e : list jsstring) (b c home : jsstring) (el : element)
    (attrName raw rest url query hash decoded : jsstring) :
  names R = true ->
  names d = true -> isName b = true ->
  startsWith (js ".") b = false -> isMarkdown b = true ->
  names e = true -> isName c = true ->
  startsWith (js ".") c = false -> isMarkdown c = true ->
  let cwd := absPath R in
  let source := absPath (R ++ d ++ [b]) in
  let target := absPath (R ++ e ++ [c]) in
  getAttribute el attrName = Some raw ->
  isAbsoluteUrl raw = false -> isMailOrTel raw = false ->
  splitAt (ch "#") raw = (rest, hash) ->
  splitAt (ch "?") rest = (url, query) ->
  isMarkdown url = true -> decodeURI url = Ok decoded ->
  path.resolve cwd [path.dirname source; decoded] = target ->
  ~ In indexHtml (d ++ [strip_suffix_ci (js ".md") b]) ->
  ends_with_ci (js ".html") (strip_suffix_ci (js ".md") c) = false ->
  exists v,
    processAttr cwd source home el attrName
    = Ok (setAttribute el attrName (v ++ query ++ hash))
    /\ designates cwd (path.dirname (computeOutputHtmlPath cwd source home)) v
       = computeOutputHtmlPath cwd target home.
Proof.
  intros HR Hd Hb Hbdot Hbmd He Hc Hcdot Hcmd cwd source target
         Hget Habs Hmail Hh Hq Hmd Hdec Hres Hix Hhtml.
  exists (mdHref cwd source home decoded). split.
  - now apply processAttr_markdown with (raw := raw) (rest := rest) (url := url).
  - destruct (mdHref_leads_to_the_page R d e b c home decoded
                HR Hd Hb Hbdot Hbmd He Hc Hcdot Hcmd Hres Hix Hhtml)
      as [ED [ET [G _]]].
    fold cwd source target in ED, ET, G. now rewrite ED, ET.
Qed.

Lemma markdown_links_lead_to_the_page_of_their_target_witness :
  let cwd := js "/srv/repo" in
  exists v,
    processAttr cwd (js "/srv/repo/docs/guide.md") (js "README.md")
      (anchor (js "../notes/a%20b.md?x=1#top")) (js "href")
    = Ok (setAttribute (anchor (js "../notes/a%20b.md?x=1#top")) (js "href")
            (v ++ js "?x=1" ++ js "#top"))
    /\ designates cwd
         (path.dirname
            (computeOutputHtmlPath cwd (js "/srv/repo/docs/guide.md")
               (js "README.md"))) v
       = computeOutputHtmlPath cwd (js "/srv/repo/notes/a b.md") (js "README.md").
Proof.
  apply (markdown_links_lead_to_the_page_of_their_target
           [js "srv"; js "repo"] [js "docs"] [js "notes"]
           (js "guide.md") (js "a b.md") (js "README.md")
           (anchor (js "../notes/a%20b.md?x=1#top")) (js "href")
           (js "../notes/a%20b.md?x=1#top") (js "../notes/a%20b.md?x=1")
           (js "../notes/a%20b.md") (js "?x=1") (js "#top")
           (js "../notes/a b.md"));
    try (vm_compute; reflexivity).
  vm_compute. intros [E|[E|[]]]; discriminate.
Defined.

(** ** The stylesheet *)

Lemma hexDigitOf_hex (d : N) : d < 16 -> isHexDigit (hexDigitOf d) = true.
Proof.
  intros H. unfold isHexDigit, hexDigitOf.
  destruct (d <? 10) eqn:E.
  - apply N.ltb_lt in E.
    replace (48 <=? 48 + d) with true by (symmetry; apply N.leb_le; lia).
    replace (48 + d <=? 57) with true by (symmetry; apply N.leb_le; lia).
    reflexivity.
  - apply N.ltb_ge in E.
    replace (97 <=? 87 + d) with true by (symmetry; apply N.leb_le; lia).
    replace (87 + d <=? 102) with true by (symmetry; apply N.leb_le; lia).
    apply orb_true_r.
Qed.

Lemma hexOf_hex (octets : list N) : forallb isHexDigit (hexOf octets) = true.
Proof.
  induction octets as [|o l IH]; trivial. unfold hexOf in *. cbn [flat_map app].
  cbn [forallb]. rewrite IH, !hexDigitOf_hex; trivial; now apply N.mod_lt.
Qed.

Lemma forallb_firstn {A : Type} (f : A -> bool) (n : nat) (l : list A) :
  forallb f l = true -> forallb f (firstn n l) = true.
Proof.
  revert l. induction n as [|n IH]; intros [|x l] H; trivial.
  cbn in *. apply andb_prop in H as [Hx Hl]. now rewrite Hx, IH.
Qed.

Lemma forallb_impl {A : Type} (f g : A -> bool) (l : list A) :
  (forall x, f x = true -> g x = true) ->
  forallb f l = true -> forallb g l = true.
Proof.
  intros H. induction l as [|x l IH]; trivial. cbn. intros E.
  apply andb_prop in E as [Ex El]. now rewrite (H _ Ex), IH.
Qed.

Lemma isHexDigit_tame (c : N) : isHexDigit c = true -> tame c = true.
Proof.
  unfold isHexDigit, tame, CHAR_FORWARD_SLASH. intros H.
  apply orb_prop in H as [H|H]; apply andb_prop in H as [H1 H2];
    apply N.leb_le in H1, H2;
    replace (c =? 47) with false by (symmetry; apply N.eqb_neq; lia);
    replace (c =? 92) with false by (symmetry; apply N.eqb_neq; lia);
    reflexivity.
Qed.

Lemma stylesheet_filename (hash : jsstring) :
  forallb isHexDigit hash = true ->
  let filename := js "style." ++ hash ++ js ".css" in
  isName filename = true /\ forallb tame filename = true.
Proof.
  intros H filename.
  assert (T : forallb tame filename = true).
  { unfold filename. rewrite !forallb_app.
    rewrite (forallb_impl _ _ _ isHexDigit_tame H). reflexivity. }
  split; trivial. unfold isName, isSeg.
  assert (NSl : noSlash filename = true).
  { unfold noSlash. apply (forallb_impl tame); trivial.
    intros x Hx. unfold tame in Hx. now apply andb_prop in Hx as [Hx _]. }
  rewrite NSl. reflexivity.
Qed.

Lemma slashes_tame (s : jsstring) :
  forallb (fun c => negb (c =? 92)) s = true -> slashes s = s.
Proof.
  induction s as [|c s IH]; trivial. cbn. intros H.
  apply andb_prop in H as [Hc Hs]. apply negb_true_iff in Hc.
  unfold slashes in *. cbn [map]. now rewrite Hc, IH.
Qed.

Lemma no_backslash_joinSlash (l : list jsstring) :
  Forall (fun x => forallb (fun c => negb (c =? 92)) x = true) l ->
  forallb (fun c => negb (c =? 92)) (joinSlash l) = true.
Proof.
  induction 1 as [|x l Hx Hl IH]; trivial.
  destruct l as [|y l]; [exact Hx|].
  change (joinSlash (x :: y :: l)) with (x ++ CHAR_FORWARD_SLASH :: joinSlash (y :: l)).
  rewrite forallb_app, Hx. cbn [forallb andb]. now rewrite IH.
Qed.

Lemma relSegs_app (C A B : list jsstring) :
  relSegs (C ++ A) (C ++ B) = relSegs A B.
Proof. unfold relSegs. now rewrite dropCommon_app. Qed.

Lemma relSegs_no_backslash (A B : list jsstring) :
  Forall (fun x => forallb (fun c => negb (c =? 92)) x = true) B ->
  Forall (fun x => forallb (fun c => negb (c =? 92)) x = true) (relSegs A B).
Proof.
  intros H. unfold relSegs. apply Forall_app. split.
  - unfold upsOf. apply Forall_forall. intros x Hx.
    apply in_map_iff in Hx as [_ [<- _]]. reflexivity.
  - destruct (dropCommon_split A B) as [C [_ E]].
    rewrite E in H. now apply Forall_app in H as [_ H].
Qed.

(** What [copyStylesheet] does when the template has a stylesheet. *)
Lemma copyStylesheet_writes (R : list jsstring) (fs : filesystem)
    (sha1 : jsstring -> list N) (css : jsstring) :
  names R = true ->
  fs (absPath (R ++ [js ".render"; js "template"; js "style.css"]))
  = Some (File css) ->
  let filename := js "style." ++ firstn 8 (hexOf (sha1 css)) ++ js ".css" in
  let dest := absPath (siteSegs R ++ [js "assets"; filename]) in
  isName filename = true
  /\ copyStylesheet (absPath R) fs sha1
     = ([Mkdir (absPath (siteSegs R ++ [js "assets"])); WriteFile dest css],
        Some dest).
Proof.
  intros HR Hfs filename dest.
  destruct (stylesheet_filename (firstn 8 (hexOf (sha1 css))))
    as [Nf Tf]; [apply forallb_firstn, hexOf_hex|]. fold filename in Nf, Tf.
  pose proof (names_siteSegs R HR) as NSite.
  split; [exact Nf|].
  unfold copyStylesheet, RENDER_ROOT, REPO_ROOT.
  rewrite (OUTPUT_ROOT_abs R HR).
  assert (E : path.join [path.join [absPath R; js ".render"];
                         js "template"; js "style.css"]
              = absPath (R ++ [js ".render"; js "template"; js "style.css"])).
  { rewrite join_abs_name by (trivial; reflexivity).
    rewrite join_abs3 by (try reflexivity; now rewrite names_app, HR).
    rewrite split_noSlash by reflexivity.
    rewrite normalizeSegs_names by reflexivity.
    rewrite rev_app_distr, !rev_involutive.
    now rewrite <- !app_assoc. }
  rewrite E. unfold fs_readFile. rewrite Hfs.
  rewrite join_abs_name by (trivial; reflexivity).
  rewrite join_abs_name by (trivial; now rewrite names_app, NSite).
  fold filename. unfold dest. now rewrite <- !app_assoc.
Qed.

(** X8.  [copyStylesheet] writes the stylesheet of the template to
    [_site/assets/style.<hash>.css], the hash being the first eight
    hexadecimal digits of the digest of its content, and returns that
    location; the stylesheet reference [renderPage] computes for the
    page of a Markdown file, resolved from the directory of the page,
    leads to that file.  (The page directory coinciding with the
    stylesheet's location is excluded.) *)
Theorem stylesheet_reference_leads_to_the_copied_stylesheet
    (R d : list jsstring) (b home : jsstring) (fs : filesystem)
    (sha1 : jsstring -> list N) (css : jsstring) :
  names R = true -> names d = true -> isName b = true ->
  startsWith (js ".") b = false -> isMarkdown b = true ->
  let cwd := absPath R in
  let mdPath := absPath (R ++ d ++ [b]) in
  let pageDir := path.dirname (computeOutputHtmlPath cwd mdPath home) in
  fs (absPath (R ++ [js ".render"; js "template"; js "style.css"]))
  = Some (File css) ->
  let filename := js "style." ++ firstn 8 (hexOf (sha1 css)) ++ js ".css" in
  let dest := absPath (siteSegs R ++ [js "assets"; filename]) in
  copyStylesheet cwd fs sha1
  = ([Mkdir (absPath (siteSegs R ++ [js "assets"])); WriteFile dest css],
     Some dest)
  /\ (pageDir <> dest ->
      path.resolve cwd [pageDir; stylesheetHref cwd mdPath home (Some dest)]
      = dest).
Proof.
  intros HR Hd Hb Hdot Hmd cwd mdPath pageDir Hfs filename dest.
  destruct (stylesheet_filename (firstn 8 (hexOf (sha1 css))))
    as [Nf Tf]; [apply forallb_firstn, hexOf_hex|]. fold filename in Nf, Tf.
  pose proof (names_siteSegs R HR) as NSite.
  split.
  - unfold cwd. now apply copyStylesheet_writes.
  - intros Hneq. unfold stylesheetHref. fold pageDir.
    destruct (inside_page R d b home HR Hd Hb Hdot Hmd) as [_ [s' [Hs' ES]]].
    fold cwd in ES. fold mdPath in ES. fold pageDir in ES.
    assert (NT : names (siteSegs R ++ [js "assets"; filename]) = true).
    { rewrite names_app, NSite. unfold names. cbn [forallb].
      now rewrite Nf. }
    assert (NS : names (siteSegs R ++ s') = true)
      by now rewrite names_app, NSite.
    rewrite ES in *. unfold dest in *.
    assert (Hsl : slashes (toRelativeHref cwd (absPath (siteSegs R ++ s'))
                     (absPath (siteSegs R ++ [js "assets"; filename])))
                  = toRelativeHref cwd (absPath (siteSegs R ++ s'))
                      (absPath (siteSegs R ++ [js "assets"; filename]))).
    { unfold cwd. rewrite toRelativeHref_abs by assumption.
      destruct (is_empty _); [reflexivity|].
      apply slashes_tame, no_backslash_joinSlash.
      rewrite relSegs_app. apply relSegs_no_backslash.
      repeat constructor.
      apply (forallb_impl tame); trivial. intros x Hx. unfold tame in Hx.
      now apply andb_prop in Hx as [_ Hx]. }
    rewrite Hsl. unfold cwd. rewrite toRelativeHref_resolves by assumption.
    apply str_eqb_neq in Hneq. now rewrite Hneq.
Qed.

Lemma stylesheet_reference_leads_to_the_copied_stylesheet_witness :
  let cwd := js "/srv/repo" in
  let dest := js "/srv/repo/_site/assets/style.da39a3ee.css" in
  copyStylesheet cwd styleTree sampleDigest
  = ([Mkdir (js "/srv/repo/_site/assets"); WriteFile dest (js "body{}")],
     Some dest)
  /\ stylesheetHref cwd (js "/srv/repo/docs/guide.md") (js "README.md") (Some dest)
     = js "../../assets/style.da39a3ee.css"
  /\ path.resolve cwd
       [js "/srv/repo/_site/docs/guide";
        stylesheetHref cwd (js "/srv/repo/docs/guide.md") (js "README.md")
          (Some dest)]
     = dest.
Proof.
  destruct (stylesheet_reference_leads_to_the_copied_stylesheet
              [js "srv"; js "repo"] [js "docs"] (js "guide.md") (js "README.md")
              styleTree sampleDigest (js "body{}")) as [H1 H2];
    try (vm_compute; reflexivity).
  split; [exact H1|]. split; [vm_compute; reflexivity|].
  apply H2. vm_compute. discriminate.
Defined.

(** ** [escapeHtml] *)

Lemma escapeChar_cases (c : N) :
  (c = 38 /\ escapeChar c = js "&amp;")
  \/ (c = 60 /\ escapeChar c = js "&lt;")
  \/ (c = 62 /\ escapeChar c = js "&gt;")
  \/ (c = 34 /\ escapeChar c = js "&quot;")
  \/ (c = 39 /\ escapeChar c = js "&#039;")
  \/ (c <> 38 /\ isMarkupChar c = false /\ escapeChar c = [c]).
Proof.
  unfold escapeChar, isMarkupChar.
  destruct (c =? 38) eqn:E1; [apply N.eqb_eq in E1; now left|].
  destruct (c =? 60) eqn:E2; [apply N.eqb_eq in E2; right; now left|].
  destruct (c =? 62) eqn:E3; [apply N.eqb_eq in E3; right; right; now left|].
  destruct (c =? 34) eqn:E4;
    [apply N.eqb_eq in E4; right; right; right; now left|].
  destruct (c =? 39) eqn:E5;
    [apply N.eqb_eq in E5; right; right; right; right; now left|].
  apply N.eqb_neq in E1. repeat right. auto.
Qed.

Lemma escapeHtml_cons (c : N) (text : jsstring) :
  escapeHtml (c :: text) = escapeChar c ++ escapeHtml text.
Proof. reflexivity. Qed.

(** X9.  The text [escapeHtml] returns contains none of the
    characters [<], [>], double quote and apostrophe, and every
    ampersand in it starts one of the five character references
    [&amp;], [&lt;], [&gt;], [&quot;] and [&#039;]. *)
Theorem escapeHtml_leaves_no_markup (text : jsstring) :
  wellEscaped (escapeHtml text) = true.
Proof.
  induction text as [|c text IH]; [reflexivity|].
  rewrite escapeHtml_cons.
  destruct (escapeChar_cases c)
    as [[_ E]|[[_ E]|[[_ E]|[[_ E]|[[_ E]|[Hc [Hm E]]]]]]]; rewrite E.
  1-5: cbn; exact IH.
  cbn [app wellEscaped]. apply N.eqb_neq in Hc. now rewrite Hc, Hm, IH.
Qed.

Lemma escapeChar_inj (c c' : N) (x y : jsstring) :
  escapeChar c ++ x = escapeChar c' ++ y -> c = c' /\ x = y.
Proof.
  destruct (escapeChar_cases c)
    as [[-> E]|[[-> E]|[[-> E]|[[-> E]|[[-> E]|[Hc [Hm E]]]]]]]; rewrite E;
  destruct (escapeChar_cases c')
    as [[-> E']|[[-> E']|[[-> E']|[[-> E']|[[-> E']|[Hc' [Hm' E']]]]]]];
    rewrite E'; cbn; intros H; inversion H; subst; try discriminate;
    try congruence; auto.
Qed.

(** X10.  [escapeHtml] loses no information: texts with the same
    escaped form are equal. *)
Theorem escapeHtml_loses_nothing (a b : jsstring) :
  escapeHtml a = escapeHtml b -> a = b.
Proof.
  revert b. induction a as [|c a IH]; intros [|c' b] H; trivial.
  - rewrite escapeHtml_cons in H. exfalso.
    destruct (escapeChar_cases c')
      as [[_ E]|[[_ E]|[[_ E]|[[_ E]|[[_ E]|[_ [_ E]]]]]]];
      rewrite E in H; discriminate.
  - rewrite escapeHtml_cons in H. exfalso.
    destruct (escapeChar_cases c)
      as [[_ E]|[[_ E]|[[_ E]|[[_ E]|[[_ E]|[_ [_ E]]]]]]];
      rewrite E in H; discriminate.
  - rewrite !escapeHtml_cons in H. apply escapeChar_inj in H as [-> H].
    f_equal. now apply IH.
Qed.

Lemma escapeHtml_loses_nothing_witness :
  escapeHtml (js "a<b & c") = js "a&lt;b &amp; c"
  /\ js "a<b & c" = js "a<b & c".
Proof.
  split; [vm_compute; reflexivity|].
  apply (escapeHtml_loses_nothing (js "a<b & c") (js "a<b & c")).
  reflexivity.
Defined.

(** ** Frontmatter *)

Lemma takeWhile_dropWhile (f : N -> bool) (s : jsstring) :
  takeWhile f s ++ dropWhile f s = s.
Proof.
  induction s as [|c s IH]; trivial. cbn. destruct (f c); cbn; congruence.
Qed.

Lemma takeWhile_all (f : N -> bool) (s : jsstring) :
  forallb f (takeWhile f s) = true.
Proof.
  induction s as [|c s IH]; trivial. cbn. destruct (f c) eqn:E; trivial.
  cbn. now rewrite E.
Qed.

Lemma dropWhile_idem (f : N -> bool) (s : jsstring) :
  dropWhile f (dropWhile f s) = dropWhile f s.
Proof.
  induction s as [|c s IH]; trivial. cbn. destruct (f c) eqn:E; trivial.
  cbn. now rewrite E.
Qed.

Lemma startsWith_skipn (p s : jsstring) :
  startsWith p s = true -> s = p ++ skipn (length p) s.
Proof.
  revert s. induction p as [|a p IH]; intros [|c s] H; try discriminate; trivial.
  cbn in H. apply andb_prop in H as [H1 H2]. apply N.eqb_eq in H1. subst c.
  cbn. f_equal. now apply IH.
Qed.

Lemma startsWith_app_self (p s : jsstring) : startsWith p (p ++ s) = true.
Proof. induction p as [|a p IH]; trivial. cbn. now rewrite N.eqb_refl. Qed.

(** What [fmClose] finds: the capture, the closing line and the white
    space behind it, which is swallowed whole. *)
Lemma fmClose_shape (r cap rest : jsstring) :
  fmClose r = Some (cap, rest) ->
  exists w2, r = cap ++ [LF] ++ js "---" ++ w2 ++ rest
             /\ forallb is_ws w2 = true /\ dropWhile is_ws rest = rest.
Proof.
  revert cap. induction r as [|c r IH]; intros cap H; [discriminate|].
  cbn [fmClose] in H.
  destruct (startsWith [LF; 45; 45; 45] (c :: r)) eqn:E.
  - inversion H; subst. clear H.
    exists (takeWhile is_ws (skipn 4 (c :: r))). split; [|split].
    + rewrite takeWhile_dropWhile. cbn [app].
      now apply (startsWith_skipn [LF; 45; 45; 45]).
    + apply takeWhile_all.
    + apply dropWhile_idem.
  - destruct (fmClose r) as [[cap' rest']|] eqn:E'; [|discriminate].
    inversion H; subst. destruct (IH cap' eq_refl) as [w2 [Er [Hw Hr]]].
    exists w2. split; [|now split]. cbn [app]. f_equal. exact Er.
Qed.

Lemma fmOpen_shape (w after cap rest : jsstring) :
  fmOpen w after = Some (cap, rest) ->
  exists w1 w1', w = w1 ++ LF :: w1'
                 /\ fmClose (w1' ++ after) = Some (cap, rest).
Proof.
  induction w as [|c w IH]; intros H; [discriminate|].
  cbn [fmOpen] in H. destruct (fmOpen w after) as [[cap' rest']|] eqn:E.
  - inversion H; subst. destruct (IH eq_refl) as [w1 [w1' [Ew Hc]]].
    exists (c :: w1), w1'. split; [now rewrite Ew | exact Hc].
  - destruct (c =? LF) eqn:Ec; [|discriminate]. apply N.eqb_eq in Ec. subst c.
    now exists [], w.
Qed.

Lemma matchFrontmatter_shape (md block rest : jsstring) :
  matchFrontmatter md = Some (block, rest) ->
  exists w1 w2,
    md = js "---" ++ w1 ++ [LF] ++ block ++ [LF] ++ js "---" ++ w2 ++ rest
    /\ forallb is_ws w1 = true /\ forallb is_ws w2 = true
    /\ dropWhile is_ws rest = rest.
Proof.
  unfold matchFrontmatter. intros H.
  destruct (startsWith [45; 45; 45] md) eqn:E; [|discriminate].
  apply (startsWith_skipn [45; 45; 45]) in E. cbn [length] in E.
  set (rest0 := skipn 3 md) in *.
  apply fmOpen_shape in H as [w1 [w1' [Ew Hc]]].
  apply fmClose_shape in Hc as [w2 [Er [Hw2 Hr]]].
  exists w1, w2. split; [|split; [|split]]; trivial.
  - rewrite E, <- (takeWhile_dropWhile is_ws rest0), Ew.
    change (js "---") with [45; 45; 45]. cbn [app]. do 3 f_equal.
    rewrite <- app_assoc. f_equal. cbn [app]. f_equal. exact Er.
  - pose proof (takeWhile_all is_ws rest0) as A. rewrite Ew in A.
    rewrite forallb_app in A. now apply andb_prop in A as [A _].
Qed.

(** X11.  [parseYamlFrontmatter] always returns, and in one of two
    ways.  Either the document is its own body and the attributes are
    empty; or the document reads [---], white space, a line feed, the
    block, a line feed, [---], white space, and then the body, which
    does not start with white space: whatever follows the closing
    fence up to the first character that is not white space is
    dropped.  The attributes are then what [yaml.load] makes of the
    block, or empty when it fails or returns a falsy value. *)
Theorem frontmatter_is_cut_off_the_top
    (yaml_load : jsstring -> result yaml) (md : jsstring) :
  exists fm,
    parseYamlFrontmatter yaml_load md = Ok fm
    /\ (fm = {| attributes := YMap []; body := md |}
        \/ exists w1 block w2,
             md = js "---" ++ w1 ++ [LF] ++ block ++ [LF] ++ js "---"
                  ++ w2 ++ body fm
             /\ forallb is_ws w1 = true /\ forallb is_ws w2 = true
             /\ dropWhile is_ws (body fm) = body fm
             /\ attributes fm = match yaml_load block with
                                | Ok v => if truthy v then v else YMap []
                                | Throw _ => YMap []
                                end).
Proof.
  unfold parseYamlFrontmatter.
  destruct (matchFrontmatter md) as [[block rest]|] eqn:E.
  - destruct (matchFrontmatter_shape md block rest E) as [w1 [w2 [Emd [H1 [H2 H3]]]]].
    destruct (yaml_load block) as [v|e] eqn:Ey; cbn [bind try_catch];
      (eexists; split; [reflexivity|]; right; exists w1, block, w2;
       cbn [body attributes]; rewrite Ey; auto).
  - eexists. split; [reflexivity|]. now left.
Qed.

Lemma findFirst_none_cons (pat : jsstring) (c : N) (s : jsstring) :
  findFirst pat (c :: s) = None ->
  startsWith pat (c :: s) = false /\ findFirst pat s = None.
Proof.
  cbn [findFirst]. destruct (startsWith pat (c :: s)); [discriminate|].
  destruct (findFirst pat s) as [[pre post]|]; [discriminate|]. auto.
Qed.

Lemma findFirst_complete (pat a b : jsstring) :
  findFirst pat (a ++ pat ++ b) <> None.
Proof.
  induction a as [|c a IH].
  - cbn [app]. destruct (pat ++ b) eqn:E; cbn [findFirst];
      rewrite <- E, startsWith_app_self; discriminate.
  - cbn [app findFirst]. destruct (startsWith pat (c :: a ++ pat ++ b));
      [discriminate|].
    destruct (findFirst pat (a ++ pat ++ b)) as [[pre post]|];
      [discriminate | congruence].
Qed.

(** The closing line cannot start inside the text before it unless it
    already occurs there. *)
Lemma startsWith_fence_app (s x : jsstring) :
  s <> [] ->
  startsWith [LF; 45; 45; 45] (s ++ [LF; 45; 45; 45] ++ x)
  = startsWith [LF; 45; 45; 45] s.
Proof.
  intros Hs. destruct s as [|a [|b [|c [|d s]]]]; [congruence| | | |];
    cbn [app startsWith]; trivial;
    change (LF =? 45) with false; rewrite ?andb_false_r; reflexivity.
Qed.

Lemma fmClose_first (block x : jsstring) :
  findFirst [LF; 45; 45; 45] block = None ->
  fmClose (block ++ [LF; 45; 45; 45] ++ x) = Some (block, dropWhile is_ws x).
Proof.
  induction block as [|c block IH]; intros H.
  - reflexivity.
  - apply findFirst_none_cons in H as [H1 H2].
    change ((c :: block) ++ [LF; 45; 45; 45] ++ x)
      with (c :: (block ++ [LF; 45; 45; 45] ++ x)).
    cbn [fmClose].
    change (c :: block ++ [LF; 45; 45; 45] ++ x)
      with ((c :: block) ++ [LF; 45; 45; 45] ++ x).
    rewrite startsWith_fence_app, H1 by discriminate.
    now rewrite (IH H2).
Qed.

Lemma parseYamlFrontmatter_fenced
    (yaml_load : jsstring -> result yaml) (block rest : jsstring) :
  block <> [] -> takeWhile is_ws block = [] ->
  findFirst (LF :: js "---") block = None ->
  parseYamlFrontmatter yaml_load
    (js "---" ++ [LF] ++ block ++ [LF] ++ js "---" ++ [LF] ++ rest)
  = Ok {| attributes := match yaml_load block with
                        | Ok v => if truthy v then v else YMap []
                        | Throw _ => YMap []
                        end;
          body := dropWhile is_ws rest |}.
Proof.
  intros Hne Hws Hfence. unfold parseYamlFrontmatter, matchFrontmatter.
  destruct block as [|c block]; [congruence|].
  assert (Hc : is_ws c = false).
  { cbn [takeWhile] in Hws. destruct (is_ws c); [discriminate | reflexivity]. }
  change (startsWith [45; 45; 45]
            (js "---" ++ [LF] ++ (c :: block) ++ [LF] ++ js "---" ++ [LF] ++ rest))
    with true. cbv iota.
  change (skipn 3 (js "---" ++ [LF] ++ (c :: block) ++ [LF] ++ js "---"
                   ++ [LF] ++ rest))
    with (LF :: c :: block ++ [LF] ++ js "---" ++ [LF] ++ rest).
  cbn [takeWhile dropWhile]. change (is_ws LF) with true. cbv iota.
  rewrite Hc. cbn [fmOpen]. rewrite N.eqb_refl.
  change ([] ++ c :: block ++ [LF] ++ js "---" ++ [LF] ++ rest)
    with ((c :: block) ++ [LF; 45; 45; 45] ++ LF :: rest).
  rewrite (fmClose_first _ _ Hfence).
  cbn [dropWhile]. change (is_ws LF) with true. cbv iota.
  destruct (yaml_load (c :: block)); reflexivity.
Qed.

(** X12.  A block between two [---] lines at the very top of the
    document is its frontmatter: when the block starts with a character
    that is not white space and none of its lines starts with [---],
    the attributes are loaded from exactly that block, and the body is
    the text after the closing line without its leading white space.
    A title of the loaded mapping that is a string and not blank is
    then the title of the page, trimmed. *)
Theorem a_fenced_block_is_the_frontmatter
    (yaml_load : jsstring -> result yaml) (block rest : jsstring) :
  block <> [] -> takeWhile is_ws block = [] ->
  findFirst (LF :: js "---") block = None ->
  let md := js "---" ++ [LF] ++ block ++ [LF] ++ js "---" ++ [LF] ++ rest in
  parseYamlFrontmatter yaml_load md
  = Ok {| attributes := match yaml_load block with
                        | Ok v => if truthy v then v else YMap []
                        | Throw _ => YMap []
                        end;
          body := dropWhile is_ws rest |}
  /\ forall l title site_title,
       yaml_load block = Ok (YMap l) ->
       lookupKey (js "title") l = Some (YStr title) ->
       is_empty (trim title) = false ->
       exists fm, parseYamlFrontmatter yaml_load md = Ok fm
                  /\ pageTitle fm site_title = trim title.
Proof.
  intros Hne Hws Hfence md.
  pose proof (parseYamlFrontmatter_fenced yaml_load block rest Hne Hws Hfence)
    as E. fold md in E.
  split; [exact E|]. intros l title site_title Hy Hl Ht.
  eexists. split; [exact E|]. rewrite Hy. cbn [truthy].
  unfold pageTitle. cbn [attributes stringField]. now rewrite Hl, Ht.
Qed.

Lemma a_fenced_block_is_the_frontmatter_witness :
  parseYamlFrontmatter (fun _ => Ok (YMap [(js "title", YStr (js "Guide"))]))
    (js "---" ++ [LF] ++ js "title: Guide" ++ [LF] ++ js "---" ++ [LF]
     ++ [LF] ++ js "    indented")
  = Ok {| attributes := YMap [(js "title", YStr (js "Guide"))];
          body := js "indented" |}.
Proof.
  apply (proj1 (a_fenced_block_is_the_frontmatter
                  (fun _ => Ok (YMap [(js "title", YStr (js "Guide"))]))
                  (js "title: Guide") ([LF] ++ js "    indented")
                  ltac:(discriminate) eq_refl eq_refl)).
Defined.

(** X13.  A document in which no line after the first starts with
    [---] has no frontmatter: an opening fence that is never closed is
    part of the body, and the loader is not consulted. *)
Theorem an_unclosed_fence_is_no_frontmatter
    (yaml_load : jsstring -> result yaml) (md : jsstring) :
  findFirst (LF :: js "---") md = None ->
  parseYamlFrontmatter yaml_load md = Ok {| attributes := YMap []; body := md |}.
Proof.
  intros H. unfold parseYamlFrontmatter.
  destruct (matchFrontmatter md) as [[block rest]|] eqn:E; [|reflexivity].
  exfalso. destruct (matchFrontmatter_shape md block rest E)
    as [w1 [w2 [Emd _]]].
  apply (findFirst_complete (LF :: js "---")
           (js "---" ++ w1 ++ [LF] ++ block) (w2 ++ rest)).
  rewrite <- H. f_equal. rewrite Emd. now rewrite <- !app_assoc.
Qed.

Lemma an_unclosed_fence_is_no_frontmatter_witness :
  parseYamlFrontmatter (fun _ => Throw YAMLException)
    (js "---" ++ [LF] ++ js "title: Guide" ++ [LF] ++ js "text")
  = Ok {| attributes := YMap [];
          body := js "---" ++ [LF] ++ js "title: Guide" ++ [LF] ++ js "text" |}.
Proof.
  apply (an_unclosed_fence_is_no_frontmatter (fun _ => Throw YAMLException)).
  reflexivity.
Defined.

(** ** The first heading *)

Lemma dropWhile_app_cases (f : N -> bool) (p h : jsstring) :
  (forallb f p = true /\ dropWhile f (p ++ h) = dropWhile f h
   /\ takeWhile f (p ++ h) = p ++ takeWhile f h)
  \/ (exists y r, dropWhile f (p ++ h) = y :: r /\ In y p /\ f y = false).
Proof.
  induction p as [|c p IH].
  - left. auto.
  - cbn [app dropWhile takeWhile forallb]. destruct (f c) eqn:E.
    + destruct IH as [[A [B C]]|[y [r [A [B C]]]]].
      * left. cbn [andb]. now rewrite C.
      * right. exists y, r. cbn [In]. auto.
    + right. exists c, (p ++ h). cbn [In]. auto.
Qed.

Lemma dropWhile_app_nonempty (f : N -> bool) (a b : jsstring) :
  dropWhile f a <> [] -> dropWhile f (a ++ b) = dropWhile f a ++ b.
Proof.
  induction a as [|c a IH]; [cbn; congruence|]. cbn [app dropWhile].
  destruct (f c); auto.
Qed.

Lemma forallb_dropWhile (f g : N -> bool) (s : jsstring) :
  forallb g s = true -> forallb g (dropWhile f s) = true.
Proof.
  induction s as [|c s IH]; trivial. cbn [forallb dropWhile]. intros H.
  apply andb_prop in H as [Hc Hs]. destruct (f c); [auto|].
  cbn [forallb]. now rewrite Hc, Hs.
Qed.

Lemma takeWhile_app_stop (f : N -> bool) (a b : jsstring) :
  forallb f a = true ->
  (b = [] \/ exists l r, b = l :: r /\ f l = false) ->
  takeWhile f (a ++ b) = a.
Proof.
  intros Ha Hb. induction a as [|c a IH].
  - destruct Hb as [->|[l [r [-> Hl]]]]; trivial. cbn. now rewrite Hl.
  - cbn in Ha. apply andb_prop in Ha as [Hc Ha]. cbn. now rewrite Hc, IH.
Qed.

(** The heading line itself. *)
Lemma h1Here_heading (t tail : jsstring) :
  forallb (fun c => negb (is_lt c)) t = true ->
  dropWhile is_ws t <> [] ->
  (tail = [] \/ exists l r, tail = l :: r /\ is_lt l = true) ->
  h1Here (js "# " ++ t ++ tail) = Some (dropWhile is_ws t).
Proof.
  intros Ht Hne Htail. unfold h1Here.
  change (js "# " ++ t ++ tail) with (35 :: 32 :: t ++ tail).
  cbn [takeWhile dropWhile]. change (is_ws 35) with false. cbv iota.
  cbn [length Nat.leb]. change (35 =? 35) with true. cbv iota.
  change (takeWhile is_ws (32 :: t ++ tail))
    with (32 :: takeWhile is_ws (t ++ tail)).
  change (dropWhile is_ws (32 :: t ++ tail)) with (dropWhile is_ws (t ++ tail)).
  cbv iota. rewrite dropWhile_app_nonempty by assumption.
  pose proof (forallb_dropWhile is_ws _ t Ht) as Hd.
  destruct (dropWhile is_ws t) as [|x text]; [congruence|].
  change (Some (takeWhile (fun c => negb (is_lt c)) ((x :: text) ++ tail))
          = Some (x :: text)).
  f_equal. apply takeWhile_app_stop.
  - exact Hd.
  - destruct Htail as [->|[l [r [-> Hl]]]]; [now left|].
    right. exists l, r. now rewrite Hl.
Qed.

(** An attempt that starts in a text without [#] before the heading
    either fails or finds that heading. *)
Lemma h1Here_before (p h : jsstring) :
  noChar 35 p = true ->
  h1Here (p ++ 35 :: h) = None \/ h1Here (p ++ 35 :: h) = h1Here (35 :: h).
Proof.
  intros Hp. unfold h1Here.
  destruct (dropWhile_app_cases is_ws p (35 :: h))
    as [[A [B C]]|[y [r [A [B C]]]]].
  - rewrite B, C. cbn [takeWhile dropWhile]. change (is_ws 35) with false.
    cbv iota. rewrite app_nil_r. cbn [length].
    destruct (length p <=? 3)%nat; [right; reflexivity | left; reflexivity].
  - left. rewrite A.
    assert (E : (y =? 35) = false).
    { unfold noChar in Hp. rewrite forallb_forall in Hp.
      apply negb_true_iff. now apply Hp. }
    rewrite E. now destruct (length _ <=? 3)%nat.
Qed.

Lemma h1Scan_finds (p h : jsstring) (cap : jsstring) :
  noChar 35 p = true -> h1Here (35 :: h) = Some cap ->
  forall lineStart,
    (p = [] -> lineStart = true) ->
    (forall q l, p = q ++ [l] -> is_lt l = true) ->
    h1Scan lineStart (p ++ 35 :: h) = Some cap.
Proof.
  intros Hp Hh. induction p as [|c p IH]; intros lineStart H0 Hlast.
  - rewrite (H0 eq_refl). cbn [app]. cbn [h1Scan]. now rewrite Hh.
  - change ((c :: p) ++ 35 :: h) with (c :: (p ++ 35 :: h)).
    cbn [h1Scan].
    assert (G : h1Scan (is_lt c) (p ++ 35 :: h) = Some cap).
    { apply IH.
      - cbn in Hp. now apply andb_prop in Hp as [_ Hp].
      - intros ->. apply (Hlast [] c). reflexivity.
      - intros q l ->. apply (Hlast (c :: q) l). reflexivity. }
    destruct lineStart; [|exact G].
    change (c :: (p ++ 35 :: h)) with ((c :: p) ++ 35 :: h).
    destruct (h1Here_before (c :: p) h Hp) as [E|E]; rewrite E.
    + exact G.
    + now rewrite Hh.
Qed.

Lemma dropWhile_head (f : N -> bool) (s r : jsstring) (x : N) :
  dropWhile f s = x :: r -> f x = false.
Proof.
  induction s as [|c s IH]; [discriminate|]. cbn [dropWhile].
  destruct (f c) eqn:E; [exact IH|]. intros H. inversion H. now subst.
Qed.

Lemma dropWhile_keeps (f : N -> bool) (s : jsstring) (x : N) :
  In x s -> f x = false -> dropWhile f s <> [].
Proof.
  induction s as [|c s IH]; [intros []|]. intros [->|Hin] Hx; cbn [dropWhile].
  - rewrite Hx. discriminate.
  - destruct (f c); [now apply IH | discriminate].
Qed.

Lemma trim_nonempty (t : jsstring) :
  dropWhile is_ws t <> [] -> is_empty (trim t) = false.
Proof.
  intros H. unfold trim. destruct (dropWhile is_ws t) as [|x u] eqn:E;
    [congruence|].
  pose proof (dropWhile_head _ _ _ _ E) as Hx.
  assert (G : dropWhile is_ws (rev (x :: u)) <> []).
  { apply (dropWhile_keeps _ _ x); trivial. apply in_rev.
    rewrite rev_involutive. now left. }
  destruct (dropWhile is_ws (rev (x :: u))) as [|y w] eqn:E'; [congruence|].
  cbn [rev]. now destruct (rev w).
Qed.

Lemma trim_dropWhile (s : jsstring) : trim (dropWhile is_ws s) = trim s.
Proof. unfold trim. now rewrite dropWhile_idem. Qed.

Lemma parseFirstH1_heading (pre t tail : jsstring) :
  noChar (ch "#") pre = true ->
  (forall q l, pre = q ++ [l] -> is_lt l = true) ->
  forallb (fun c => negb (is_lt c)) t = true ->
  dropWhile is_ws t <> [] ->
  (tail = [] \/ exists l r, tail = l :: r /\ is_lt l = true) ->
  parseFirstH1 (pre ++ js "# " ++ t ++ tail) = Ok (trim t).
Proof.
  intros Hpre Hlast Ht Hne Htail. unfold parseFirstH1, matchFirstH1.
  change (js "# " ++ t ++ tail) with (35 :: 32 :: t ++ tail).
  rewrite (h1Scan_finds pre (32 :: t ++ tail) (dropWhile is_ws t)); trivial.
  - now rewrite trim_dropWhile.
  - now apply h1Here_heading.
Qed.

(** X14.  [parseFirstH1] returns the text of the first line that
    starts with [# ]: when the text before that line contains no [#]
    and ends a line, and the heading holds at least one character that
    is not white space, the result is the rest of the heading line,
    trimmed.  It is also the title [renderPage] falls back to for a
    body of that shape. *)
Theorem the_first_heading_line_is_the_title (pre t tail : jsstring) :
  noChar (ch "#") pre = true ->
  (forall q l, pre = q ++ [l] -> is_lt l = true) ->
  forallb (fun c => negb (is_lt c)) t = true ->
  dropWhile is_ws t <> [] ->
  (tail = [] \/ exists l r, tail = l :: r /\ is_lt l = true) ->
  parseFirstH1 (pre ++ js "# " ++ t ++ tail) = Ok (trim t)
  /\ forall site_title,
       titleFallback (pre ++ js "# " ++ t ++ tail) site_title = trim t.
Proof.
  intros Hpre Hlast Ht Hne Htail.
  pose proof (parseFirstH1_heading pre t tail Hpre Hlast Ht Hne Htail) as E.
  split; [exact E|]. intros site_title.
  unfold parseFirstH1 in E. unfold titleFallback.
  destruct (matchFirstH1 (pre ++ js "# " ++ t ++ tail)) as [cap|];
    [|discriminate].
  inversion E as [E']. rewrite E'.
  now rewrite (trim_nonempty t Hne).
Qed.

Lemma the_first_heading_line_is_the_title_witness :
  parseFirstH1 (js "intro" ++ [LF; LF] ++ js "# " ++ js "  The Guide  "
                ++ LF :: js "## Details")
  = Ok (js "The Guide").
Proof.
  apply (the_first_heading_line_is_the_title
           (js "intro" ++ [LF; LF]) (js "  The Guide  ") (LF :: js "## Details")).
  - reflexivity.
  - intros q l E.
    change (js "intro" ++ [LF; LF]) with ((js "intro" ++ [LF]) ++ [LF]) in E.
    apply app_inj_tail in E as [_ <-]. reflexivity.
  - reflexivity.
  - discriminate.
  - right. exists LF, (js "## Details"). split; reflexivity.
Defined.

(** ** The navigation model *)










Lemma isHome_code (R d : list jsstring) (b home : jsstring) :
  names R = true -> names d = true -> isName b = true ->
  str_eqb (path.basename (absPath (R ++ d ++ [b]))) home
  && str_eqb (path.dirname (absPath (R ++ d ++ [b]))) (REPO_ROOT (absPath R))
  = isHome d b home.
Proof.
  intros HR Hd Hb. rewrite app_assoc.
  rewrite basename_absPath by now apply isName_isSeg.
  rewrite dirname_absPath;
    [|now rewrite names_app, HR | now apply isName_isSeg].
  unfold REPO_ROOT. destruct d as [|x d].
  - rewrite app_nil_r, str_eqb_refl. apply andb_true_r.
  - cbn [isHome].
    assert (E : str_eqb (absPath (R ++ x :: d)) (absPath R) = false).
    { apply str_eqb_neq. intros E. apply absPath_inj in E; trivial.
      - rewrite <- (app_nil_r R) in E at 2. apply app_inv_head in E.
        discriminate.
      - now rewrite names_app, HR. }
    rewrite E. apply andb_false_r.
Qed.

(** X16.  A navigation key that names a Markdown file below the
    content root gives an internal entry for that file, whether the
    file exists or not.  Its title is the configured title if that is
    a non-empty string; else the first heading of the file; else, when
    the file cannot be read or has no heading, [Home] for the home
    document and the file name without [.md] for any other. *)
Theorem navigation_entry_of_a_markdown_key
    (R d : list jsstring) (b home : jsstring) (fs : filesystem)
    (providedTitle : option jsstring) :
  names R = true -> names d = true -> isName b = true ->
  startsWith (js ".") b = false -> isMarkdown b = true ->
  let cwd := absPath R in
  let key := joinSlash (d ++ [b]) in
  let mdPath := absPath (R ++ d ++ [b]) in
  isAbsoluteUrl key || isMailOrTel key = false ->
  let fallback :=
    if isHome d b home then js "Home" else strip_suffix_ci (js ".md") b in
  let heading :=
    match fs mdPath with
    | Some (File raw) =>
        match parseFirstH1 raw with Ok h => h | Throw _ => fallback end
    | _ => fallback
    end in
  navItemFor cwd fs home (key, providedTitle)
  = Ok (Internal mdPath
          (match providedTitle with
           | Some t => if is_empty t then heading else t
           | None => heading
           end)
          (absPath (siteSegs R
                    ++ (if isHome d b home then []
                        else d ++ [strip_suffix_ci (js ".md") b])
                    ++ [js "index.html"]))).
Proof.
  intros HR Hd Hb Hdot Hmd cwd key mdPath Hext fallback heading.
  unfold navItemFor. rewrite Hext.
  assert (Ek : isMarkdown key = true).
  { unfold key, isMarkdown. rewrite ends_with_ci_joinSlash by reflexivity.
    exact Hmd. }
  rewrite Ek.
  assert (Ep : path.join [REPO_ROOT cwd; key] = mdPath).
  { unfold REPO_ROOT, cwd, key, mdPath. apply join_abs_names; trivial.
    - rewrite names_app, Hd. unfold names. cbn [forallb]. now rewrite Hb.
    - now destruct d. }
  rewrite Ep. unfold resolveMdNavItem.
  pose proof (isHome_code R d b home HR Hd Hb) as Eh.
  fold mdPath in Eh. fold cwd in Eh. rewrite Eh.
  assert (Eb : path.basename mdPath = b).
  { unfold mdPath. rewrite app_assoc. apply basename_absPath.
    now apply isName_isSeg. }
  rewrite Eb. fold fallback.
  pose proof (page_of_found_file R d b home HR Hd Hb Hdot Hmd) as Eo.
  fold mdPath in Eo. fold cwd in Eo. rewrite Eo.
  unfold titleOr, heading, fs_readFile.
  destruct providedTitle as [t|]; [destruct (is_empty t); [|reflexivity]|];
    (destruct (fs mdPath) as [[raw|]|]; cbn; trivial;
     destruct (parseFirstH1 raw); reflexivity).
Qed.

Lemma navigation_entry_of_a_markdown_key_witness :
  navItemFor (js "/repo") sampleTree (js "README.md")
    (js "docs/README.md", Some [])
  = Ok (Internal (js "/repo/docs/README.md") (js "Documentation")
          (js "/repo/_site/docs/README/index.html")).
Proof.
  apply (navigation_entry_of_a_markdown_key
           [js "repo"] [js "docs"] (js "README.md") (js "README.md")
           sampleTree (Some []));
    vm_compute; reflexivity.
Defined.

(** ** What the rewriting leaves alone *)

Lemma sameButLinks_refl (el : element) : sameButLinks el el.
Proof.
  split; trivial. induction (attrs el) as [|kv l IH]; constructor; auto.
Qed.

Lemma sameButLinks_trans (a b c : element) :
  sameButLinks a b -> sameButLinks b c -> sameButLinks a c.
Proof.
  intros [T1 F1] [T2 F2]. split; [congruence|].
  revert F2. generalize (attrs c). induction F1 as [|x y l l' [K V] F IH];
    intros l'' F2; inversion F2 as [|y' z m m' [K' V'] F']; subst; constructor.
  - split; [congruence|]. rewrite K in V'.
    destruct V as [V|V]; [|now right].
    destruct V' as [V'|V']; [left; congruence | now right].
  - now apply IH.
Qed.

Lemma updateAttr_present (name v raw : jsstring) (l : list (jsstring * jsstring)) :
  lookupAttr name l = Some raw ->
  Forall2 (fun kv kv' : jsstring * jsstring =>
             fst kv' = fst kv /\ (snd kv' = snd kv \/ fst kv = name))
          l (updateAttr name v l).
Proof.
  induction l as [|[k w] l IH]; [discriminate|]. cbn [lookupAttr updateAttr].
  destruct (str_eqb k name) eqn:E; intros H.
  - apply str_eqb_eq in E. subst k. constructor; [cbn; auto|].
    clear. induction l as [|kv l IH]; constructor; auto.
  - constructor; [cbn; auto | now apply IH].
Qed.

Lemma processAttr_sameButLinks
    (cwd sourceMdPath homeMdBasename : jsstring) (el el' : element)
    (attrName : jsstring) :
  attrName = js "href" \/ attrName = js "src" ->
  processAttr cwd sourceMdPath homeMdBasename el attrName = Ok el' ->
  sameButLinks el el'.
Proof.
  intros Hname. unfold processAttr.
  destruct (getAttribute el attrName) as [raw|] eqn:G;
    [|intros E; inversion E; apply sameButLinks_refl].
  destruct (is_empty raw); [intros E; inversion E; apply sameButLinks_refl|].
  destruct (isAbsoluteUrl raw); [intros E; inversion E; apply sameButLinks_refl|].
  destruct (isMailOrTel raw); [intros E; inversion E; apply sameButLinks_refl|].
  destruct (startsWith (js "#") raw);
    [intros E; inversion E; apply sameButLinks_refl|].
  destruct (splitAt (ch "#") raw) as [rest hash].
  destruct (splitAt (ch "?") rest) as [url query].
  destruct (decodeURI url) as [decoded|e]; cbn [bind]; [|discriminate].
  intros E. inversion E. split; [reflexivity|]. cbn [attrs setAttribute].
  eapply Forall2_impl; [|apply (updateAttr_present _ _ raw); exact G].
  cbn. intros kv kv' [K [V|V]]; split; auto.
  right. rewrite V. destruct Hname; auto.
Qed.

Lemma forEach_Forall2 (f : element -> result element) (l l' : list element) :
  forEach f l = Ok l' -> Forall2 (fun el el' => f el = Ok el') l l'.
Proof.
  revert l'. induction l as [|x l IH]; intros l' H.
  - inversion H. constructor.
  - cbn [forEach] in H. destruct (f x) as [x'|e] eqn:Ex; [|discriminate].
    cbn [bind] in H. destruct (forEach f l) as [r|e]; [|discriminate].
    inversion H. constructor; auto.
Qed.

Lemma Forall2_compose {A : Type} (P Q S : A -> A -> Prop) (l1 l2 l3 : list A) :
  (forall a b c, P a b -> Q b c -> S a c) ->
  Forall2 P l1 l2 -> Forall2 Q l2 l3 -> Forall2 S l1 l3.
Proof.
  intros H F1. revert l3. induction F1; intros l3 F2; inversion F2; subst;
    constructor; eauto.
Qed.

(** X17.  The rewriting of a document keeps its elements, their
    order, their tags and their attributes; only values of [href] and
    [src] can change, and only on [a], [img], [video], [audio],
    [source], [link] and [script] elements: any other element, an
    [iframe] for one, is left exactly as it is. *)
Theorem rewriting_touches_only_href_and_src
    (cwd sourceMdPath homeMdBasename : jsstring)
    (elements rewritten : list element) :
  rewriteElements cwd elements sourceMdPath homeMdBasename = Ok rewritten ->
  Forall2 (fun el el' =>
             sameButLinks el el'
             /\ (existsb (str_eqb (tagName el)) selectedTags = false -> el' = el))
          elements rewritten.
Proof.
  unfold rewriteElements. intros H.
  match type of H with
  | (bind (forEach ?f1 _) (fun l => forEach ?f2 l)) = _ =>
      set (pass1 := f1) in H; set (pass2 := f2) in H
  end.
  destruct (forEach pass1 elements) as [l1|e] eqn:E1; [|discriminate].
  cbn [bind] in H. apply forEach_Forall2 in E1, H.
  eapply Forall2_compose; [|exact E1|exact H].
  intros a b c Ha Hb. cbv beta in Ha, Hb.
  assert (A : sameButLinks a b /\ (str_eqb (tagName a) (js "a") = false -> b = a)).
  { unfold pass1 in Ha. destruct (str_eqb (tagName a) (js "a")); cbn [andb] in Ha.
    - split; [|discriminate].
      destruct (hasAttribute a (js "href"));
        [|inversion Ha; apply sameButLinks_refl].
      eapply processAttr_sameButLinks; [|exact Ha]. now left.
    - inversion Ha. split; [apply sameButLinks_refl | reflexivity]. }
  assert (B1 : sameButLinks b c).
  { unfold pass2 in Hb. destruct (_ || _); [|inversion Hb; apply sameButLinks_refl].
    destruct (hasAttribute b (js "src")).
    - destruct (processAttr cwd sourceMdPath homeMdBasename b (js "src"))
        as [b1|e1] eqn:P1; [|discriminate].
      cbn [bind] in Hb. apply processAttr_sameButLinks in P1; [|now right].
      destruct (hasAttribute b1 (js "href")).
      + apply processAttr_sameButLinks in Hb; [|now left].
        eapply sameButLinks_trans; eassumption.
      + inversion Hb. now subst.
    - cbn [bind] in Hb. destruct (hasAttribute b (js "href")).
      + apply processAttr_sameButLinks in Hb; [assumption | now left].
      + inversion Hb. apply sameButLinks_refl. }
  assert (B2 : existsb (str_eqb (tagName b)) mediaTags = false ->
               str_eqb (tagName b) (js "link") = false -> c = b).
  { intros Em El. unfold pass2 in Hb. rewrite Em, El in Hb.
    cbn [andb orb] in Hb. now inversion Hb. }
  destruct A as [A1 A2]. split.
  - eapply sameButLinks_trans; eassumption.
  - intros Hsel. unfold selectedTags in Hsel. cbn [existsb] in Hsel.
    apply orb_false_iff in Hsel as [Ha' Hsel].
    rewrite (A2 Ha') in *. apply B2.
    + unfold mediaTags. cbn [existsb].
      repeat (apply orb_false_iff in Hsel as [? Hsel]).
      repeat (apply orb_false_iff; split); trivial.
    + repeat (apply orb_false_iff in Hsel as [? Hsel]). assumption.
Qed.

Lemma rewriting_touches_only_href_and_src_witness :
  rewriteElements (js "/srv/repo")
    [anchor (js "guide.md"); iframe (js "demo.html")]
    (js "/srv/repo/docs/intro.md") (js "README.md")
  = Ok [anchor (js "../guide"); iframe (js "demo.html")]
  /\ Forall2 (fun el el' =>
                sameButLinks el el'
                /\ (existsb (str_eqb (tagName el)) selectedTags = false ->
                    el' = el))
             [anchor (js "guide.md"); iframe (js "demo.html")]
             [anchor (js "../guide"); iframe (js "demo.html")].
Proof.
  split; [vm_compute; reflexivity|].
  apply (rewriting_touches_only_href_and_src (js "/srv/repo")
           (js "/srv/repo/docs/intro.md") (js "README.md")
           [anchor (js "guide.md"); iframe (js "demo.html")]).
  vm_compute. reflexivity.
Defined.

(** ** The configuration *)

(** X18.  [loadConfig] returns a configuration exactly when
    [.render/config.yml] can be read, [yaml.load] accepts it, and the
    result is a mapping with a string [site_title], a string [home_md]
    and a list [nav], which may be empty; it returns what the loader
    returned, unchanged. *)
Theorem loadConfig_accepts_exactly_the_complete_mappings
    (cwd : jsstring) (fs : filesystem) (yaml_load : jsstring -> result yaml)
    (cfg : yaml) :
  loadConfig cwd fs yaml_load = Loaded cfg
  <-> exists raw l site_title home_md nav,
        fs (path.join [cwd; js ".render"; js "config.yml"]) = Some (File raw)
        /\ yaml_load raw = Ok cfg /\ cfg = YMap l
        /\ lookupKey (js "site_title") l = Some (YStr site_title)
        /\ lookupKey (js "home_md") l = Some (YStr home_md)
        /\ lookupKey (js "nav") l = Some (YSeq nav).
Proof.
  unfold loadConfig, REPO_ROOT, fs_readFile.
  set (configPath := path.join [cwd; js ".render"; js "config.yml"]).
  split.
  - destruct (fs configPath) as [[raw|]|]; try discriminate.
    destruct (yaml_load raw) as [v|e] eqn:Ey; [|discriminate].
    assert (Hv : forall w, (if truthy v then v else YMap []) = w ->
                 (exists l, w = YMap l /\ (v = YMap l \/ l = []))
                 \/ (forall k, property w k = None)).
    { intros w <-. destruct v as [|b|z|s|seq|l]; cbn [truthy];
        try (destruct b); try (destruct (negb (Z.eqb z 0)));
        try (destruct (negb (is_empty s))); eauto. }
    destruct (Hv _ eq_refl) as [[l [El Hl]]|Hnone].
    + rewrite El. cbn [property].
      destruct (lookupKey (js "site_title") l) as [[| | |t| |]|] eqn:E1;
        cbn [isStringValue negb]; try discriminate.
      destruct (lookupKey (js "home_md") l) as [[| | |h| |]|] eqn:E2;
        cbn [isStringValue negb]; try discriminate.
      destruct (lookupKey (js "nav") l) as [[| | | |n|]|] eqn:E3;
        cbn [isArrayValue negb]; try discriminate.
      intros E. inversion E; subst.
      destruct Hl as [Hl | Hl]; [subst v | subst l; discriminate].
      exists raw, l, t, h, n. repeat split; assumption || reflexivity.
    + rewrite Hnone. cbn [isStringValue negb]. discriminate.
  - intros [raw [l [t [h [n [Hfs [Hy [-> [E1 [E2 E3]]]]]]]]]].
    rewrite Hfs, Hy. cbn [truthy property]. now rewrite E1, E2, E3.
Qed.

(** ** Title and description *)

Lemma titleFallback_nonempty (markdownContent site_title : jsstring) :
  is_empty site_title = false ->
  is_empty (titleFallback markdownContent site_title) = false.
Proof.
  intros H. unfold titleFallback.
  destruct (matchFirstH1 markdownContent) as [cap|]; [|exact H].
  destruct (is_empty (trim cap)) eqn:E; cbn [negb]; assumption.
Qed.

Lemma stringField_nonempty (fm : yaml) (key fallback : jsstring) :
  is_empty fallback = false -> is_empty (stringField fm key fallback) = false.
Proof.
  intros H. unfold stringField. destruct fm; trivial.
  destruct (lookupKey key l) as [[| | |s| |]|]; trivial.
  destruct (is_empty (trim s)) eqn:E; assumption.
Qed.

(** What [renderPage] makes of a field of the frontmatter: the
    trimmed value if the attributes are a mapping that holds a string
    there which is not blank, the fallback in every other case. *)
Lemma stringField_cases (fm : yaml) (key fallback : jsstring) :
  (forall l s, fm = YMap l -> lookupKey key l = Some (YStr s) ->
               is_empty (trim s) = false ->
               stringField fm key fallback = trim s)
  /\ ((forall l s, fm = YMap l -> lookupKey key l = Some (YStr s) ->
                   is_empty (trim s) = true) ->
      stringField fm key fallback = fallback).
Proof.
  unfold stringField. split.
  - intros l s -> Hl Hs. now rewrite Hl, Hs.
  - intros H. destruct fm as [| | | | |l]; trivial.
    destruct (lookupKey key l) as [[| | |s| |]|] eqn:Hl; trivial.
    now rewrite (H l s eq_refl Hl).
Qed.

(** X19.  Title and description of a page are chosen in the same
    order.  A field of the frontmatter that is a string and not blank
    is taken, trimmed.  Without one (the field is missing, blank or no
    string, or the frontmatter is no mapping) the first heading of the
    body is taken if it is not empty, and the site title if the body
    has no heading or an empty one.  With a non-empty site title,
    then, no page is left without a title or a description. *)
Theorem title_and_description_fall_back_in_order
    (fm : frontmatter) (site_title : jsstring) :
  let given key s :=
    exists l, attributes fm = YMap l /\ lookupKey key l = Some (YStr s)
              /\ is_empty (trim s) = false in
  let chosen key v :=
    (forall s, given key s -> v = trim s)
    /\ ((forall s, ~ given key s) ->
        (forall h, parseFirstH1 (body fm) = Ok h -> is_empty h = false ->
                   v = h)
        /\ (parseFirstH1 (body fm) = Ok []
            \/ (exists e, parseFirstH1 (body fm) = Throw e) ->
            v = site_title)) in
  chosen (js "title") (pageTitle fm site_title)
  /\ chosen (js "description") (pageDescription fm site_title)
  /\ (is_empty site_title = false ->
      is_empty (pageTitle fm site_title) = false
      /\ is_empty (pageDescription fm site_title) = false).
Proof.
  intros given chosen.
  assert (C : forall key,
            chosen key (stringField (attributes fm) key
                          (titleFallback (body fm) site_title))).
  { intros key.
    destruct (stringField_cases (attributes fm) key
                (titleFallback (body fm) site_title)) as [S1 S2].
    destruct (titleFallback_cases (body fm) site_title) as [T1 T2].
    split.
    - intros s [l [El [Hl Hs]]]. now apply (S1 l).
    - intros Hno. rewrite S2.
      + split; assumption.
      + intros l s El Hl. destruct (is_empty (trim s)) eqn:Hs; trivial.
        exfalso. apply (Hno s). now exists l. }
  split; [apply C|]. split; [apply C|].
  intros H. unfold pageTitle, pageDescription.
  split; apply stringField_nonempty; now apply titleFallback_nonempty.
Qed.

Lemma title_and_description_fall_back_in_order_witness :
  let blank := {| attributes := YMap [(js "title", YStr (js "   "))];
                  body := js "no heading here" |} in
  let plain := {| attributes := YMap [(js "title", YStr (js " Guide "))];
                  body := js "# Heading" |} in
  pageTitle blank (js "Notes") = js "Notes"
  /\ pageTitle plain (js "Notes") = js "Guide"
  /\ pageDescription plain (js "Notes") = js "Heading".
Proof.
  intros blank plain.
  destruct (title_and_description_fall_back_in_order blank (js "Notes"))
    as [[_ B] _].
  destruct (title_and_description_fall_back_in_order plain (js "Notes"))
    as [[T _] [[_ D] _]].
  split; [|split].
  - apply B.
    + intros s [l [El [Hl Hs]]]. inversion El; subst l.
      vm_compute in Hl. inversion Hl; subst s. vm_compute in Hs. discriminate.
    + right. exists NoH1Error. vm_compute. reflexivity.
  - rewrite (T (js " Guide ")); [vm_compute; reflexivity|].
    exists [(js "title", YStr (js " Guide "))]. repeat split.
  - apply D.
    + intros s [l [El [Hl Hs]]]. inversion El; subst l.
      vm_compute in Hl. discriminate.
    + vm_compute. reflexivity.
    + reflexivity.
Defined.

(** ** Filling the templates *)

Lemma getSubstitution_plain (m pre post v : jsstring) :
  noChar 36 v = true -> getSubstitution m pre post v = v.
Proof.
  induction v as [|c v IH]; trivial. cbn [noChar forallb]. intros H.
  apply andb_prop in H as [Hc Hv]. apply negb_true_iff in Hc.
  cbn [getSubstitution]. rewrite Hc. f_equal. now apply IH.
Qed.

Lemma getSubstitution_dollars (m pre post a b : jsstring) :
  noChar 36 a = true -> noChar 36 b = true ->
  getSubstitution m pre post (a ++ js "$$" ++ b) = a ++ js "$" ++ b.
Proof.
  intros Ha Hb. induction a as [|c a IH].
  - change ([] ++ js "$$" ++ b) with (36 :: 36 :: b).
    cbn [getSubstitution]. change (36 =? 36) with true. cbv iota.
    cbn [app]. change (js "$" ++ b) with (36 :: b). f_equal.
    now apply getSubstitution_plain.
  - cbn [noChar forallb] in Ha. apply andb_prop in Ha as [Hc Ha].
    apply negb_true_iff in Hc. cbn [app getSubstitution]. rewrite Hc.
    f_equal. now apply IH.
Qed.

Lemma findFirst_step (pat : jsstring) (c : N) (t : jsstring) :
  startsWith pat (c :: t) = false ->
  findFirst pat (c :: t) = prependTo [c] (findFirst pat t).
Proof.
  intros H. cbn [findFirst]. rewrite H. now destruct (findFirst pat t) as [[? ?]|].
Qed.

Lemma prependTo_app (a b : jsstring) (r : option (jsstring * jsstring)) :
  prependTo a (prependTo b r) = prependTo (a ++ b) r.
Proof. destruct r as [[pre post]|]; cbn; [now rewrite app_assoc | reflexivity]. Qed.

Lemma findFirst_skip_text (p s rest : jsstring) :
  noChar 123 s = true ->
  findFirst (123 :: p) (s ++ rest) = prependTo s (findFirst (123 :: p) rest).
Proof.
  induction s as [|c s IH]; intros H.
  - cbn [app]. now destruct (findFirst (123 :: p) rest) as [[? ?]|].
  - cbn [noChar forallb] in H. apply andb_prop in H as [Hc Hs].
    apply negb_true_iff in Hc. change ((c :: s) ++ rest) with (c :: (s ++ rest)).
    rewrite findFirst_step; [|cbn [startsWith]; now rewrite Hc].
    rewrite (IH Hs). apply prependTo_app.
Qed.

Lemma startsWith_other_name (name n rest : jsstring) :
  braceFree name = true -> braceFree n = true -> name <> n ->
  startsWith (name ++ [125; 125]) (n ++ 125 :: 125 :: rest) = false.
Proof.
  revert n. induction name as [|a name IH]; intros [|c n] Hname Hn Hneq.
  - congruence.
  - cbn [braceFree forallb] in Hn. apply andb_prop in Hn as [Hc _].
    apply negb_true_iff, orb_false_iff in Hc as [_ Hc].
    cbn [app startsWith]. now rewrite Hc.
  - cbn [braceFree forallb] in Hname. apply andb_prop in Hname as [Ha _].
    apply negb_true_iff, orb_false_iff in Ha as [_ Ha].
    cbn [app startsWith]. rewrite N.eqb_sym in Ha. now rewrite Ha.
  - cbn [braceFree forallb] in Hname, Hn.
    apply andb_prop in Hname as [_ Hname]. apply andb_prop in Hn as [_ Hn].
    cbn [app startsWith]. destruct (c =? a) eqn:E; trivial.
    apply N.eqb_eq in E. subst c. apply IH; trivial. congruence.
Qed.

Lemma braceFree_noChar (n : jsstring) :
  braceFree n = true -> noChar 123 (n ++ [125; 125]) = true.
Proof.
  intros H. unfold noChar. rewrite forallb_app. cbn. rewrite andb_true_r.
  apply (forallb_impl (fun c => negb ((c =? 123) || (c =? 125)))); trivial.
  intros x Hx. apply negb_true_iff, orb_false_iff in Hx as [Hx _].
  now rewrite Hx.
Qed.

Lemma findFirst_other_slot (name n rest : jsstring) :
  braceFree name = true -> braceFree n = true -> name <> n ->
  findFirst (slotText name) (slotText n ++ rest)
  = prependTo (slotText n) (findFirst (slotText name) rest).
Proof.
  intros Hname Hn Hneq. unfold slotText.
  change (js "{{" ++ name ++ js "}}") with (123 :: 123 :: name ++ [125; 125]).
  replace ((js "{{" ++ n ++ js "}}") ++ rest)
    with (123 :: 123 :: (n ++ [125; 125]) ++ rest)
    by (cbn [js app]; now rewrite <- !app_assoc).
  rewrite findFirst_step.
  2: { cbn [startsWith]. change (123 =? 123) with true. cbn [andb].
       rewrite <- app_assoc. now apply startsWith_other_name. }
  rewrite findFirst_step.
  2: { cbn [startsWith]. change (123 =? 123) with true. cbn [andb].
       rewrite <- app_assoc. destruct n as [|c n].
       - reflexivity.
       - cbn [braceFree forallb] in Hn. apply andb_prop in Hn as [Hc _].
         apply negb_true_iff, orb_false_iff in Hc as [Hc _].
         cbn [app startsWith]. now rewrite Hc. }
  rewrite findFirst_skip_text by now apply braceFree_noChar.
  rewrite !prependTo_app. reflexivity.
Qed.

Lemma findFirst_same_slot (name rest : jsstring) :
  findFirst (slotText name) (slotText name ++ rest) = Some ([], rest).
Proof.
  unfold slotText at 2.
  change ((js "{{" ++ name ++ js "}}") ++ rest)
    with (123 :: (123 :: name ++ js "}}") ++ rest).
  cbn [findFirst].
  change (123 :: (123 :: name ++ js "}}") ++ rest) with (slotText name ++ rest).
  rewrite startsWith_app_self. f_equal. f_equal.
  induction (slotText name) as [|c s IH]; trivial.
Qed.

Lemma replace_skip (pat s rest v v' : jsstring) :
  expandsTo v v' ->
  findFirst pat (s ++ rest) = prependTo s (findFirst pat rest) ->
  replace pat v (s ++ rest) = s ++ replace pat v rest.
Proof.
  intros Hv H. unfold replace. rewrite H.
  destruct (findFirst pat rest) as [[pre post]|]; cbn [prependTo]; trivial.
  now rewrite !Hv, <- app_assoc.
Qed.

Lemma replace_fillFirst (name v v' : jsstring) (pieces : list piece) :
  braceFree name = true -> forallb wellFormedPiece pieces = true ->
  expandsTo v v' ->
  replace (slotText name) v (templateText pieces)
  = templateText (fillFirst name v' pieces).
Proof.
  intros Hname Hwf Hv. induction pieces as [|p pieces IH].
  - reflexivity.
  - cbn [forallb] in Hwf. apply andb_prop in Hwf as [Hp Hwf].
    unfold templateText in *. cbn [flat_map].
    destruct p as [s|n]; cbn [pieceText fillFirst wellFormedPiece] in *.
    + cbn [flat_map pieceText].
      rewrite (replace_skip _ _ _ _ _ Hv), (IH Hwf); trivial.
      now apply findFirst_skip_text.
    + destruct (str_eqb n name) eqn:E.
      * apply str_eqb_eq in E. subst n. cbn [flat_map pieceText].
        unfold replace. rewrite findFirst_same_slot. cbn [app].
        now rewrite Hv.
      * apply str_eqb_neq in E. cbn [flat_map pieceText].
        rewrite (replace_skip _ _ _ _ _ Hv), (IH Hwf); trivial.
        apply findFirst_other_slot; trivial. congruence.
Qed.

Lemma fillFirst_wellFormed (name v : jsstring) (pieces : list piece) :
  noChar 123 v = true -> forallb wellFormedPiece pieces = true ->
  forallb wellFormedPiece (fillFirst name v pieces) = true.
Proof.
  intros Hv. induction pieces as [|p pieces IH]; trivial.
  cbn [forallb]. intros H. apply andb_prop in H as [Hp Hwf].
  destruct p as [s|n]; cbn [fillFirst].
  - cbn [forallb]. now rewrite Hp, IH.
  - destruct (str_eqb n name); cbn [forallb].
    + cbn [wellFormedPiece]. now rewrite Hv, Hwf.
    + now rewrite Hp, IH.
Qed.

Lemma plainValue_parts (s : jsstring) :
  plainValue s = true -> noChar 123 s = true /\ expandsTo s s.
Proof.
  unfold plainValue. intros H. apply andb_prop in H as [H1 H2].
  split; trivial. intros m pre post. now apply getSubstitution_plain.
Qed.

Lemma renderPage_fills
    (cwd : jsstring) (fs : filesystem) (yaml_load : jsstring -> result yaml)
    (marked sanitize : jsstring -> result jsstring) (JSDOM : jsstring -> document)
    (mdPath : jsstring) (ctx : context) (raw : jsstring) (fm : frontmatter)
    (rendered clean content content' : jsstring) (pieces : list piece) :
  fs mdPath = Some (File raw) ->
  parseYamlFrontmatter yaml_load raw = Ok fm ->
  marked (body fm) = Ok rendered -> sanitize rendered = Ok clean ->
  rewriteLinksHtml cwd JSDOM clean mdPath (path.basename (home_md ctx))
  = Ok content ->
  templateContent ctx = templateText pieces ->
  forallb wellFormedPiece pieces = true ->
  let home := path.basename (home_md ctx) in
  let title := escapeHtml (pageTitle fm (site_title ctx)) in
  let description := escapeHtml (pageDescription fm (site_title ctx)) in
  let nav := pageNavHtml cwd (navItems ctx) (site_title ctx) (home_md ctx)
               (navTemplateContent ctx) mdPath in
  let href := stylesheetHref cwd mdPath home (stylesheetOut ctx) in
  plainValue title = true -> plainValue description = true ->
  plainValue nav = true -> plainValue href = true ->
  expandsTo content content' ->
  renderPage cwd fs yaml_load marked sanitize JSDOM mdPath ctx
  = Ok (computeOutputHtmlPath cwd mdPath home,
        templateText
          (fillFirst (js "CONTENT") content'
             (fillFirst (js "STYLESHEET_HREF") href
                (fillFirst (js "NAV") nav
                   (fillFirst (js "DESCRIPTION") description
                      (fillFirst (js "TITLE") title pieces)))))).
Proof.
  intros Hfs Hfm Hm Hs Hr Ht Hwf home title description nav href
         Ptitle Pdesc Pnav Phref Hcontent.
  unfold renderPage, fs_readFile. rewrite Hfs. cbn [bind]. rewrite Hfm.
  cbn [bind]. rewrite Hm. cbn [bind]. rewrite Hs. cbn [bind].
  rewrite Hr. cbn [bind]. fold home. f_equal. f_equal.
  destruct (plainValue_parts _ Ptitle) as [T1 T2].
  destruct (plainValue_parts _ Pdesc) as [D1 D2].
  destruct (plainValue_parts _ Pnav) as [N1 N2].
  destruct (plainValue_parts _ Phref) as [H1 H2].
  fold title. fold description. fold nav.
  change (match stylesheetOut ctx with
          | Some out =>
              slashes (toRelativeHref cwd
                         (path.dirname (computeOutputHtmlPath cwd mdPath home)) out)
          | None => []
          end) with href.
  rewrite Ht.
  change (js "{{TITLE}}") with (slotText (js "TITLE")).
  change (js "{{DESCRIPTION}}") with (slotText (js "DESCRIPTION")).
  change (js "{{NAV}}") with (slotText (js "NAV")).
  change (js "{{STYLESHEET_HREF}}") with (slotText (js "STYLESHEET_HREF")).
  change (js "{{CONTENT}}") with (slotText (js "CONTENT")).
  rewrite (replace_fillFirst (js "TITLE") title title); trivial.
  rewrite (replace_fillFirst (js "DESCRIPTION") description description);
    trivial; [|now apply fillFirst_wellFormed].
  rewrite (replace_fillFirst (js "NAV") nav nav); trivial;
    [|now repeat apply fillFirst_wellFormed].
  rewrite (replace_fillFirst (js "STYLESHEET_HREF") href href); trivial;
    [|now repeat apply fillFirst_wellFormed].
  rewrite (replace_fillFirst (js "CONTENT") content content'); trivial.
  now repeat apply fillFirst_wellFormed.
Qed.

(** X20.  [renderPage] fills the page template: for a template
    whose text holds no brace outside its placeholders, and values
    without [{] and [$], the page is the template with the first
    [{{TITLE}}], [{{DESCRIPTION}}], [{{NAV}}], [{{STYLESHEET_HREF}}] and
    [{{CONTENT}}] replaced by their values, title and description
    escaped.  A placeholder that occurs a second time stays as it is,
    and so does any other placeholder. *)
Theorem the_page_template_is_filled_once
    (cwd : jsstring) (fs : filesystem) (yaml_load : jsstring -> result yaml)
    (marked sanitize : jsstring -> result jsstring) (JSDOM : jsstring -> document)
    (mdPath : jsstring) (ctx : context) (raw : jsstring) (fm : frontmatter)
    (rendered clean content : jsstring) (pieces : list piece) :
  fs mdPath = Some (File raw) ->
  parseYamlFrontmatter yaml_load raw = Ok fm ->
  marked (body fm) = Ok rendered -> sanitize rendered = Ok clean ->
  rewriteLinksHtml cwd JSDOM clean mdPath (path.basename (home_md ctx))
  = Ok content ->
  templateContent ctx = templateText pieces ->
  forallb wellFormedPiece pieces = true ->
  let home := path.basename (home_md ctx) in
  let title := escapeHtml (pageTitle fm (site_title ctx)) in
  let description := escapeHtml (pageDescription fm (site_title ctx)) in
  let nav := pageNavHtml cwd (navItems ctx) (site_title ctx) (home_md ctx)
               (navTemplateContent ctx) mdPath in
  let href := stylesheetHref cwd mdPath home (stylesheetOut ctx) in
  plainValue title = true -> plainValue description = true ->
  plainValue nav = true -> plainValue href = true ->
  noChar (ch "$") content = true ->
  renderPage cwd fs yaml_load marked sanitize JSDOM mdPath ctx
  = Ok (computeOutputHtmlPath cwd mdPath home,
        templateText
          (fillFirst (js "CONTENT") content
             (fillFirst (js "STYLESHEET_HREF") href
                (fillFirst (js "NAV") nav
                   (fillFirst (js "DESCRIPTION") description
                      (fillFirst (js "TITLE") title pieces)))))).
Proof.
  intros Hfs Hfm Hm Hs Hr Ht Hwf home title description nav href
         Ptitle Pdesc Pnav Phref Hcontent.
  eapply renderPage_fills; eauto.
  intros m pre post. now apply getSubstitution_plain.
Qed.

Lemma the_page_template_is_filled_once_witness :
  renderPage (js "/srv/repo") guideTree (fun _ => Throw YAMLException)
    (constMarked (js "<p>text</p>")) Ok (constDom (js "<p>text</p>"))
    (js "/srv/repo/docs/guide.md") guideContext
  = Ok (js "/srv/repo/_site/docs/guide/index.html",
        js "<title>Guide</title><h1>{{TITLE}}</h1><p>text</p>").
Proof.
  apply (the_page_template_is_filled_once
           (js "/srv/repo") guideTree (fun _ => Throw YAMLException)
           (constMarked (js "<p>text</p>")) Ok (constDom (js "<p>text</p>"))
           (js "/srv/repo/docs/guide.md") guideContext
           (js "# Guide") {| attributes := YMap []; body := js "# Guide" |}
           (js "<p>text</p>") (js "<p>text</p>") (js "<p>text</p>")
           guideTemplate);
    vm_compute; reflexivity.
Defined.

(** X21.  The content is not inserted verbatim: [String.replace]
    expands the dollar patterns of its replacement, so a content that
    holds [$$] appears on the page with a single [$]. *)
Theorem a_doubled_dollar_sign_in_the_content_is_halved
    (cwd : jsstring) (fs : filesystem) (yaml_load : jsstring -> result yaml)
    (marked sanitize : jsstring -> result jsstring) (JSDOM : jsstring -> document)
    (mdPath : jsstring) (ctx : context) (raw : jsstring) (fm : frontmatter)
    (rendered clean a b : jsstring) (pieces : list piece) :
  fs mdPath = Some (File raw) ->
  parseYamlFrontmatter yaml_load raw = Ok fm ->
  marked (body fm) = Ok rendered -> sanitize rendered = Ok clean ->
  rewriteLinksHtml cwd JSDOM clean mdPath (path.basename (home_md ctx))
  = Ok (a ++ js "$$" ++ b) ->
  templateContent ctx = templateText pieces ->
  forallb wellFormedPiece pieces = true ->
  let home := path.basename (home_md ctx) in
  let title := escapeHtml (pageTitle fm (site_title ctx)) in
  let description := escapeHtml (pageDescription fm (site_title ctx)) in
  let nav := pageNavHtml cwd (navItems ctx) (site_title ctx) (home_md ctx)
               (navTemplateContent ctx) mdPath in
  let href := stylesheetHref cwd mdPath home (stylesheetOut ctx) in
  plainValue title = true -> plainValue description = true ->
  plainValue nav = true -> plainValue href = true ->
  noChar (ch "$") a = true -> noChar (ch "$") b = true ->
  renderPage cwd fs yaml_load marked sanitize JSDOM mdPath ctx
  = Ok (computeOutputHtmlPath cwd mdPath home,
        templateText
          (fillFirst (js "CONTENT") (a ++ js "$" ++ b)
             (fillFirst (js "STYLESHEET_HREF") href
                (fillFirst (js "NAV") nav
                   (fillFirst (js "DESCRIPTION") description
                      (fillFirst (js "TITLE") title pieces)))))).
Proof.
  intros Hfs Hfm Hm Hs Hr Ht Hwf home title description nav href
         Ptitle Pdesc Pnav Phref Ha Hb.
  eapply renderPage_fills; eauto.
  intros m pre post. now apply getSubstitution_dollars.
Qed.

Lemma a_doubled_dollar_sign_in_the_content_is_halved_witness :
  renderPage (js "/srv/repo") guideTree (fun _ => Throw YAMLException)
    (constMarked (js "<p>$$5</p>")) Ok (constDom (js "<p>$$5</p>"))
    (js "/srv/repo/docs/guide.md") guideContext
  = Ok (js "/srv/repo/_site/docs/guide/index.html",
        js "<title>Guide</title><h1>{{TITLE}}</h1><p>$5</p>").
Proof.
  apply (a_doubled_dollar_sign_in_the_content_is_halved
           (js "/srv/repo") guideTree (fun _ => Throw YAMLException)
           (constMarked (js "<p>$$5</p>")) Ok (constDom (js "<p>$$5</p>"))
           (js "/srv/repo/docs/guide.md") guideContext
           (js "# Guide") {| attributes := YMap []; body := js "# Guide" |}
           (js "<p>$$5</p>") (js "<p>$$5</p>") (js "<p>") (js "5</p>")
           guideTemplate);
    vm_compute; reflexivity.
Defined.

(** ** Two readings of the same document *)

Lemma findFirst_absent (p s : jsstring) (c : N) :
  noChar c s = true -> findFirst (c :: p) s = None.
Proof.
  induction s as [|x s IH]; intros H.
  - reflexivity.
  - cbn [noChar forallb] in H. apply andb_prop in H as [Hx Hs].
    apply negb_true_iff in Hx.
    rewrite findFirst_step; [|cbn [startsWith]; now rewrite Hx].
    now rewrite (IH Hs).
Qed.

Lemma no_lt_no_LF (s : jsstring) :
  forallb (fun c => negb (is_lt c)) s = true -> noChar LF s = true.
Proof.
  apply forallb_impl. intros x Hx. apply negb_true_iff in Hx.
  apply negb_true_iff. unfold is_lt in Hx.
  apply orb_false_iff in Hx as [Hx _]. apply orb_false_iff in Hx as [Hx _].
  now apply orb_false_iff in Hx as [Hx _].
Qed.

(** X22.  The navigation and the page read the title of a document
    differently.  Without a configured title, the navigation takes
    the first [# ] line of the raw file, so a comment line of the
    frontmatter block is taken for the heading; the page takes its
    title from the body after the frontmatter, whatever the loader
    does with the block (it may reject it), as long as it finds no
    title there. *)
Theorem the_navigation_title_is_read_from_the_raw_file
    (cwd : jsstring) (fs : filesystem) (yaml_load : jsstring -> result yaml)
    (home mdPath c t site_title : jsstring) :
  forallb (fun x => negb (is_lt x)) c = true -> dropWhile is_ws c <> [] ->
  forallb (fun x => negb (is_lt x)) t = true -> dropWhile is_ws t <> [] ->
  let block := js "# " ++ c in
  let raw := js "---" ++ [LF] ++ block ++ [LF] ++ js "---" ++ [LF]
             ++ js "# " ++ t in
  fs mdPath = Some (File raw) ->
  (forall l s, yaml_load block = Ok (YMap l) ->
               lookupKey (js "title") l = Some (YStr s) ->
               is_empty (trim s) = true) ->
  resolveMdNavItem cwd fs home mdPath None
  = Ok (Internal mdPath (trim c) (computeOutputHtmlPath cwd mdPath home))
  /\ exists fm, parseYamlFrontmatter yaml_load raw = Ok fm
                /\ pageTitle fm site_title = trim t.
Proof.
  intros Hc Hcne Ht Htne block raw Hfs Hy. split.
  - unfold resolveMdNavItem, titleOr, fs_readFile. rewrite Hfs. cbn [bind].
    assert (E : parseFirstH1 raw = Ok (trim c)).
    { unfold raw, block.
      replace (js "---" ++ [LF] ++ (js "# " ++ c) ++ [LF] ++ js "---" ++ [LF]
               ++ js "# " ++ t)
        with ((js "---" ++ [LF]) ++ js "# " ++ c
              ++ (LF :: js "---" ++ [LF] ++ js "# " ++ t))
        by (cbn [js app]; now rewrite <- !app_assoc).
      apply parseFirstH1_heading; trivial.
      - intros q l E.
        change (js "---" ++ [LF]) with (js "---" ++ [LF]) in E.
        apply app_inj_tail in E as [_ <-]. reflexivity.
      - right. eexists _, _. split; reflexivity. }
    rewrite E. reflexivity.
  - eexists. split.
    + unfold raw. apply parseYamlFrontmatter_fenced.
      * discriminate.
      * reflexivity.
      * apply findFirst_absent. unfold block, noChar.
        rewrite forallb_app. cbn [js forallb]. cbn.
        now apply no_lt_no_LF.
    + unfold pageTitle. cbn [attributes body].
      destruct (stringField_cases
                  (match yaml_load block with
                   | Ok v => if truthy v then v else YMap []
                   | Throw _ => YMap []
                   end) (js "title")
                  (titleFallback (dropWhile is_ws (js "# " ++ t)) site_title))
        as [_ S].
      rewrite S.
      2:{ intros l s El Hl.
          destruct (yaml_load block) as [v|e] eqn:Ev.
          - destruct (truthy v).
            + subst v. now apply (Hy l).
            + inversion El; subst l. discriminate.
          - inversion El; subst l. discriminate. }
      change (dropWhile is_ws (js "# " ++ t)) with (js "# " ++ t).
      assert (M : h1Scan true (js "# " ++ t) = Some (dropWhile is_ws t)).
      { pose proof (h1Scan_finds [] (32 :: t ++ []) (dropWhile is_ws t)
                      eq_refl) as G.
        rewrite app_nil_r in G. apply G.
        - pose proof (h1Here_heading t [] Ht Htne (or_introl eq_refl)) as G'.
          rewrite app_nil_r in G'. exact G'.
        - trivial.
        - intros q l E. now destruct q. }
      unfold titleFallback, matchFirstH1. rewrite M.
      rewrite trim_dropWhile, (trim_nonempty _ Htne). reflexivity.
Qed.

Lemma the_navigation_title_is_read_from_the_raw_file_witness :
  resolveMdNavItem (js "/srv/repo") draftTree (js "README.md")
    (js "/srv/repo/notes.md") None
  = Ok (Internal (js "/srv/repo/notes.md") (js "draft")
          (js "/srv/repo/_site/notes/index.html"))
  /\ exists fm,
       parseYamlFrontmatter (fun _ => Throw YAMLException)
         (js "---" ++ [LF] ++ js "# draft" ++ [LF] ++ js "---" ++ [LF]
          ++ js "# Field notes") = Ok fm
       /\ pageTitle fm (js "Notes") = js "Field notes".
Proof.
  apply (the_navigation_title_is_read_from_the_raw_file
           (js "/srv/repo") draftTree (fun _ => Throw YAMLException)
           (js "README.md")
           (js "/srv/repo/notes.md") (js "draft") (js "Field notes")
           (js "Notes"));
    try (vm_compute; reflexivity); discriminate.
Defined.

(** ** References to files that are not Markdown *)

(** X23.  A local reference to a file that is not Markdown is
    rewritten to a reference to its copy in the site: followed from
    the directory of the page, the rewritten path leads to the place
    below [_site] that mirrors the file's place below the content
    root, and the query and the fragment are appended unchanged.
    (A file whose copy would be the page's own directory is
    excluded.) *)
Theorem asset_references_lead_to_the_copied_file
    (R d p : list jsstring) (b home : jsstring) (el : element)
    (attrName raw rest url query hash decoded : jsstring) :
  names R = true ->
  names d = true -> isName b = true ->
  startsWith (js ".") b = false -> isMarkdown b = true ->
  names p = true -> p <> [] ->
  let cwd := absPath R in
  let source := absPath (R ++ d ++ [b]) in
  let pageDir := path.dirname (computeOutputHtmlPath cwd source home) in
  getAttribute el attrName = Some raw ->
  raw <> [] -> isAbsoluteUrl raw = false -> isMailOrTel raw = false ->
  startsWith (js "#") raw = false ->
  splitAt (ch "#") raw = (rest, hash) ->
  splitAt (ch "?") rest = (url, query) ->
  isMarkdown url = false -> decodeURI url = Ok decoded ->
  path.resolve cwd [path.dirname source; decoded] = absPath (R ++ p) ->
  pageDir <> absPath (siteSegs R ++ p) ->
  exists v,
    processAttr cwd source home el attrName
    = Ok (setAttribute el attrName (v ++ query ++ hash))
    /\ path.resolve cwd [pageDir; v] = absPath (siteSegs R ++ p).
Proof.
  intros HR Hd Hb Hdot Hmd Hp Hpne cwd source pageDir
         Hget Hne Habs Hmail Hhash Hh Hq Hnmd Hdec Hres Hneq.
  exists (assetHref cwd source home decoded). split.
  - now apply processAttr_asset with (raw := raw) (rest := rest) (url := url).
  - unfold assetHref. fold pageDir. rewrite Hres. unfold cwd.
    rewrite (relative_root_inside R HR p Hp), (OUTPUT_ROOT_abs R HR).
    rewrite join_abs_names; trivial; [|apply (names_siteSegs R HR)].
    destruct (inside_page R d b home HR Hd Hb Hdot Hmd) as [_ [s' [Hs' ES]]].
    fold cwd in ES. fold source in ES. fold pageDir in ES.
    rewrite ES in *.
    rewrite toRelativeHref_resolves.
    + apply str_eqb_neq in Hneq. now rewrite Hneq.
    + now rewrite names_app, (names_siteSegs R HR).
    + now rewrite names_app, (names_siteSegs R HR).
Qed.

Lemma asset_references_lead_to_the_copied_file_witness :
  let cwd := js "/srv/repo" in
  exists v,
    processAttr cwd (js "/srv/repo/docs/guide.md") (js "README.md")
      {| tagName := js "img"; attrs := [(js "src", js "./fig.png?v=2")] |}
      (js "src")
    = Ok (setAttribute
            {| tagName := js "img"; attrs := [(js "src", js "./fig.png?v=2")] |}
            (js "src") (v ++ js "?v=2" ++ []))
    /\ path.resolve cwd [js "/srv/repo/_site/docs/guide"; v]
       = js "/srv/repo/_site/docs/fig.png".
Proof.
  apply (asset_references_lead_to_the_copied_file
           [js "srv"; js "repo"] [js "docs"] [js "docs"; js "fig.png"]
           (js "guide.md") (js "README.md")
           {| tagName := js "img"; attrs := [(js "src", js "./fig.png?v=2")] |}
           (js "src") (js "./fig.png?v=2") (js "./fig.png?v=2")
           (js "./fig.png") (js "?v=2") [] (js "./fig.png"));
    try (vm_compute; reflexivity); vm_compute; discriminate.
Defined.

(** ** What is published *)

Lemma walked_file (R : list jsstring) (entries : list dirent) (f : jsstring) :
  names R = true -> forallb wellNamed entries = true ->
  In f (walkFiles (absPath R) entries) ->
  exists p, f = absPath (R ++ p) /\ names p = true /\ p <> []
            /\ forallb visible p = true.
Proof.
  intros HR HW Hin. rewrite walkEntry_visits_all in Hin by assumption.
  apply in_map_iff in Hin as [p [<- Hp]].
  destruct (visible_files_names entries p HW Hp) as [Np [Ne Vp]].
  now exists p.
Qed.

Lemma not_walked_below_hidden (R : list jsstring) (entries : list dirent)
    (x : jsstring) (t : list jsstring) :
  names R = true -> forallb wellNamed entries = true ->
  isName x = true -> names t = true -> visible x = false ->
  ~ In (absPath (R ++ x :: t)) (walkFiles (absPath R) entries).
Proof.
  intros HR HW Hx Ht Hv Hin.
  destruct (walked_file R entries _ HR HW Hin) as [p [E [Np [_ Vp]]]].
  apply absPath_inj in E.
  - apply app_inv_head in E. subst p. cbn [forallb] in Vp. now rewrite Hv in Vp.
  - rewrite names_app, HR. cbn. now rewrite Hx.
  - now rewrite names_app, HR.
Qed.

Lemma copied_files_are_walked (cwd startDir outputDir : jsstring)
    (entries : list dirent) (src dest : jsstring) :
  In (CopyFile src dest) (copyTree cwd startDir outputDir entries) ->
  In src (walkFiles startDir entries).
Proof.
  unfold copyTree. intros H. apply in_flat_map in H as [f [Hf [H|[H|[]]]]].
  - discriminate.
  - now inversion H; subst.
Qed.

(** X24.  Of the renderer's own directory only the stylesheet reaches
    the site.  The configuration file [loadConfig] reads and the
    templates [readTemplate] reads lie below [.render], and no file
    below [.render] is among the files the walk visits: none is copied
    by [copyTree] and none is rendered as a page.  The stylesheet of
    the template is the exception: [copyStylesheet] writes its content
    to a file of its own inside [_site]. *)
Theorem only_the_stylesheet_leaves_the_renderer_directory
    (R : list jsstring) (entries : list dirent) (templateFilename : jsstring)
    (fs : filesystem) (sha1 : jsstring -> list N) :
  names R = true -> forallb wellNamed entries = true ->
  isName templateFilename = true ->
  let cwd := absPath R in
  let hidden := inside (R ++ [js ".render"]) in
  hidden (path.join [REPO_ROOT cwd; js ".render"; js "config.yml"])
  /\ hidden (path.join [RENDER_ROOT cwd; js "template"; templateFilename])
  /\ (forall p, hidden p -> ~ In p (walkFiles cwd entries))
  /\ (forall src dest,
        In (CopyFile src dest)
           (copyTree cwd (REPO_ROOT cwd) (OUTPUT_ROOT cwd) entries) ->
        ~ hidden src)
  /\ (forall mdPath, In mdPath (findMarkdownFiles cwd entries) ->
                     ~ hidden mdPath)
  /\ (forall css,
        fs (path.join [RENDER_ROOT cwd; js "template"; js "style.css"])
        = Some (File css) ->
        exists dest,
          In (WriteFile dest css) (fst (copyStylesheet cwd fs sha1))
          /\ inside (siteSegs R) dest).
Proof.
  intros HR HW Hn cwd hidden.
  assert (Hjoin : forall name, isName name = true ->
            path.join [RENDER_ROOT cwd; js "template"; name]
            = absPath ((R ++ [js ".render"]) ++ [js "template"; name])).
  { intros name Hname. unfold RENDER_ROOT, REPO_ROOT, cwd.
    rewrite join_abs_name by (trivial; reflexivity).
    rewrite join_abs3 by (trivial; now rewrite names_app, HR).
    rewrite split_noSlash by reflexivity.
    rewrite normalizeSegs_names by reflexivity.
    rewrite rev_app_distr, !rev_involutive, <- !app_assoc. reflexivity. }
  assert (Hwalk : forall p, hidden p -> ~ In p (walkFiles cwd entries)).
  { intros p [t [Ht ->]]. rewrite <- app_assoc. cbn [app].
    apply not_walked_below_hidden; trivial. }
  split; [|split; [|split; [|split; [|split]]]].
  - exists [js "config.yml"]. split; [reflexivity|].
    unfold REPO_ROOT, cwd. rewrite join_abs3 by (trivial; reflexivity).
    rewrite split_noSlash by reflexivity.
    rewrite normalizeSegs_names by reflexivity.
    now rewrite rev_app_distr, !rev_involutive, <- app_assoc.
  - exists [js "template"; templateFilename]. split.
    + unfold names. cbn [forallb]. now rewrite Hn.
    + now apply Hjoin.
  - exact Hwalk.
  - intros src dest Hin Hh. apply (Hwalk src Hh).
    now apply copied_files_are_walked in Hin.
  - intros mdPath Hin Hh. apply (Hwalk mdPath Hh).
    unfold findMarkdownFiles in Hin. now apply filter_In in Hin as [Hin _].
  - intros css Hfs. rewrite Hjoin in Hfs by reflexivity.
    rewrite <- app_assoc in Hfs. cbn [app] in Hfs.
    destruct (copyStylesheet_writes R fs sha1 css HR Hfs) as [Nf E].
    fold cwd in E. rewrite E. eexists. split.
    + right. left. reflexivity.
    + eexists. split; [|reflexivity].
      unfold names. cbn [forallb]. now rewrite Nf.
Qed.

Lemma only_the_stylesheet_leaves_the_renderer_directory_witness :
  let cwd := js "/srv/repo" in
  walkFiles cwd sampleListing
  = [js "/srv/repo/README.md"; js "/srv/repo/docs/guide.md";
     js "/srv/repo/docs/fig.png"]
  /\ ~ In (js "/srv/repo/.render/config.yml") (walkFiles cwd sampleListing)
  /\ ~ In (js "/srv/repo/.render/template/index.html")
          (walkFiles cwd sampleListing)
  /\ exists dest,
       In (WriteFile dest (js "body{}"))
          (fst (copyStylesheet cwd styleTree sampleDigest))
       /\ inside [js "srv"; js "repo"; js "_site"] dest.
Proof.
  split; [vm_compute; reflexivity|].
  destruct (only_the_stylesheet_leaves_the_renderer_directory
              [js "srv"; js "repo"] sampleListing (js "index.html")
              styleTree sampleDigest)
    as [H1 [H2 [H3 [_ [_ H4]]]]]; try (vm_compute; reflexivity).
  split; [|split].
  - apply H3. exists [js "config.yml"]. split; reflexivity.
  - apply H3. exists [js "template"; js "index.html"]. split; reflexivity.
  - apply H4. vm_compute. reflexivity.
Defined.

(** X25.  The location of a page coincides with the destination of
    at most one copied file: the [index.html] of the directory named
    after the document ([index.html] of the root for the home
    document).  The copy of a Markdown source is never replaced by a
    page. *)
Theorem a_page_replaces_at_most_a_copied_index_html
    (R d : list jsstring) (b home : jsstring) (entries : list dirent)
    (src dest : jsstring) :
  names R = true -> forallb wellNamed entries = true ->
  names d = true -> isName b = true ->
  startsWith (js ".") b = false -> isMarkdown b = true ->
  let cwd := absPath R in
  In (CopyFile src dest)
     (copyTree cwd (REPO_ROOT cwd) (OUTPUT_ROOT cwd) entries) ->
  dest = computeOutputHtmlPath cwd (absPath (R ++ d ++ [b])) home ->
  src = absPath (R ++ (if isHome d b home then []
                       else d ++ [strip_suffix_ci (js ".md") b])
                   ++ [js "index.html"]).
Proof.
  intros HR HW Hd Hb Hdot Hmd cwd Hin Hdest.
  unfold cwd, REPO_ROOT in Hin. rewrite (OUTPUT_ROOT_abs R HR) in Hin.
  rewrite copyTree_plan in Hin; trivial; [|apply (names_siteSegs R HR)].
  apply in_flat_map in Hin as [p [Hp Hin]].
  destruct (visible_files_names entries p HW Hp) as [Np [Ne Vp]].
  destruct Hin as [E|[E|[]]]; [discriminate|]. inversion E; subst src dest.
  unfold cwd in H1. rewrite page_of_found_file in H1 by assumption.
  apply absPath_inj in H1.
  - apply app_inv_head in H1. now subst p.
  - now rewrite names_app, (names_siteSegs R HR).
  - rewrite names_app, (names_siteSegs R HR).
    apply names_page_segs; trivial. now apply md_stem_isName.
Qed.

Lemma a_page_replaces_at_most_a_copied_index_html_witness :
  let cwd := js "/srv/repo" in
  In (CopyFile (js "/srv/repo/docs/guide/index.html")
               (js "/srv/repo/_site/docs/guide/index.html"))
     (copyTree cwd (REPO_ROOT cwd) (OUTPUT_ROOT cwd) clashListing)
  /\ js "/srv/repo/_site/docs/guide/index.html"
     = computeOutputHtmlPath cwd (js "/srv/repo/docs/guide.md") (js "README.md")
  /\ js "/srv/repo/docs/guide/index.html"
     = js "/srv/repo/docs/guide/index.html".
Proof.
  assert (H : In (CopyFile (js "/srv/repo/docs/guide/index.html")
                           (js "/srv/repo/_site/docs/guide/index.html"))
                 (copyTree (js "/srv/repo") (REPO_ROOT (js "/srv/repo"))
                    (OUTPUT_ROOT (js "/srv/repo")) clashListing)).
  { vm_compute. right. right. right. now left. }
  split; [exact H|]. split; [vm_compute; reflexivity|].
  apply (a_page_replaces_at_most_a_copied_index_html
           [js "srv"; js "repo"] [js "docs"] (js "guide.md") (js "README.md")
           clashListing (js "/srv/repo/docs/guide/index.html")
           (js "/srv/repo/_site/docs/guide/index.html"));
    try (vm_compute; reflexivity).
  exact H.
Defined.

(** ** Configured titles *)











(** ** The navigation template *)

(** X27.  [buildNavHtml] fills the navigation template: for a
    template whose text holds no brace outside its placeholders, and
    values without [{] and [$], the result is the template with the
    first [{{TITLE_HTML}}], [{{LINKS_HTML}}], [{{HOME_HREF}}] and
    [{{SITE_TITLE}}] replaced by the title link, the links joined by
    spaces, the home href and the escaped site title. *)
Theorem the_navigation_template_is_filled_once
    (cwd : jsstring) (navItems : list navItem)
    (currentOutDir siteTitle homeOutPathAbsolute : jsstring)
    (pieces : list piece) :
  forallb wellFormedPiece pieces = true ->
  let homeHref := homeHrefOf cwd currentOutDir homeOutPathAbsolute in
  let titleHtml :=
    if is_empty siteTitle then []
    else js "<a href=" ++ dq ++ homeHref ++ dq
         ++ js " class=" ++ dq ++ js "site-title" ++ dq ++ js ">"
         ++ escapeHtml siteTitle ++ js "</a>" in
  let linksHtml := joinSpace (map (navLink cwd currentOutDir) navItems) in
  plainValue titleHtml = true -> plainValue linksHtml = true ->
  plainValue homeHref = true -> noChar (ch "$") (escapeHtml siteTitle) = true ->
  buildNavHtml cwd navItems currentOutDir siteTitle homeOutPathAbsolute
    (templateText pieces)
  = templateText
      (fillFirst (js "SITE_TITLE") (escapeHtml siteTitle)
         (fillFirst (js "HOME_HREF") homeHref
            (fillFirst (js "LINKS_HTML") linksHtml
               (fillFirst (js "TITLE_HTML") titleHtml pieces)))).
Proof.
  intros Hwf homeHref titleHtml linksHtml Pt Pl Ph Ps.
  destruct (plainValue_parts _ Pt) as [T1 T2].
  destruct (plainValue_parts _ Pl) as [L1 L2].
  destruct (plainValue_parts _ Ph) as [H1 H2].
  unfold buildNavHtml. fold homeHref. fold titleHtml. fold linksHtml.
  change (js "{{TITLE_HTML}}") with (slotText (js "TITLE_HTML")).
  change (js "{{LINKS_HTML}}") with (slotText (js "LINKS_HTML")).
  change (js "{{HOME_HREF}}") with (slotText (js "HOME_HREF")).
  change (js "{{SITE_TITLE}}") with (slotText (js "SITE_TITLE")).
  rewrite (replace_fillFirst (js "TITLE_HTML") titleHtml titleHtml); trivial.
  rewrite (replace_fillFirst (js "LINKS_HTML") linksHtml linksHtml); trivial;
    [|now apply fillFirst_wellFormed].
  rewrite (replace_fillFirst (js "HOME_HREF") homeHref homeHref); trivial;
    [|now repeat apply fillFirst_wellFormed].
  rewrite (replace_fillFirst (js "SITE_TITLE") (escapeHtml siteTitle)
             (escapeHtml siteTitle)); trivial.
  - now repeat apply fillFirst_wellFormed.
  - intros m pre post. now apply getSubstitution_plain.
Qed.

Lemma the_navigation_template_is_filled_once_witness :
  buildNavHtml (js "/srv/repo")
    [External (js "https://example.org/?a=1&b=2") (js "Elsewhere")]
    (js "/srv/repo/_site/docs/guide") (js "Notes")
    (js "/srv/repo/_site/index.html")
    (templateText [Text (js "<nav>"); Slot (js "TITLE_HTML"); Text (js " | ");
                   Slot (js "LINKS_HTML"); Text (js "</nav>")])
  = js "<nav><a href=" ++ dq ++ js "../.." ++ dq ++ js " class=" ++ dq
    ++ js "site-title" ++ dq ++ js ">Notes</a> | <a href=" ++ dq
    ++ js "https://example.org/?a=1&amp;b=2" ++ dq ++ js " style=" ++ dq
    ++ js "margin-right:12px;" ++ dq ++ js " target=" ++ dq ++ js "_blank" ++ dq
    ++ js " rel=" ++ dq ++ js "noopener noreferrer" ++ dq
    ++ js ">Elsewhere</a></nav>".
Proof.
  apply (the_navigation_template_is_filled_once (js "/srv/repo")
           [External (js "https://example.org/?a=1&b=2") (js "Elsewhere")]
           (js "/srv/repo/_site/docs/guide") (js "Notes")
           (js "/srv/repo/_site/index.html")
           [Text (js "<nav>"); Slot (js "TITLE_HTML"); Text (js " | ");
            Slot (js "LINKS_HTML"); Text (js "</nav>")]);
    vm_compute; reflexivity.
Defined.

(** ** A document without a heading *)

Lemma h1Here_no_hash (s : jsstring) :
  noChar 35 s = true -> h1Here s = None.
Proof.
  intros H. unfold h1Here.
  destruct (length (takeWhile is_ws s) <=? 3)%nat; trivial.
  assert (G : noChar 35 (dropWhile is_ws s) = true)
    by now apply forallb_dropWhile.
  destruct (dropWhile is_ws s) as [|c r]; trivial.
  cbn [noChar forallb] in G. apply andb_prop in G as [G _].
  apply negb_true_iff in G. now rewrite G.
Qed.

Lemma h1Scan_no_hash (s : jsstring) :
  noChar 35 s = true -> forall lineStart, h1Scan lineStart s = None.
Proof.
  induction s as [|c s IH]; intros H lineStart.
  - destruct lineStart; reflexivity.
  - cbn [h1Scan]. destruct lineStart.
    + rewrite (h1Here_no_hash _ H). apply IH.
      cbn [noChar forallb] in H. now apply andb_prop in H as [_ H].
    + apply IH. cbn [noChar forallb] in H. now apply andb_prop in H as [_ H].
Qed.

(** X28.  A document that contains no [#] has no first heading:
    [parseFirstH1] raises its error, so a heading that is underlined
    rather than introduced by [#] is not recognised; the navigation
    entry of such a document, when no title is configured, is titled
    [Home] for the home document and by the file name without [.md]
    for any other. *)
Theorem a_document_without_a_hash_has_no_heading
    (cwd : jsstring) (fs : filesystem) (home mdPath md : jsstring) :
  noChar (ch "#") md = true ->
  parseFirstH1 md = Throw NoH1Error
  /\ (fs mdPath = Some (File md) ->
      resolveMdNavItem cwd fs home mdPath None
      = Ok (Internal mdPath
              (if str_eqb (path.basename mdPath) home
                  && str_eqb (path.dirname mdPath) (REPO_ROOT cwd)
               then js "Home"
               else strip_suffix_ci (js ".md") (path.basename mdPath))
              (computeOutputHtmlPath cwd mdPath home))).
Proof.
  intros H.
  assert (E : parseFirstH1 md = Throw NoH1Error).
  { unfold parseFirstH1, matchFirstH1. now rewrite h1Scan_no_hash. }
  split; trivial. intros Hfs.
  unfold resolveMdNavItem, titleOr, fs_readFile. rewrite Hfs. cbn [bind].
  rewrite E. reflexivity.
Qed.

Lemma a_document_without_a_hash_has_no_heading_witness :
  parseFirstH1 (js "Field notes" ++ [LF] ++ js "===========") = Throw NoH1Error.
Proof.
  apply (a_document_without_a_hash_has_no_heading
           (js "/srv/repo") (fun _ => None) (js "README.md")
           (js "/srv/repo/notes.md")
           (js "Field notes" ++ [LF] ++ js "===========")).
  reflexivity.
Defined.

(** ** One page for every document *)

Lemma mapResult_Forall2 {A B : Type} (f : A -> result B) (l : list A)
    (outs : list B) :
  mapResult f l = Ok outs -> Forall2 (fun a b => f a = Ok b) l outs.
Proof.
  revert outs. induction l as [|a l IH]; intros outs H.
  - inversion H. constructor.
  - cbn [mapResult] in H. destruct (f a) as [b|e] eqn:Ea; [|discriminate].
    cbn [bind] in H. destruct (mapResult f l) as [r|e]; [|discriminate].
    inversion H. constructor; auto.
Qed.

Lemma renderPage_location
    (cwd : jsstring) (fs : filesystem) (yaml_load : jsstring -> result yaml)
    (marked sanitize : jsstring -> result jsstring) (JSDOM : jsstring -> document)
    (mdPath : jsstring) (ctx : context) (out : jsstring * jsstring) :
  renderPage cwd fs yaml_load marked sanitize JSDOM mdPath ctx = Ok out ->
  fst out = computeOutputHtmlPath cwd mdPath (path.basename (home_md ctx)).
Proof.
  unfold renderPage.
  destruct (fs_readFile fs mdPath) as [raw|e]; [|discriminate]. cbn [bind].
  destruct (parseYamlFrontmatter yaml_load raw) as [fm|e]; [|discriminate].
  cbn [bind]. destruct (marked (body fm)) as [h1|e]; [|discriminate].
  cbn [bind]. destruct (sanitize h1) as [h2|e]; [|discriminate].
  cbn [bind]. destruct (rewriteLinksHtml _ _ _ _ _) as [h3|e]; [|discriminate].
  cbn [bind]. intros E. inversion E. reflexivity.
Qed.

(** X29.  When the loop of [buildSite] over the Markdown files
    finishes, it has written one page for every Markdown file the
    walk found, in the order found, each at the output location of
    its file; these locations are pairwise different whenever no two
    of the files agree up to the letter case of the extension. *)
Theorem a_finished_build_has_one_page_for_every_document
    (R : list jsstring) (entries : list dirent) (fs : filesystem)
    (yaml_load : jsstring -> result yaml)
    (marked sanitize : jsstring -> result jsstring) (JSDOM : jsstring -> document)
    (ctx : context) (written : list (jsstring * jsstring)) :
  names R = true -> forallb wellNamed entries = true ->
  let cwd := absPath R in
  let allMarkdownFiles := findMarkdownFiles cwd entries in
  renderPages cwd fs yaml_load marked sanitize JSDOM allMarkdownFiles ctx
  = Ok written ->
  map fst written
  = map (fun mdPath =>
           computeOutputHtmlPath cwd mdPath (path.basename (home_md ctx)))
        allMarkdownFiles
  /\ (NoDup (map (strip_suffix_ci (js ".md")) allMarkdownFiles) ->
      NoDup (map fst written)).
Proof.
  intros HR HW cwd allMarkdownFiles H.
  unfold renderPages in H. apply mapResult_Forall2 in H.
  assert (E : map fst written
              = map (fun mdPath =>
                       computeOutputHtmlPath cwd mdPath
                         (path.basename (home_md ctx))) allMarkdownFiles).
  { induction H as [|md out l outs Hr _ IH]; [reflexivity|].
    cbn [map]. rewrite IH. f_equal. now apply renderPage_location in Hr. }
  split; [exact E|]. rewrite E. apply NoDup_map_transfer.
  intros x y Hx Hy. now apply found_pages_same_stem with (entries := entries).
Qed.

Lemma a_finished_build_has_one_page_for_every_document_witness :
  let cwd := js "/srv/repo" in
  let written :=
    [(js "/srv/repo/_site/docs/guide/index.html",
      js "<title>Guide</title><h1>{{TITLE}}</h1><p>text</p>")] in
  renderPages cwd guideTree (fun _ => Throw YAMLException)
    (constMarked (js "<p>text</p>")) Ok (constDom (js "<p>text</p>"))
    (findMarkdownFiles cwd guideListing) guideContext
  = Ok written
  /\ map fst written
     = map (fun mdPath =>
              computeOutputHtmlPath cwd mdPath (path.basename (home_md guideContext)))
           (findMarkdownFiles cwd guideListing)
  /\ (NoDup (map (strip_suffix_ci (js ".md")) (findMarkdownFiles cwd guideListing)) ->
      NoDup (map fst written)).
Proof.
  assert (H : renderPages (js "/srv/repo") guideTree (fun _ => Throw YAMLException)
                (constMarked (js "<p>text</p>")) Ok (constDom (js "<p>text</p>"))
                (findMarkdownFiles (js "/srv/repo") guideListing) guideContext
              = Ok [(js "/srv/repo/_site/docs/guide/index.html",
                     js "<title>Guide</title><h1>{{TITLE}}</h1><p>text</p>")])
    by (vm_compute; reflexivity).
  split; [exact H|].
  apply (a_finished_build_has_one_page_for_every_document
           [js "srv"; js "repo"] guideListing guideTree
           (fun _ => Throw YAMLException)
           (constMarked (js "<p>text</p>")) Ok (constDom (js "<p>text</p>"))
           guideContext);
    vm_compute; reflexivity.
Defined.
